(** * goldi: the type factories of the dependency-injection container

    A shallow embedding of [NewType] and its [typeFactory] (goldi's type.go),
    of the [NoInvalidTypesConstraint] of package validation, and of the
    parts of the container they talk to.  Go's [reflect] values and types
    are modelled by the inductive types [Value] and [GoType]; a function
    that can fail or panic returns in the monad [Res]. *)

From stdpp Require Import base option list strings gmap pretty sorting.
From Stdlib Require Import ZArith Ascii Permutation Lia.

Open Scope string_scope.
Open Scope list_scope.
Open Scope nat_scope.
Set Warnings "-register-all".

(** ** reflect.Kind *)

Module Kind.

Inductive t :=
| Invalid | Bool | Int | Int8 | Int16 | Int32 | Int64
| Uint | Uint8 | Uint16 | Uint32 | Uint64 | Uintptr
| Float32 | Float64 | Complex64 | Complex128
| Array | Chan | Func | Interface | Map | Ptr | Slice
| String | Struct | UnsafePointer.

#[global] Instance eq_dec : EqDecision t.
Proof. solve_decision. Defined.

(** [Kind.String()]: the table [kindNames] of package reflect. *)
Definition name (k : t) : string :=
  match k with
  | Invalid => "invalid" | Bool => "bool" | Int => "int" | Int8 => "int8"
  | Int16 => "int16" | Int32 => "int32" | Int64 => "int64"
  | Uint => "uint" | Uint8 => "uint8" | Uint16 => "uint16"
  | Uint32 => "uint32" | Uint64 => "uint64" | Uintptr => "uintptr"
  | Float32 => "float32" | Float64 => "float64"
  | Complex64 => "complex64" | Complex128 => "complex128"
  | Array => "array" | Chan => "chan" | Func => "func"
  | Interface => "interface" | Map => "map" | Ptr => "ptr"
  | Slice => "slice" | String => "string" | Struct => "struct"
  | UnsafePointer => "unsafe.Pointer"
  end.

End Kind.

(** ** The predeclared basic types *)

Module Basic.

Inductive t :=
| Bool | Int | Int8 | Int16 | Int32 | Int64
| Uint | Uint8 | Uint16 | Uint32 | Uint64 | Uintptr
| Float32 | Float64 | Complex64 | Complex128 | String.

#[global] Instance eq_dec : EqDecision t.
Proof. solve_decision. Defined.

Definition kind (b : t) : Kind.t :=
  match b with
  | Bool => Kind.Bool | Int => Kind.Int | Int8 => Kind.Int8
  | Int16 => Kind.Int16 | Int32 => Kind.Int32 | Int64 => Kind.Int64
  | Uint => Kind.Uint | Uint8 => Kind.Uint8 | Uint16 => Kind.Uint16
  | Uint32 => Kind.Uint32 | Uint64 => Kind.Uint64
  | Uintptr => Kind.Uintptr
  | Float32 => Kind.Float32 | Float64 => Kind.Float64
  | Complex64 => Kind.Complex64 | Complex128 => Kind.Complex128
  | String => Kind.String
  end.

End Basic.

(** ** reflect.Type

    A function type keeps its fixed parameters apart from its variadic
    one: [TFunc ps (Some e) rs] is [func(ps..., ...e) rs], whose last
    parameter has type [[]e].  A defined (named) type carries the name
    [Type.String()] prints for it and its underlying type. *)

Inductive GoType :=
| TBasic (b : Basic.t)
| TNamed (name : string) (underlying : GoType)
| TPtr (elem : GoType)
| TSlice (elem : GoType)
| TMap (key elem : GoType)
| TStruct (fields : list (string * GoType))
| TInterface (methods : list (string * GoType))
| TFunc (params : list GoType) (variadic : option GoType)
        (results : list GoType).

Fixpoint underlying (t : GoType) : GoType :=
  match t with
  | TNamed _ u => underlying u
  | _ => t
  end.

(** [Type.Kind()] *)
Definition Kind_of (t : GoType) : Kind.t :=
  match underlying t with
  | TBasic b => Basic.kind b
  | TNamed _ _ => Kind.Invalid
  | TPtr _ => Kind.Ptr
  | TSlice _ => Kind.Slice
  | TMap _ _ => Kind.Map
  | TStruct _ => Kind.Struct
  | TInterface _ => Kind.Interface
  | TFunc _ _ _ => Kind.Func
  end.

(** ** Values

    One type stands for both a Go value boxed in an [interface{}] and the
    [reflect.Value] made from it.  [VNil] is the nil interface value; its
    [reflect.Value] is the zero Value, of kind [Invalid]. *)

Inductive Value :=
| VNil
| VBool (b : bool)
| VInt (n : Z)
| VFloat64 (bits : Z)
| VString (s : string)
| VNamed (name : string) (v : Value)
| VPtr (elem : GoType) (target : option Value)
| VStruct (name : string) (fields : list (string * GoType * Value))
| VSlice (elem : GoType) (items : list Value)
| VMap (key elem : GoType) (entries : list (Value * Value))
| VFunc (symbol : string) (params : list GoType)
        (variadic : option GoType) (results : list GoType)
| VMethod (recv : Value) (member : string) (params : list GoType)
          (variadic : option GoType) (results : list GoType).

(** [reflect.TypeOf]: [None] is the nil [reflect.Type]. *)
Fixpoint TypeOf (v : Value) : option GoType :=
  match v with
  | VNil => None
  | VBool _ => Some (TBasic Basic.Bool)
  | VInt _ => Some (TBasic Basic.Int)
  | VFloat64 _ => Some (TBasic Basic.Float64)
  | VString _ => Some (TBasic Basic.String)
  | VNamed name v' =>
      match TypeOf v' with
      | Some u => Some (TNamed name u)
      | None => None
      end
  | VPtr elem _ => Some (TPtr elem)
  | VStruct name fields =>
      Some (TNamed name (TStruct (map (λ f, (f.1.1, f.1.2)) fields)))
  | VSlice elem _ => Some (TSlice elem)
  | VMap key elem _ => Some (TMap key elem)
  | VFunc _ ps va rs => Some (TFunc ps va rs)
  | VMethod _ _ ps va rs => Some (TFunc ps va rs)
  end.

(** [reflect.ValueOf] *)
Definition ValueOf (i : Value) : Value := i.

(** [Value.Kind()]: the zero Value has kind [Invalid]. *)
Definition Value_Kind (v : Value) : Kind.t :=
  match TypeOf v with
  | Some t => Kind_of t
  | None => Kind.Invalid
  end.

(** The type assertion [argument.(string)]. *)
Definition as_string (i : Value) : option string :=
  match i with
  | VString s => Some s
  | _ => None
  end.

(** ** Text: the pieces of fmt and strconv the error messages use *)

Definition dquote : string := String (Ascii.ascii_of_nat 34) EmptyString.

Definition backslash : string := String (Ascii.ascii_of_nat 92) EmptyString.

(** The verb [%d] on a non-negative [int]. *)
Definition fmt_d (n : nat) : string := pretty n.

Definition hex_digit (n : nat) : ascii :=
  match n with
  | 0 => "0" | 1 => "1" | 2 => "2" | 3 => "3" | 4 => "4" | 5 => "5"
  | 6 => "6" | 7 => "7" | 8 => "8" | 9 => "9" | 10 => "a" | 11 => "b"
  | 12 => "c" | 13 => "d" | 14 => "e" | _ => "f"
  end%char.

(** [lowerhex[r>>s&0xF]] *)
Definition lowerhex (r : N) (s : N) : string :=
  String (hex_digit (N.to_nat (N.land (N.shiftr r s) 15))) EmptyString.

(** [byte(r)] *)
Definition byte (r : N) : ascii := ascii_of_N (N.land r 255).

(** [utf8.RuneError] *)
Definition RuneError : N := 65533.

(** The table [first] of package utf8, for a byte that is not ASCII: the
    size of the encoding the byte starts, and the bounds of the second
    byte; [None] for a byte that starts no encoding. *)
Definition utf8_first (s0 : N) : option (nat * N * N) :=
  if ((194 <=? s0) && (s0 <=? 223))%N then Some (2, 128%N, 191%N)
  else if (s0 =? 224)%N then Some (3, 160%N, 191%N)
  else if (s0 =? 237)%N then Some (3, 128%N, 159%N)
  else if ((225 <=? s0) && (s0 <=? 239))%N then Some (3, 128%N, 191%N)
  else if (s0 =? 240)%N then Some (4, 144%N, 191%N)
  else if ((241 <=? s0) && (s0 <=? 243))%N then Some (4, 128%N, 191%N)
  else if (s0 =? 244)%N then Some (4, 128%N, 143%N)
  else None.

(** [utf8.DecodeRuneInString]: the rune at the head of [s] and the width
    of its encoding; [RuneError] and the width 1 where the head of [s] is
    no shortest encoding of a rune. *)
Definition DecodeRuneInString (s : string) : N * nat :=
  let within (lo hi b : N) := ((lo <=? b) && (b <=? hi))%N in
  match s with
  | EmptyString => (RuneError, 0)
  | String c0 rest1 =>
      let s0 := N_of_ascii c0 in
      if (s0 <? 128)%N then (s0, 1)
      else
        match utf8_first s0, rest1 with
        | Some (sz, lo, hi), String c1 rest2 =>
            let s1 := N_of_ascii c1 in
            if negb (within lo hi s1) then (RuneError, 1)
            else if decide (sz ≤ 2) then
              (N.lor (N.shiftl (N.land s0 31) 6) (N.land s1 63), 2)
            else
              match rest2 with
              | String c2 rest3 =>
                  let s2 := N_of_ascii c2 in
                  if negb (within 128%N 191%N s2) then (RuneError, 1)
                  else if decide (sz ≤ 3) then
                    (N.lor (N.lor (N.shiftl (N.land s0 15) 12)
                                  (N.shiftl (N.land s1 63) 6))
                           (N.land s2 63), 3)
                  else
                    match rest3 with
                    | String c3 _ =>
                        let s3 := N_of_ascii c3 in
                        if negb (within 128%N 191%N s3) then (RuneError, 1)
                        else
                          (N.lor (N.lor (N.lor (N.shiftl (N.land s0 7) 18)
                                               (N.shiftl (N.land s1 63) 12))
                                        (N.shiftl (N.land s2 63) 6))
                                 (N.land s3 63), 4)
                    | EmptyString => (RuneError, 1)
                    end
              | EmptyString => (RuneError, 1)
              end
        | _, _ => (RuneError, 1)
        end
  end.

(** [utf8.ValidRune] *)
Definition ValidRune (r : N) : bool :=
  ((r <? 55296) || (57343 <? r) && (r <=? 1114111))%N.

(** [utf8.AppendRune] on an empty buffer: the encoding of the rune. *)
Definition AppendRune (r : N) : string :=
  let tx (x : N) := String (byte (N.lor 128%N (N.land x 63%N))) EmptyString in
  let three (r : N) :=
    String (byte (N.lor 224%N (N.shiftr r 12%N))) EmptyString +:+
    tx (N.shiftr r 6%N) +:+ tx r in
  if (r <=? 127)%N then String (byte r) EmptyString
  else if (r <=? 2047)%N then
    String (byte (N.lor 192%N (N.shiftr r 6%N))) EmptyString +:+ tx r
  else if negb (ValidRune r) then three RuneError
  else if (r <=? 65535)%N then three r
  else
    String (byte (N.lor 240%N (N.shiftr r 18%N))) EmptyString +:+
    tx (N.shiftr r 12%N) +:+ tx (N.shiftr r 6%N) +:+ tx r.

(** The code points above Latin-1 that [strconv.IsPrint] takes for
    printable, as ranges with both ends: the letters, marks, numbers,
    punctuation and symbols (the general categories L, M, N, P and S) of
    Unicode 14.0.0.  Package strconv holds them in its tables
    [isPrint16], [isNotPrint16], [isPrint32] and [isNotPrint32], made
    from the Unicode tables of its release. *)
Definition isPrint_ranges : list (N * N) :=
  [(256, 887); (890, 895); (900, 906); (908, 908); (910, 929); (931, 1327);
   (1329, 1366); (1369, 1418); (1421, 1423); (1425, 1479); (1488, 1514);
   (1519, 1524); (1542, 1563); (1565, 1756); (1758, 1805); (1808, 1866);
   (1869, 1969); (1984, 2042); (2045, 2093); (2096, 2110); (2112, 2139);
   (2142, 2142); (2144, 2154); (2160, 2190); (2200, 2273); (2275, 2435);
   (2437, 2444); (2447, 2448); (2451, 2472); (2474, 2480); (2482, 2482);
   (2486, 2489); (2492, 2500); (2503, 2504); (2507, 2510); (2519, 2519);
   (2524, 2525); (2527, 2531); (2534, 2558); (2561, 2563); (2565, 2570);
   (2575, 2576); (2579, 2600); (2602, 2608); (2610, 2611); (2613, 2614);
   (2616, 2617); (2620, 2620); (2622, 2626); (2631, 2632); (2635, 2637);
   (2641, 2641); (2649, 2652); (2654, 2654); (2662, 2678); (2689, 2691);
   (2693, 2701); (2703, 2705); (2707, 2728); (2730, 2736); (2738, 2739);
   (2741, 2745); (2748, 2757); (2759, 2761); (2763, 2765); (2768, 2768);
   (2784, 2787); (2790, 2801); (2809, 2815); (2817, 2819); (2821, 2828);
   (2831, 2832); (2835, 2856); (2858, 2864); (2866, 2867); (2869, 2873);
   (2876, 2884); (2887, 2888); (2891, 2893); (2901, 2903); (2908, 2909);
   (2911, 2915); (2918, 2935); (2946, 2947); (2949, 2954); (2958, 2960);
   (2962, 2965); (2969, 2970); (2972, 2972); (2974, 2975); (2979, 2980);
   (2984, 2986); (2990, 3001); (3006, 3010); (3014, 3016); (3018, 3021);
   (3024, 3024); (3031, 3031); (3046, 3066); (3072, 3084); (3086, 3088);
   (3090, 3112); (3114, 3129); (3132, 3140); (3142, 3144); (3146, 3149);
   (3157, 3158); (3160, 3162); (3165, 3165); (3168, 3171); (3174, 3183);
   (3191, 3212); (3214, 3216); (3218, 3240); (3242, 3251); (3253, 3257);
   (3260, 3268); (3270, 3272); (3274, 3277); (3285, 3286); (3293, 3294);
   (3296, 3299); (3302, 3311); (3313, 3314); (3328, 3340); (3342, 3344);
   (3346, 3396); (3398, 3400); (3402, 3407); (3412, 3427); (3430, 3455);
   (3457, 3459); (3461, 3478); (3482, 3505); (3507, 3515); (3517, 3517);
   (3520, 3526); (3530, 3530); (3535, 3540); (3542, 3542); (3544, 3551);
   (3558, 3567); (3570, 3572); (3585, 3642); (3647, 3675); (3713, 3714);
   (3716, 3716); (3718, 3722); (3724, 3747); (3749, 3749); (3751, 3773);
   (3776, 3780); (3782, 3782); (3784, 3789); (3792, 3801); (3804, 3807);
   (3840, 3911); (3913, 3948); (3953, 3991); (3993, 4028); (4030, 4044);
   (4046, 4058); (4096, 4293); (4295, 4295); (4301, 4301); (4304, 4680);
   (4682, 4685); (4688, 4694); (4696, 4696); (4698, 4701); (4704, 4744);
   (4746, 4749); (4752, 4784); (4786, 4789); (4792, 4798); (4800, 4800);
   (4802, 4805); (4808, 4822); (4824, 4880); (4882, 4885); (4888, 4954);
   (4957, 4988); (4992, 5017); (5024, 5109); (5112, 5117); (5120, 5759);
   (5761, 5788); (5792, 5880); (5888, 5909); (5919, 5942); (5952, 5971);
   (5984, 5996); (5998, 6000); (6002, 6003); (6016, 6109); (6112, 6121);
   (6128, 6137); (6144, 6157); (6159, 6169); (6176, 6264); (6272, 6314);
   (6320, 6389); (6400, 6430); (6432, 6443); (6448, 6459); (6464, 6464);
   (6468, 6509); (6512, 6516); (6528, 6571); (6576, 6601); (6608, 6618);
   (6622, 6683); (6686, 6750); (6752, 6780); (6783, 6793); (6800, 6809);
   (6816, 6829); (6832, 6862); (6912, 6988); (6992, 7038); (7040, 7155);
   (7164, 7223); (7227, 7241); (7245, 7304); (7312, 7354); (7357, 7367);
   (7376, 7418); (7424, 7957); (7960, 7965); (7968, 8005); (8008, 8013);
   (8016, 8023); (8025, 8025); (8027, 8027); (8029, 8029); (8031, 8061);
   (8064, 8116); (8118, 8132); (8134, 8147); (8150, 8155); (8157, 8175);
   (8178, 8180); (8182, 8190); (8208, 8231); (8240, 8286); (8304, 8305);
   (8308, 8334); (8336, 8348); (8352, 8384); (8400, 8432); (8448, 8587);
   (8592, 9254); (9280, 9290); (9312, 11123); (11126, 11157); (11159, 11507);
   (11513, 11557); (11559, 11559); (11565, 11565); (11568, 11623);
   (11631, 11632); (11647, 11670); (11680, 11686); (11688, 11694);
   (11696, 11702); (11704, 11710); (11712, 11718); (11720, 11726);
   (11728, 11734); (11736, 11742); (11744, 11869); (11904, 11929);
   (11931, 12019); (12032, 12245); (12272, 12283); (12289, 12351);
   (12353, 12438); (12441, 12543); (12549, 12591); (12593, 12686);
   (12688, 12771); (12784, 12830); (12832, 42124); (42128, 42182);
   (42192, 42539); (42560, 42743); (42752, 42954); (42960, 42961);
   (42963, 42963); (42965, 42969); (42994, 43052); (43056, 43065);
   (43072, 43127); (43136, 43205); (43214, 43225); (43232, 43347);
   (43359, 43388); (43392, 43469); (43471, 43481); (43486, 43518);
   (43520, 43574); (43584, 43597); (43600, 43609); (43612, 43714);
   (43739, 43766); (43777, 43782); (43785, 43790); (43793, 43798);
   (43808, 43814); (43816, 43822); (43824, 43883); (43888, 44013);
   (44016, 44025); (44032, 55203); (55216, 55238); (55243, 55291);
   (63744, 64109); (64112, 64217); (64256, 64262); (64275, 64279);
   (64285, 64310); (64312, 64316); (64318, 64318); (64320, 64321);
   (64323, 64324); (64326, 64450); (64467, 64911); (64914, 64967);
   (64975, 64975); (65008, 65049); (65056, 65106); (65108, 65126);
   (65128, 65131); (65136, 65140); (65142, 65276); (65281, 65470);
   (65474, 65479); (65482, 65487); (65490, 65495); (65498, 65500);
   (65504, 65510); (65512, 65518); (65532, 65533); (65536, 65547);
   (65549, 65574); (65576, 65594); (65596, 65597); (65599, 65613);
   (65616, 65629); (65664, 65786); (65792, 65794); (65799, 65843);
   (65847, 65934); (65936, 65948); (65952, 65952); (66000, 66045);
   (66176, 66204); (66208, 66256); (66272, 66299); (66304, 66339);
   (66349, 66378); (66384, 66426); (66432, 66461); (66463, 66499);
   (66504, 66517); (66560, 66717); (66720, 66729); (66736, 66771);
   (66776, 66811); (66816, 66855); (66864, 66915); (66927, 66938);
   (66940, 66954); (66956, 66962); (66964, 66965); (66967, 66977);
   (66979, 66993); (66995, 67001); (67003, 67004); (67072, 67382);
   (67392, 67413); (67424, 67431); (67456, 67461); (67463, 67504);
   (67506, 67514); (67584, 67589); (67592, 67592); (67594, 67637);
   (67639, 67640); (67644, 67644); (67647, 67669); (67671, 67742);
   (67751, 67759); (67808, 67826); (67828, 67829); (67835, 67867);
   (67871, 67897); (67903, 67903); (67968, 68023); (68028, 68047);
   (68050, 68099); (68101, 68102); (68108, 68115); (68117, 68119);
   (68121, 68149); (68152, 68154); (68159, 68168); (68176, 68184);
   (68192, 68255); (68288, 68326); (68331, 68342); (68352, 68405);
   (68409, 68437); (68440, 68466); (68472, 68497); (68505, 68508);
   (68521, 68527); (68608, 68680); (68736, 68786); (68800, 68850);
   (68858, 68903); (68912, 68921); (69216, 69246); (69248, 69289);
   (69291, 69293); (69296, 69297); (69376, 69415); (69424, 69465);
   (69488, 69513); (69552, 69579); (69600, 69622); (69632, 69709);
   (69714, 69749); (69759, 69820); (69822, 69826); (69840, 69864);
   (69872, 69881); (69888, 69940); (69942, 69959); (69968, 70006);
   (70016, 70111); (70113, 70132); (70144, 70161); (70163, 70206);
   (70272, 70278); (70280, 70280); (70282, 70285); (70287, 70301);
   (70303, 70313); (70320, 70378); (70384, 70393); (70400, 70403);
   (70405, 70412); (70415, 70416); (70419, 70440); (70442, 70448);
   (70450, 70451); (70453, 70457); (70459, 70468); (70471, 70472);
   (70475, 70477); (70480, 70480); (70487, 70487); (70493, 70499);
   (70502, 70508); (70512, 70516); (70656, 70747); (70749, 70753);
   (70784, 70855); (70864, 70873); (71040, 71093); (71096, 71133);
   (71168, 71236); (71248, 71257); (71264, 71276); (71296, 71353);
   (71360, 71369); (71424, 71450); (71453, 71467); (71472, 71494);
   (71680, 71739); (71840, 71922); (71935, 71942); (71945, 71945);
   (71948, 71955); (71957, 71958); (71960, 71989); (71991, 71992);
   (71995, 72006); (72016, 72025); (72096, 72103); (72106, 72151);
   (72154, 72164); (72192, 72263); (72272, 72354); (72368, 72440);
   (72704, 72712); (72714, 72758); (72760, 72773); (72784, 72812);
   (72816, 72847); (72850, 72871); (72873, 72886); (72960, 72966);
   (72968, 72969); (72971, 73014); (73018, 73018); (73020, 73021);
   (73023, 73031); (73040, 73049); (73056, 73061); (73063, 73064);
   (73066, 73102); (73104, 73105); (73107, 73112); (73120, 73129);
   (73440, 73464); (73648, 73648); (73664, 73713); (73727, 74649);
   (74752, 74862); (74864, 74868); (74880, 75075); (77712, 77810);
   (77824, 78894); (82944, 83526); (92160, 92728); (92736, 92766);
   (92768, 92777); (92782, 92862); (92864, 92873); (92880, 92909);
   (92912, 92917); (92928, 92997); (93008, 93017); (93019, 93025);
   (93027, 93047); (93053, 93071); (93760, 93850); (93952, 94026);
   (94031, 94087); (94095, 94111); (94176, 94180); (94192, 94193);
   (94208, 100343); (100352, 101589); (101632, 101640); (110576, 110579);
   (110581, 110587); (110589, 110590); (110592, 110882); (110928, 110930);
   (110948, 110951); (110960, 111355); (113664, 113770); (113776, 113788);
   (113792, 113800); (113808, 113817); (113820, 113823); (118528, 118573);
   (118576, 118598); (118608, 118723); (118784, 119029); (119040, 119078);
   (119081, 119154); (119163, 119274); (119296, 119365); (119520, 119539);
   (119552, 119638); (119648, 119672); (119808, 119892); (119894, 119964);
   (119966, 119967); (119970, 119970); (119973, 119974); (119977, 119980);
   (119982, 119993); (119995, 119995); (119997, 120003); (120005, 120069);
   (120071, 120074); (120077, 120084); (120086, 120092); (120094, 120121);
   (120123, 120126); (120128, 120132); (120134, 120134); (120138, 120144);
   (120146, 120485); (120488, 120779); (120782, 121483); (121499, 121503);
   (121505, 121519); (122624, 122654); (122880, 122886); (122888, 122904);
   (122907, 122913); (122915, 122916); (122918, 122922); (123136, 123180);
   (123184, 123197); (123200, 123209); (123214, 123215); (123536, 123566);
   (123584, 123641); (123647, 123647); (124896, 124902); (124904, 124907);
   (124909, 124910); (124912, 124926); (124928, 125124); (125127, 125142);
   (125184, 125259); (125264, 125273); (125278, 125279); (126065, 126132);
   (126209, 126269); (126464, 126467); (126469, 126495); (126497, 126498);
   (126500, 126500); (126503, 126503); (126505, 126514); (126516, 126519);
   (126521, 126521); (126523, 126523); (126530, 126530); (126535, 126535);
   (126537, 126537); (126539, 126539); (126541, 126543); (126545, 126546);
   (126548, 126548); (126551, 126551); (126553, 126553); (126555, 126555);
   (126557, 126557); (126559, 126559); (126561, 126562); (126564, 126564);
   (126567, 126570); (126572, 126578); (126580, 126583); (126585, 126588);
   (126590, 126590); (126592, 126601); (126603, 126619); (126625, 126627);
   (126629, 126633); (126635, 126651); (126704, 126705); (126976, 127019);
   (127024, 127123); (127136, 127150); (127153, 127167); (127169, 127183);
   (127185, 127221); (127232, 127405); (127462, 127490); (127504, 127547);
   (127552, 127560); (127568, 127569); (127584, 127589); (127744, 128727);
   (128733, 128748); (128752, 128764); (128768, 128883); (128896, 128984);
   (128992, 129003); (129008, 129008); (129024, 129035); (129040, 129095);
   (129104, 129113); (129120, 129159); (129168, 129197); (129200, 129201);
   (129280, 129619); (129632, 129645); (129648, 129652); (129656, 129660);
   (129664, 129670); (129680, 129708); (129712, 129722); (129728, 129733);
   (129744, 129753); (129760, 129767); (129776, 129782); (129792, 129938);
   (129940, 129994); (130032, 130041); (131072, 173791); (173824, 177976);
   (177984, 178205); (178208, 183969); (183984, 191456); (194560, 195101);
   (196608, 201546); (917760, 917999)]%N.

(** [strconv.IsPrint] *)
Definition IsPrint (r : N) : bool :=
  if (r <=? 255)%N then
    ((32 <=? r) && (r <=? 126) ||
     (161 <=? r) && (r <=? 255) && negb (r =? 173))%N
  else existsb (λ '(lo, hi), ((lo <=? r) && (r <=? hi))%N) isPrint_ranges.

(** [appendEscapedRune] of package strconv, for the double quote and
    with neither [ASCIIonly] nor [graphicOnly]. *)
Definition appendEscapedRune (r : N) : string :=
  if ((r =? 34) || (r =? 92))%N then
    backslash +:+ String (byte r) EmptyString
  else if IsPrint r then AppendRune r
  else if (r =? 7)%N then backslash +:+ "a"
  else if (r =? 8)%N then backslash +:+ "b"
  else if (r =? 12)%N then backslash +:+ "f"
  else if (r =? 10)%N then backslash +:+ "n"
  else if (r =? 13)%N then backslash +:+ "r"
  else if (r =? 9)%N then backslash +:+ "t"
  else if (r =? 11)%N then backslash +:+ "v"
  else if ((r <? 32) || (r =? 127))%N then
    backslash +:+ "x" +:+ lowerhex r 4 +:+ lowerhex r 0
  else
    let r := if ValidRune r then r else RuneError in
    if (r <? 65536)%N then
      backslash +:+ "u" +:+
      lowerhex r 12 +:+ lowerhex r 8 +:+ lowerhex r 4 +:+ lowerhex r 0
    else
      backslash +:+ "U" +:+
      lowerhex r 28 +:+ lowerhex r 24 +:+ lowerhex r 20 +:+ lowerhex r 16 +:+
      lowerhex r 12 +:+ lowerhex r 8 +:+ lowerhex r 4 +:+ lowerhex r 0.

(** One round of the loop of [strconv.Quote] on the text [s] that is
    left: what it writes for the rune at the head of [s], and the width
    of that rune.  A byte that starts no encoding of a rune is written as
    [\x] and its two hexadecimal digits. *)
Definition quote_rune (s : string) : string * nat :=
  match s with
  | EmptyString => (EmptyString, 0)
  | String c _ =>
      let '(r, width) :=
        if (N_of_ascii c <? 128)%N then (N_of_ascii c, 1)
        else DecodeRuneInString s in
      if bool_decide (width = 1) && (r =? RuneError)%N then
        (backslash +:+ "x" +:+
         lowerhex (N_of_ascii c) 4 +:+ lowerhex (N_of_ascii c) 0, 1)
      else (appendEscapedRune r, width)
  end.

(** The loop of [strconv.Quote]: [skip] counts the bytes of the rune
    last written that are still at the head of [s]. *)
Fixpoint quote_bytes (skip : nat) (s : string) : string :=
  match s with
  | EmptyString => EmptyString
  | String _ s' =>
      match skip with
      | S skip' => quote_bytes skip' s'
      | 0 =>
          let '(text, width) := quote_rune s in
          text +:+ quote_bytes (width - 1) s'
      end
  end.

(** The strings [strconv.Quote] only wraps in quotes, among those of
    ASCII bytes: every byte is a printable ASCII character other than the
    double quote and the backslash. *)
Definition plain_byte (c : ascii) : bool :=
  let n := Ascii.nat_of_ascii c in
  bool_decide (32 ≤ n ∧ n < 127 ∧ n ≠ 34 ∧ n ≠ 92)%nat.

Fixpoint plain (s : string) : bool :=
  match s with
  | EmptyString => true
  | String c s' => plain_byte c && plain s'
  end.

(** [strconv.Quote], the verb [%q] on a string. *)
Definition Quote (s : string) : string :=
  dquote +:+ quote_bytes 0 s +:+ dquote.

(** [strings.Contains] *)
Fixpoint Contains (s substr : string) : bool :=
  String.prefix substr s ||
  match s with
  | EmptyString => false
  | String _ s' => Contains s' substr
  end.

(** The last element of [strings.Split(s, "/")]: what follows the last
    slash of [s]. *)
Fixpoint after_last_slash_aux (s acc : string) : string :=
  match s with
  | EmptyString => acc
  | String c s' =>
      if decide (c = "/"%char) then after_last_slash_aux s' s'
      else after_last_slash_aux s' acc
  end.

Definition after_last_slash (s : string) : string := after_last_slash_aux s s.

(** [strings.Join] *)
Definition Join (elems : list string) (sep : string) : string :=
  String.concat sep elems.

(** [Type.String()] *)
Fixpoint Type_String (t : GoType) : string :=
  let signature ps va rs :=
    let ins :=
      (map Type_String ps ++
       match va with
       | Some e => ["..." +:+ Type_String e]
       | None => []
       end)%list in
    "(" +:+ Join ins ", " +:+ ")" +:+
    match rs with
    | [] => EmptyString
    | [r] => " " +:+ Type_String r
    | _ => " (" +:+ Join (map Type_String rs) ", " +:+ ")"
    end in
  match t with
  | TBasic b => Kind.name (Basic.kind b)
  | TNamed name _ => name
  | TPtr e => "*" +:+ Type_String e
  | TSlice e => "[]" +:+ Type_String e
  | TMap k e => "map[" +:+ Type_String k +:+ "]" +:+ Type_String e
  | TStruct [] => "struct {}"
  | TStruct fs =>
      "struct { " +:+
      Join (map (λ '(n, u), n +:+ " " +:+ Type_String u) fs) "; " +:+ " }"
  | TInterface [] => "interface {}"
  | TInterface ms =>
      "interface { " +:+
      Join (map (λ '(n, u), n +:+
                   match u with
                   | TFunc ps va rs => signature ps va rs
                   | _ => " " +:+ Type_String u
                   end) ms) "; " +:+ " }"
  | TFunc ps va rs => "func" +:+ signature ps va rs
  end.

(** The verb [%T]: the dynamic type of an interface value, [<nil>] for the
    nil interface. *)
Definition fmt_T (i : Value) : string :=
  match TypeOf i with
  | Some t => Type_String t
  | None => "<nil>"
  end.

(** ** Errors and results *)

(** The two dynamic types of [error] that [Generate] tells apart in its
    type switch: the plain error of [fmt.Errorf], and the resolver's
    [TypeReferenceError] with its fields. *)
Inductive error :=
| errorString (text : string)
| TypeReferenceError (TypeID : string) (TypeInstance : Value) (text : string).

(** [err.Error()] *)
Definition Error (e : error) : string :=
  match e with
  | errorString text => text
  | TypeReferenceError _ _ text => text
  end.

(** What a call comes back with: its result, a non-nil [error], or a
    run-time panic. *)
Inductive Res (A : Type) :=
| Ret (a : A)
| Fail (err : error)
| Panic (reason : string).

Arguments Ret {A} a.
Arguments Fail {A} err.
Arguments Panic {A} reason.

#[global] Instance Res_ret : MRet Res := λ A a, Ret a.

#[global] Instance Res_bind : MBind Res := λ A B f m,
  match m with
  | Ret a => f a
  | Fail err => Fail err
  | Panic reason => Panic reason
  end.

(** ** reflect.Type: the accessors of a function type

    Each panics on a type that is not a function type, [In] and [Out]
    also on an index out of range. *)

Definition NumIn (t : GoType) : Res nat :=
  match underlying t with
  | TFunc ps (Some _) _ => Ret (S (length ps))
  | TFunc ps None _ => Ret (length ps)
  | _ => Panic "reflect: NumIn of non-func type"
  end.

Definition NumOut (t : GoType) : Res nat :=
  match underlying t with
  | TFunc _ _ rs => Ret (length rs)
  | _ => Panic "reflect: NumOut of non-func type"
  end.

Definition IsVariadic (t : GoType) : Res bool :=
  match underlying t with
  | TFunc _ (Some _) _ => Ret true
  | TFunc _ None _ => Ret false
  | _ => Panic "reflect: IsVariadic of non-func type"
  end.

Definition In (t : GoType) (i : nat) : Res GoType :=
  match underlying t with
  | TFunc ps va _ =>
      match ps !! i, va with
      | Some p, _ => Ret p
      | None, Some e =>
          if decide (i = length ps) then Ret (TSlice e)
          else Panic "reflect: Func index out of bounds"
      | None, None => Panic "reflect: Func index out of bounds"
      end
  | _ => Panic "reflect: In of non-func type"
  end.

Definition Out (t : GoType) (i : nat) : Res GoType :=
  match underlying t with
  | TFunc _ _ rs =>
      match rs !! i with
      | Some r => Ret r
      | None => Panic "reflect: Func index out of bounds"
      end
  | _ => Panic "reflect: Out of non-func type"
  end.

(** [Type.Elem()] *)
Definition Elem (t : GoType) : Res GoType :=
  match underlying t with
  | TPtr e | TSlice e | TMap _ e => Ret e
  | _ => Panic "reflect: Elem of invalid type"
  end.

(** [Value.Interface()]: panics on the zero Value. *)
Definition Interface (v : Value) : Res Value :=
  match v with
  | VNil => Panic "reflect: call of reflect.Value.Interface on zero Value"
  | _ => Ret v
  end.

(** ** Loops

    [for i, x := range l { body }] over a state [s]; the body leaves the
    loop early by returning an error or by panicking. *)
Fixpoint range {A St : Type} (body : nat → A → St → Res St)
    (i : nat) (l : list A) (s : St) : Res St :=
  match l with
  | [] => Ret s
  | x :: l' => s' ← body i x s; range body (S i) l' s'
  end.

(** ** Raw arguments *)

(** Modelled from the spec: [IsParameter], [IsTypeReference] and
    [IsParameterOrTypeReference] are not among the sources.  A
    configuration placeholder is written [%name%], a type reference [@id]
    or [@id::Member]. *)
Definition IsParameter (p : string) : bool :=
  match String.get 0 p, String.get (String.length p - 1) p with
  | Some first, Some last =>
      bool_decide ((2 ≤ String.length p)%nat ∧ first = "%"%char ∧ last = "%"%char)
  | _, _ => false
  end.

Definition IsTypeReference (p : string) : bool :=
  match String.get 0 p with
  | Some first => bool_decide ((2 ≤ String.length p)%nat ∧ first = "@"%char)
  | None => false
  end.

Definition IsParameterOrTypeReference (p : string) : bool :=
  IsParameter p || IsTypeReference p.

(** ** The type factories *)

(** The struct [typeFactory]. *)
Record typeFactory := {
  factory : Value;
  factoryType : GoType;
  factoryArguments : list Value;
}.

(** The interface [TypeFactory] with the implementations met here:
    [FuncT t] is a [*typeFactory], [InvalidT err] the [*invalidType] that
    [newInvalidType] makes, [AliasT id] the alias of [NewAliasType]. *)
Inductive TypeFactory :=
| FuncT (t : typeFactory)
| InvalidT (Err : error)
| AliasT (typeID : string).

(** Modelled from the spec: [newInvalidType] and [IsValid] are not among
    the sources.  An invalid factory holds its construction error for
    good. *)
Definition newInvalidType (err : error) : TypeFactory := InvalidT err.

Definition IsValid (t : TypeFactory) : bool :=
  match t with
  | InvalidT _ => false
  | _ => true
  end.

(** The error an invalid factory is: [typeFactory.(error)]. *)
Definition TypeFactory_error (t : TypeFactory) : Res error :=
  match t with
  | InvalidT err => Ret err
  | _ => Panic "interface conversion: goldi.TypeFactory is not error"
  end.

(** [buildFactoryCallArguments].  The index [actualNumberOfArgs - 1] is
    read for a variadic type only, which has a parameter at least. *)
Definition buildFactoryCallArguments (t : GoType) (allParameters : list Value)
    : Res (list Value) :=
  actualNumberOfArgs ← NumIn t;
  let args := replicate (length allParameters) VNil in
  range (λ i argument args,
    isVariadic ← IsVariadic t;
    expectedArgumentType ←
      (if isVariadic && bool_decide (actualNumberOfArgs - 1 ≤ i)%nat
       then In t (actualNumberOfArgs - 1) ≫= Elem
       else In t i);
    let args := <[i := ValueOf argument]> args in
    if decide (Value_Kind (ValueOf argument) ≠ Kind_of expectedArgumentType)
    then
      match as_string argument with
      | Some stringArg =>
          if negb (IsParameterOrTypeReference stringArg) then
            Fail (errorString
              ("input argument " +:+ fmt_d (i + 1) +:+ " is of type " +:+
               Kind.name (Value_Kind (ValueOf argument)) +:+
               " but needs to be a " +:+
               Kind.name (Kind_of expectedArgumentType)))
          else Ret args
      | None => Ret args
      end
    else Ret args) 0 allParameters args.

(** [newTypeFromFactoryFunction] *)
Definition newTypeFromFactoryFunction (function : Value) (factoryType : GoType)
    (parameters : list Value) : Res TypeFactory :=
  numOut ← NumOut factoryType;
  if decide (numOut ≠ 1) then
    Ret (newInvalidType (errorString
      ("invalid number of return parameters: " +:+ fmt_d numOut)))
  else
    out ← Out factoryType 0;
    let kindOfGeneratedType := Kind_of out in
    if decide (kindOfGeneratedType ≠ Kind.Interface ∧
               kindOfGeneratedType ≠ Kind.Ptr) then
      Ret (newInvalidType (errorString
        ("return parameter is no interface or pointer but a " +:+
         Kind.name kindOfGeneratedType)))
    else
      isVariadic ← IsVariadic factoryType;
      numIn ← NumIn factoryType;
      if (isVariadic : bool) && bool_decide (length parameters < numIn)%nat then
        Ret (newInvalidType (errorString
          ("invalid number of input parameters for variadic function: got "
           +:+ fmt_d (length parameters) +:+ " but expected at least " +:+
           fmt_d numIn)))
      else if negb isVariadic && bool_decide (numIn ≠ length parameters) then
        Ret (newInvalidType (errorString
          ("invalid number of input parameters: got " +:+
           fmt_d (length parameters) +:+ " but expected " +:+ fmt_d numIn)))
      else
        match buildFactoryCallArguments factoryType parameters with
        | Ret args =>
            Ret (FuncT {| factory := ValueOf function;
                          factoryType := factoryType;
                          factoryArguments := args |})
        | Fail err => Ret (newInvalidType err)
        | Panic reason => Panic reason
        end.

(** [NewType].  [reflect.TypeOf(nil)] is the nil [reflect.Type], on which
    the call of [Kind] panics. *)
Definition NewType (factoryFunction : Value) (factoryParameters : list Value)
    : Res TypeFactory :=
  match TypeOf factoryFunction with
  | None => Panic "invalid memory address or nil pointer dereference"
  | Some factoryType =>
      let kind := Kind_of factoryType in
      if decide (kind = Kind.Func) then
        newTypeFromFactoryFunction factoryFunction factoryType
          factoryParameters
      else
        Ret (newInvalidType (errorString
          ("the given factoryFunction must be a function (given " +:+
           Quote (Kind.name (Kind_of factoryType)) +:+ ")")))
  end.

(** [typeFactory.Arguments] *)
Definition typeFactory_Arguments (t : typeFactory) : Res (list Value) :=
  let args := replicate (length (factoryArguments t)) VNil in
  range (λ i argument args,
    a ← Interface argument;
    Ret (<[i := a]> args)) 0 (factoryArguments t) args.

(** ** Generation *)

(** The compiled program the factories call into: what [Value.Call]
    computes for a function value, what [Value.CallSlice] computes for a
    variadic one (its last argument is the slice the variadic parameter
    receives), the exported methods of each type, by name, with the
    parameters and results of the method, and which types of the program
    are assignable to which: [AssignableTo V T] is [V.AssignableTo(T)]. *)
Record Runtime := {
  Call : Value → list Value → Res (list Value);
  CallSlice : Value → list Value → Res (list Value);
  Methods : GoType → string →
            option (list GoType * option GoType * list GoType);
  AssignableTo : GoType → GoType → bool;
}.

(** [Value.Set] on an element of a slice with elements of type [T],
    which is settable: it panics on the zero Value, and on a value whose
    type is not assignable to [T]; otherwise the element holds the
    value. *)
Definition Value_Set (rt : Runtime) (T : GoType) (x : Value) : Res Value :=
  match TypeOf x with
  | None => Panic "reflect: call of reflect.Value.Set on zero Value"
  | Some V =>
      if AssignableTo rt V T then Ret x
      else Panic ("reflect.Set: value of type " +:+ Type_String V +:+
                  " is not assignable to type " +:+ Type_String T)
  end.

(** Modelled from the spec: [ParameterResolver] is not among the sources.
    [Resolve] turns a raw argument into the value to pass for a parameter
    of the given type; the resolver is bound to a container, whose [Get]
    retrieves an instance by TypeID. *)
Record ParameterResolver := {
  Resolve : Value → GoType → Res Value;
  Container_Get : string → Res Value;
}.

(** [runtime.FuncForPC(v.Pointer()).Name()]: the linker symbol of a
    function value; a method value has the symbol of its wrapper. *)
Fixpoint FuncName (v : Value) : string :=
  match v with
  | VFunc symbol _ _ _ => symbol
  | VMethod recv member _ _ _ => fmt_T recv +:+ "." +:+ member +:+ "-fm"
  | VNamed _ v' => FuncName v'
  | _ => EmptyString
  end.

(** [typeFactory.invalidReferencedTypeErr] *)
Definition invalidReferencedTypeErr (t : typeFactory) (typeID : string)
    (typeInstance : Value) (i : nat) : Res error :=
  let factoryName := FuncName (factory t) in
  let factoryName := after_last_slash factoryName in
  n ← NumIn (factoryType t);
  factoryArguments ←
    range (λ i _ factoryArguments,
      arg ← In (factoryType t) i;
      Ret (<[i := Type_String arg]> factoryArguments))
      0 (seq 0 n) (replicate n EmptyString);
  Ret (errorString
    ("the referenced type " +:+ dquote +:+ "@" +:+ typeID +:+ dquote +:+
     " (type " +:+ fmt_T typeInstance +:+
     ") can not be passed as argument " +:+ fmt_d (i + 1) +:+
     " to the function signature " +:+ factoryName +:+ "(" +:+
     Join factoryArguments ", " +:+ ")")).

(** The type switch on the error of [Resolve] that each of the three
    resolution loops carries. *)
Definition resolved (t : typeFactory) (i : nat) (r : Res Value)
    : Res Value :=
  match r with
  | Ret v => Ret v
  | Fail (TypeReferenceError TypeID TypeInstance _) =>
      err ← invalidReferencedTypeErr t TypeID TypeInstance i; Fail err
  | Fail err => Fail err
  | Panic reason => Panic reason
  end.

(** [s[lo:]] and [s[:hi]] of a slice whose capacity is its length. *)
Definition slice_from {A : Type} (s : list A) (lo : nat) : Res (list A) :=
  if decide (lo ≤ length s)%nat then Ret (drop lo s)
  else Panic "slice bounds out of range".

Definition slice_to {A : Type} (s : list A) (hi : nat) : Res (list A) :=
  if decide (hi ≤ length s)%nat then Ret (take hi s)
  else Panic "slice bounds out of range".

(** The content of a slice value under construction: [reflect.MakeSlice]
    gives [n] zero elements, [Index(i).Set(x)] overwrites one with the
    value that [Value_Set] takes. *)
Definition MakeSlice (n : nat) : list Value := replicate n VNil.

(** [generateVariadicFactoryArguments] runs on a variadic function type,
    which has a parameter at least: [actualNumberOfArgs - 1] is not
    negative, and the length [n] of the slice,
    [len(t.factoryArguments) - actualNumberOfArgs + 1], is computed on the
    natural numbers with the addition first.  The elements of the fixed
    arguments are assigned as they are; those of the variadic slice go
    through [Set], which can panic. *)
Definition generateVariadicFactoryArguments (rt : Runtime) (t : typeFactory)
    (parameterResolver : ParameterResolver) : Res (list Value) :=
  actualNumberOfArgs ← NumIn (factoryType t);
  let args := replicate actualNumberOfArgs VNil in
  fixed ← slice_to (factoryArguments t) (actualNumberOfArgs - 1);
  args ← range (λ i argument args,
    expected ← In (factoryType t) i;
    v ← resolved t i (Resolve parameterResolver argument expected);
    Ret (<[i := v]> args)) 0 fixed args;
  let n := length (factoryArguments t) + 1 - actualNumberOfArgs in
  variadicType ← In (factoryType t) (actualNumberOfArgs - 1);
  let variadicSlice := MakeSlice n in
  expectedType ← Elem variadicType;
  tail ← slice_from (factoryArguments t) (actualNumberOfArgs - 1);
  variadicSlice ← range (λ i argument variadicSlice,
    resolvedArgument ←
      resolved t i (Resolve parameterResolver argument expectedType);
    element ← Value_Set rt expectedType resolvedArgument;
    Ret (<[i := element]> variadicSlice)) 0 tail variadicSlice;
  Ret (<[actualNumberOfArgs - 1 := VSlice expectedType variadicSlice]> args).

(** [typeFactory.generateFactoryArguments] *)
Definition generateFactoryArguments (rt : Runtime) (t : typeFactory)
    (parameterResolver : ParameterResolver) : Res (list Value) :=
  isVariadic ← IsVariadic (factoryType t);
  if (isVariadic : bool) then
    generateVariadicFactoryArguments rt t parameterResolver
  else
    let args := replicate (length (factoryArguments t)) VNil in
    range (λ i argument args,
      expected ← In (factoryType t) i;
      v ← resolved t i (Resolve parameterResolver argument expected);
      Ret (<[i := v]> args)) 0 (factoryArguments t) args.

(** [strings.Contains(id, "::")] and the two sides of the first [::]. *)
Fixpoint split_member (s : string) : option (string * string) :=
  match s with
  | EmptyString => None
  | String c s' =>
      if String.prefix "::" s
      then Some (EmptyString, String.substring 2 (String.length s - 2) s)
      else match split_member s' with
           | Some (id, member) => Some (String c id, member)
           | None => None
           end
  end.

Section Engine.

Context (rt : Runtime).

(** [typeFactory.Generate].  The values a call returns are valid ones, on
    which [Interface] does not panic: the first result is returned as it
    is, [VNil] being here a nil interface that the constructor returned. *)
Definition typeFactory_Generate (t : typeFactory)
    (parameterResolver : ParameterResolver) : Res Value :=
  args ← generateFactoryArguments rt t parameterResolver;
  isVariadic ← IsVariadic (factoryType t);
  result ← (if (isVariadic : bool) then CallSlice rt (factory t) args
            else Call rt (factory t) args);
  match result with
  | [] => Panic "no return parameter found. this should never ever happen"
  | r :: _ => Ret r
  end.

(** [reflect.Value.MethodByName]: the method value bound to [v], if the
    type of [v] has an exported method of that name. *)
Definition MethodByName (v : Value) (member : string) : option Value :=
  t ← TypeOf v;
  '(ps, va, rs) ← Methods rt t member;
  Some (VMethod v member ps va rs).

(** Modelled from the spec: [NewAliasType] and the alias factory are
    not among the sources (only their test is).  The alias of [id]
    forwards to the container's retrieval of [id]; with a member suffix,
    [id::Member], it fetches the instance of [id], looks up its exported
    method [Member] and returns the method value bound to that
    instance. *)
Definition aliasType_Generate (typeID : string)
    (resolver : ParameterResolver) : Res Value :=
  match split_member typeID with
  | Some (id, member) =>
      instance ← Container_Get resolver id;
      match MethodByName instance member with
      | Some method => Ret method
      | None =>
          Fail (errorString
            ("the type " +:+ Quote id +:+ " has no method " +:+
             Quote member))
      end
  | None => Container_Get resolver typeID
  end.

(** Modelled from the spec: the [Generate] of [invalidType] is not among
    the sources.  An invalid factory fails every generation with its
    recorded error. *)
Definition invalidType_Generate (Err : error)
    (resolver : ParameterResolver) : Res Value :=
  Fail Err.

(** [TypeFactory.Generate], by the implementation behind the interface. *)
Definition Generate (t : TypeFactory) (resolver : ParameterResolver)
    : Res Value :=
  match t with
  | FuncT t => typeFactory_Generate t resolver
  | InvalidT Err => invalidType_Generate Err resolver
  | AliasT typeID => aliasType_Generate typeID resolver
  end.

(** Modelled from the spec: [Container] is not among the sources.  A
    container owns a registry and a configuration. *)
Record Container := {
  TypeRegistry : gmap string TypeFactory;
  Config : gmap string Value;
}.

(** Modelled from the spec: [ParameterResolver.Resolve] is not among the
    sources.  It retrieves a type reference from the container ([get]),
    with a [TypeReferenceError] that carries the id and the instance
    obtained, if any, on failure; it looks a placeholder up in the
    configuration, whose absence is an error; and it takes any other
    value as it is, unless its kind is not the expected one. *)
Definition Resolve_with (get : string → Res Value) (c : Container)
    (parameter : Value) (expectedType : GoType) : Res Value :=
  let literal :=
    if decide (Kind_of expectedType = Kind.Interface ∨
               Value_Kind parameter = Kind_of expectedType)
    then Ret parameter
    else Fail (errorString
           ("the value of type " +:+ fmt_T parameter +:+
            " can not be used as " +:+ Type_String expectedType)) in
  match as_string parameter with
  | Some text =>
      if IsTypeReference text then
        let reference :=
          String.substring 1 (String.length text - 1) text in
        let '(id, member) :=
          match split_member reference with
          | Some (id, member) => (id, Some member)
          | None => (reference, None)
          end in
        match get id, member with
        | Ret instance, None => Ret instance
        | Ret instance, Some member =>
            match MethodByName instance member with
            | Some method => Ret method
            | None =>
                Fail (TypeReferenceError id instance
                  ("the type " +:+ Quote id +:+ " has no method " +:+
                   Quote member))
            end
        | Fail err, _ => Fail (TypeReferenceError id VNil (Error err))
        | Panic reason, _ => Panic reason
        end
      else if IsParameter text then
        let name := String.substring 1 (String.length text - 2) text in
        match Config c !! name with
        | Some value => Ret value
        | None =>
            Fail (errorString
              ("the parameter " +:+ Quote name +:+ " was not found"))
        end
      else literal
  | None => literal
  end.

(** Modelled from the spec: [Container.Get] is not among the sources.  It
    fails on an unknown TypeID and otherwise runs the factory with a
    resolver bound to the container.  A chain of references is followed
    to the depth [fuel]. *)
Fixpoint Get (fuel : nat) (c : Container) (typeID : string) : Res Value :=
  match fuel with
  | 0 => Panic "stack overflow"
  | S fuel' =>
      match TypeRegistry c !! typeID with
      | Some t =>
          Generate t {| Resolve := Resolve_with (Get fuel' c) c;
                        Container_Get := Get fuel' c |}
      | None =>
          Fail (errorString
            ("the type " +:+ Quote typeID +:+ " has not been defined"))
      end
  end.

(** Modelled from the spec: [NewParameterResolver] is not among the
    sources.  The resolver is bound to the container. *)
Definition NewParameterResolver (fuel : nat) (c : Container)
    : ParameterResolver :=
  {| Resolve := Resolve_with (Get fuel c) c; Container_Get := Get fuel c |}.

End Engine.

(** [TypeRegistry.Register]: registering an id again overwrites. *)
Definition Register (id : string) (t : TypeFactory)
    (registry : gmap string TypeFactory) : gmap string TypeFactory :=
  <[id := t]> registry.

(** Modelled from the spec: [NewAliasType] is not among the sources. *)
Definition NewAliasType (typeID : string) : TypeFactory := AliasT typeID.

(** Modelled from the spec: the [Arguments] of the alias and of
    [invalidType] are not among the sources.  The alias of [id] has the
    one raw argument [@id]; the spec gives an invalid factory no
    arguments to return. *)
Definition aliasType_Arguments (typeID : string) : Res (list Value) :=
  Ret [VString ("@" +:+ typeID)].

Definition invalidType_Arguments (Err : error) : Res (list Value) := Ret [].

(** [TypeFactory.Arguments], by the implementation behind the
    interface. *)
Definition Arguments (t : TypeFactory) : Res (list Value) :=
  match t with
  | FuncT t => typeFactory_Arguments t
  | InvalidT Err => invalidType_Arguments Err
  | AliasT typeID => aliasType_Arguments typeID
  end.

(** ** Package validation *)

(** The body of [NoInvalidTypesConstraint.Validate] over the entries of
    [container.TypeRegistry] in the order the [range] over the map meets
    them.  [Ret tt] is the nil error. *)
Fixpoint Validate_range (entries : list (string * TypeFactory)) : Res unit :=
  match entries with
  | [] => Ret tt
  | (typeID, typeFactory) :: entries' =>
      if decide (IsValid typeFactory = false) then
        err ← TypeFactory_error typeFactory;
        Fail (errorString
          ("type " +:+ Quote typeID +:+ " is invalid: " +:+ Error err))
      else Validate_range entries'
  end.

(** Go leaves the iteration order of a map unspecified, and it may differ
    from one [range] to the next: a run of [Validate] meets the entries of
    the registry in some order. *)
Definition iteration_order (registry : gmap string TypeFactory)
    (entries : list (string * TypeFactory)) : Prop :=
  entries ≡ₚ map_to_list registry.

Definition Validate (container : Container) (result : Res unit) : Prop :=
  ∃ entries, iteration_order (TypeRegistry container) entries ∧
             Validate_range entries = result.

(** ** The fixtures of the tests *)

(** Modelled from the spec: [NewStructType] is not among the sources.  It
    is the function factory of a synthesized constructor, which allocates
    the struct and assigns its fields, in their declared order, from the
    arguments. *)
Definition structConstructor (name : string) (fields : list (string * GoType))
    : Value :=
  VFunc ("goldi.NewStructType(" +:+ name +:+ ")") (map snd fields) None
    [TPtr (TNamed name (TStruct fields))].

Definition allocate (name : string) (fields : list (string * GoType))
    (args : list Value) : Value :=
  VPtr (TNamed name (TStruct fields))
    (Some (VStruct name (zip_with (λ f a, (f.1, f.2, a)) fields args))).

Definition NewStructType (structT : Value) (structParameters : list Value)
    : Res TypeFactory :=
  match TypeOf structT with
  | Some (TNamed name (TStruct fields)) =>
      NewType (structConstructor name fields) structParameters
  | Some t =>
      Ret (newInvalidType (errorString
        ("the given type must be a struct (given " +:+
         Quote (Kind.name (Kind_of t)) +:+ ")")))
  | None => Panic "invalid memory address or nil pointer dereference"
  end.

(** Modelled from the spec: package tests is not among the sources.  The
    state of a [MockType] is its [StringParameter]; its method
    [ReturnString] concatenates the state and its argument, with the blank
    between them that the test of the alias expects. *)
Definition MockType_fields : list (string * GoType) :=
  [("StringParameter", TBasic Basic.String)].

Definition MockType : GoType := TNamed "tests.MockType" (TStruct MockType_fields).

Definition MockType_zero : Value :=
  VStruct "tests.MockType"
    [("StringParameter", TBasic Basic.String, VString EmptyString)].

Definition tests_Call (f : Value) (args : list Value) : Res (list Value) :=
  match f with
  | VFunc symbol _ _ _ =>
      if decide (symbol = "goldi.NewStructType(tests.MockType)") then
        Ret [allocate "tests.MockType" MockType_fields args]
      else Panic "call of a function outside package tests"
  | VMethod (VPtr _ (Some (VStruct _ [(_, _, VString state)]))) member _ _ _ =>
      match args with
      | [VString suffix] =>
          if decide (member = "ReturnString")
          then Ret [VString (state +:+ " " +:+ suffix)]
          else Panic "call of a method outside package tests"
      | _ => Panic "reflect: Call with the wrong arguments"
      end
  | _ => Panic "reflect: call of reflect.Value.Call on a value that is no Func"
  end.

Definition tests_Methods (t : GoType) (member : string)
    : option (list GoType * option GoType * list GoType) :=
  if decide (Type_String t = "*tests.MockType" ∧ member = "ReturnString")
  then Some ([TBasic Basic.String], None, [TBasic Basic.String])
  else None.

(** Whether two types are the same type. *)
Fixpoint GoType_eqb (t u : GoType) {struct t} : bool :=
  let fix all_eqb (ts us : list GoType) : bool :=
    match ts, us with
    | [], [] => true
    | t' :: ts', u' :: us' => GoType_eqb t' u' && all_eqb ts' us'
    | _, _ => false
    end in
  let fix members_eqb (ts us : list (string * GoType)) : bool :=
    match ts, us with
    | [], [] => true
    | (n, t') :: ts', (m, u') :: us' =>
        bool_decide (n = m) && GoType_eqb t' u' && members_eqb ts' us'
    | _, _ => false
    end in
  match t, u with
  | TBasic b, TBasic c => bool_decide (b = c)
  | TNamed n t', TNamed m u' => bool_decide (n = m) && GoType_eqb t' u'
  | TPtr t', TPtr u' => GoType_eqb t' u'
  | TSlice t', TSlice u' => GoType_eqb t' u'
  | TMap k t', TMap l u' => GoType_eqb k l && GoType_eqb t' u'
  | TStruct fs, TStruct gs => members_eqb fs gs
  | TInterface ms, TInterface ns => members_eqb ms ns
  | TFunc ps va rs, TFunc qs vb ss =>
      all_eqb ps qs &&
      match va, vb with
      | Some e, Some f => GoType_eqb e f
      | None, None => true
      | _, _ => false
      end &&
      all_eqb rs ss
  | _, _ => false
  end.

(** Assignability among the types of the test program, by the rules of
    the language: a type to itself; a type to one of the same underlying
    type, where one of the two has no name; a type to an interface type
    whose methods it has. *)
Definition tests_AssignableTo (V T : GoType) : bool :=
  let named (t : GoType) :=
    match t with
    | TBasic _ | TNamed _ _ => true
    | _ => false
    end in
  GoType_eqb V T ||
  negb (named V && named T) && GoType_eqb (underlying V) (underlying T) ||
  match underlying T with
  | TInterface ms =>
      forallb (λ '(member, signature),
                 match tests_Methods V member with
                 | Some (ps, va, rs) => GoType_eqb signature (TFunc ps va rs)
                 | None => false
                 end) ms
  | _ => false
  end.

Definition tests_runtime : Runtime :=
  {| Call := tests_Call; CallSlice := tests_Call; Methods := tests_Methods;
     AssignableTo := tests_AssignableTo |}.

(** ** What the loops compute *)

(** The indexed map with early exit that an array-filling [range] loop
    amounts to. *)
Fixpoint imapM {A B : Type} (f : nat → A → Res B) (i : nat) (l : list A)
    : Res (list B) :=
  match l with
  | [] => Ret []
  | x :: l' => v ← f i x; vs ← imapM f (S i) l'; Ret (v :: vs)
  end.

(** The type the raw argument at index [i] is checked against, for a
    function with the fixed parameters [ps] and the variadic element type
    [va]. *)
Definition expectedArgumentType (ps : list GoType) (va : option GoType)
    (i : nat) : option GoType :=
  match ps !! i, va with
  | Some p, _ => Some p
  | None, Some e => Some e
  | None, None => None
  end.

(** The eager check of [buildFactoryCallArguments] on one raw argument:
    a Go string that is no placeholder and no reference, where the
    parameter is of another kind. *)
Definition rejected (expected : GoType) (argument : Value) : bool :=
  bool_decide (Value_Kind argument ≠ Kind_of expected) &&
  match as_string argument with
  | Some stringArg => negb (IsParameterOrTypeReference stringArg)
  | None => false
  end.

Definition rejection (i : nat) (expected : GoType) (argument : Value) : error :=
  errorString
    ("input argument " +:+ fmt_d (i + 1) +:+ " is of type " +:+
     Kind.name (Value_Kind argument) +:+ " but needs to be a " +:+
     Kind.name (Kind_of expected)).

(** What [buildFactoryCallArguments] does with the raw argument at index
    [i]: it panics where the function type has no parameter for it. *)
Definition checked (ps : list GoType) (va : option GoType) (i : nat)
    (argument : Value) : Res Value :=
  match expectedArgumentType ps va i with
  | Some expected =>
      if rejected expected argument
      then Fail (rejection i expected argument)
      else Ret argument
  | None => Panic "reflect: Func index out of bounds"
  end.

(** The argument counts [newTypeFromFactoryFunction] lets through. *)
Definition arity_ok (ps : list GoType) (va : option GoType) (k : nat) : Prop :=
  match va with
  | Some _ => length ps < k
  | None => length ps = k
  end.

(** The inputs of [NewType] that make an invalid factory: no function; a
    function that has not one result, or a result that is no interface
    and no pointer; an argument count the function does not take; a raw
    argument the eager check rejects. *)
Definition malformed (ft : GoType) (l : list Value) : Prop :=
  match underlying ft with
  | TFunc ps va rs =>
      length rs ≠ 1 ∨
      (∃ r, rs = [r] ∧ Kind_of r ≠ Kind.Interface ∧ Kind_of r ≠ Kind.Ptr) ∨
      ¬ arity_ok ps va (length l) ∨
      (∃ i a expected,
          l !! i = Some a ∧ expectedArgumentType ps va i = Some expected ∧
          rejected expected a = true)
  | _ => True
  end.

(** Test functions of package tests, by their types. *)
Definition NewVariadicMockType : Value :=
  VFunc "github.com/fgrosse/goldi/tests.NewVariadicMockType"
    [TBasic Basic.String] (Some (TBasic Basic.Int)) [TPtr MockType].

Definition NewMockTypeFromInt : Value :=
  VFunc "github.com/fgrosse/goldi/tests.NewMockTypeFromInt"
    [TBasic Basic.Int] None [TPtr MockType].

Definition NewMockTypeWithArgs : Value :=
  VFunc "github.com/fgrosse/goldi/tests.NewMockTypeWithArgs"
    [TBasic Basic.String; TBasic Basic.Bool] None [TPtr MockType].

Definition NewMockTypeFromAny : Value :=
  VFunc "github.com/fgrosse/goldi/tests.NewMockTypeFromAny"
    [TInterface []] None [TPtr MockType].

(** The parameter types [In(0)], ..., [In(NumIn() - 1)] of a function
    type. *)
Definition parameters (ps : list GoType) (va : option GoType) : list GoType :=
  ps ++ match va with
        | Some e => [TSlice e]
        | None => []
        end.

(** The text of the error of [invalidReferencedTypeErr], for the function
    value [f] with the parameter types [ins]. *)
Definition invalidReferencedType_text (f : Value) (ins : list GoType)
    (typeID : string) (typeInstance : Value) (i : nat) : string :=
  "the referenced type " +:+ dquote +:+ "@" +:+ typeID +:+ dquote +:+
  " (type " +:+ fmt_T typeInstance +:+
  ") can not be passed as argument " +:+ fmt_d (i + 1) +:+
  " to the function signature " +:+ after_last_slash (FuncName f) +:+ "(" +:+
  Join (map Type_String ins) ", " +:+ ")".

(** How [generateFactoryArguments] resolves the raw argument at index [i]
    for a parameter of type [expected]. *)
Definition resolve_for (t : typeFactory) (resolver : ParameterResolver)
    (expected : nat → Res GoType) (i : nat) (argument : Value) : Res Value :=
  ty ← expected i;
  resolved t i (Resolve resolver argument ty).

(** What the loop over the variadic tail does with the raw argument at
    index [i] of the tail: it resolves the argument for the element type
    [e] and sets the element of the slice. *)
Definition store_for (rt : Runtime) (t : typeFactory)
    (resolver : ParameterResolver) (e : GoType) (i : nat) (argument : Value)
    : Res Value :=
  v ← resolve_for t resolver (λ _, Ret e) i argument;
  Value_Set rt e v.

(** The values [Set] takes for an element of type [T]: those that have a
    type, which is assignable to [T]. *)
Definition assignable (rt : Runtime) (x : Value) (T : GoType) : Prop :=
  ∃ V, TypeOf x = Some V ∧ AssignableTo rt V T = true.

Definition NewTypeForServiceInjection : Value :=
  VFunc "github.com/fgrosse/goldi/tests.NewTypeForServiceInjection"
    [TPtr MockType] None
    [TPtr (TNamed "tests.TypeForServiceInjection"
             (TStruct [("InjectedType", TPtr MockType)]))].

Definition NewVariadicTypeForServiceInjection : Value :=
  VFunc "github.com/fgrosse/goldi/tests.NewVariadicTypeForServiceInjection"
    [TBasic Basic.String] (Some (TPtr MockType))
    [TPtr (TNamed "tests.TypeForServiceInjection"
             (TStruct [("InjectedType", TPtr MockType)]))].

(** A resolver bound to the container with the given registry and no
    configuration, over the test program. *)
Definition test_resolver (registry : gmap string TypeFactory)
    : ParameterResolver :=
  NewParameterResolver tests_runtime 2
    {| TypeRegistry := registry; Config := ∅ |}.

(** How many method values are wrapped around a value. *)
Fixpoint bound_depth (v : Value) : nat :=
  match v with
  | VMethod recv _ _ _ _ => S (bound_depth recv)
  | _ => 0
  end.

(** ** goldigen: the generator *)

(** The bytes the sanitizer tells apart. *)
Definition newline : ascii := Ascii.ascii_of_nat 10.

Definition tab : ascii := Ascii.ascii_of_nat 9.

Definition space : ascii := Ascii.ascii_of_nat 32.

(** [strings.TrimSpace(s) == ""] on the bytes of [s]: [s] is made of
    white space only.  White space is what [unicode.IsSpace] accepts, in
    UTF-8: the bytes 9 to 13 and 32, U+0085 and U+00A0 (two bytes each),
    U+1680, U+2000 to U+200A, U+2028, U+2029, U+202F, U+205F and U+3000
    (three bytes each).  A byte that starts none of these is a rune, or
    an invalid byte, that is no white space. *)
Fixpoint TrimSpace_empty (s : list ascii) : bool :=
  match s with
  | [] => true
  | c :: s1 =>
      let n := Ascii.nat_of_ascii c in
      if bool_decide (9 ≤ n ≤ 13 ∨ n = 32) then TrimSpace_empty s1
      else
        match s1 with
        | [] => false
        | d :: s2 =>
            let m := Ascii.nat_of_ascii d in
            if bool_decide (n = 194 ∧ (m = 133 ∨ m = 160))
            then TrimSpace_empty s2
            else
              match s2 with
              | [] => false
              | e :: s3 =>
                  let k := Ascii.nat_of_ascii e in
                  if bool_decide
                       ((n = 225 ∧ m = 154 ∧ k = 128) ∨
                        (n = 226 ∧ m = 128 ∧
                         (128 ≤ k ≤ 138 ∨ k = 168 ∨ k = 169 ∨ k = 175)) ∨
                        (n = 226 ∧ m = 129 ∧ k = 159) ∨
                        (n = 227 ∧ m = 128 ∧ k = 128))
                  then TrimSpace_empty s3
                  else false
              end
        end
  end.

(** The variables of the loop of [sanitizeInput]: the two buffers and the
    flag. *)
Record sanitizer := {
  sanitizedInput : list ascii;
  line : list ascii;
  lineBeginning : bool;
}.

(** One turn of the loop of [sanitizeInput], on the byte [c]. *)
Definition sanitize_byte (st : sanitizer) (c : ascii) : sanitizer :=
  if decide (c = newline) then
    if negb (TrimSpace_empty (line st)) then
      {| sanitizedInput := sanitizedInput st ++ line st ++ [newline];
         line := [];
         lineBeginning := true |}
    else st
  else if decide (c = tab) then
    if lineBeginning st then
      {| sanitizedInput := sanitizedInput st;
         line := line st ++ [space; space; space; space];
         lineBeginning := lineBeginning st |}
    else
      {| sanitizedInput := sanitizedInput st;
         line := line st ++ [c];
         lineBeginning := lineBeginning st |}
  else if decide (c = space) then
    {| sanitizedInput := sanitizedInput st;
       line := line st ++ [c];
       lineBeginning := lineBeginning st |}
  else
    {| sanitizedInput := sanitizedInput st;
       line := line st ++ [c];
       lineBeginning := false |}.

(** [Generator.sanitizeInput], with [bytes.Buffer] for both buffers. *)
Definition sanitizeInput (input : list ascii) : list ascii :=
  let st := fold_left sanitize_byte input
              {| sanitizedInput := []; line := []; lineBeginning := true |} in
  sanitizedInput st ++ line st.

(** A line with the tabs before its first byte other than blank and tab
    replaced by four blanks each. *)
Fixpoint expand_tabs (l : list ascii) : list ascii :=
  match l with
  | [] => []
  | c :: l' =>
      if decide (c = tab) then [space; space; space; space] ++ expand_tabs l'
      else if decide (c = space) then c :: expand_tabs l'
      else l
  end.

(** The text of lines that end in a newline each, followed by a last line
    that does not. *)
Definition unlines (ls : list (list ascii)) (rest : list ascii) : list ascii :=
  concat (map (λ l, l ++ [newline]) ls) ++ rest.

(** The bytes the sanitizer neither drops nor rewrites. *)
Definition is_content (c : ascii) : Prop :=
  c ≠ newline ∧ c ≠ tab ∧ c ≠ space.

#[global] Instance is_content_dec c : Decision (is_content c).
Proof. unfold is_content. apply _. Defined.

(** A line as the sanitizer leaves it: no newline in it, and no tab
    before its first byte other than blank and tab. *)
Definition clean_line (l : list ascii) : Prop :=
  (newline ∉ l) ∧ expand_tabs l = l.

(** [unescape] of [captureStrings]:
    [strings.Replace(input, `\@`, `@`, -1)], which replaces each
    backslash that an [@] follows, from the left. *)
Fixpoint unescape (input : string) : string :=
  match input with
  | String c rest =>
      match rest with
      | String c' rest' =>
          if decide (Ascii.nat_of_ascii c = 92 ∧ c' = "@"%char)
          then String "@" (unescape rest')
          else String c (unescape rest)
      | EmptyString => input
      end
  | EmptyString => input
  end.

(** [strings.Contains(s, `\@`)] *)
Definition escaped_at : string := backslash +:+ "@".

(** The fields of [TypeDefinition] that [captureStrings] reads and
    writes; the declaration of the struct is not among the sources, and
    [Others] stands for what else it holds.  [FuncName_] is the field
    [FuncName]. *)
Record TypeDefinition {Others : Type} := {
  TypeName : string;
  FuncName_ : string;
  FactoryMethod : string;
  AliasForType : string;
  Configurator : list string;
  RawArguments : list Value;
  RawArgumentsShort : list Value;
  others : Others;
}.

Arguments TypeDefinition : clear implicits.

(** The body of the loops over the raw arguments: a string is unescaped,
    any other value is left. *)
Definition unescape_argument (a : Value) : Value :=
  match as_string a with
  | Some s => VString (unescape s)
  | None => a
  end.

(** The body of the loop of [captureStrings] on one type. *)
Definition capture {Others : Type} (t : TypeDefinition Others)
    : TypeDefinition Others :=
  {| TypeName := unescape (TypeName t);
     FuncName_ := unescape (FuncName_ t);
     FactoryMethod := unescape (FactoryMethod t);
     AliasForType := unescape (AliasForType t);
     Configurator := map unescape (Configurator t);
     RawArguments := map unescape_argument (RawArguments t);
     RawArgumentsShort := map unescape_argument (RawArgumentsShort t);
     others := others t |}.

(** [captureStrings] on [config.Types], the entries met in the order
    [entries]: each type is captured and stored back under its id.  The
    slices of a type are written in place; no two types share one, as the
    decoder allocates the slices of each type. *)
Definition captureStrings {Others : Type}
    (entries : list (string * TypeDefinition Others))
    (Types : gmap string (TypeDefinition Others))
    : gmap string (TypeDefinition Others) :=
  foldl (λ Types '(id, t), <[id := capture t]> Types) Types entries.

(** The state of the loop after any input: the output is made of lines
    that are clean and not blank, with their newlines; the line buffer
    has no newline and holds blanks only as long as the line is at its
    beginning, and no tab before another byte afterwards. *)
Definition sanitizer_inv (st : sanitizer) : Prop :=
  (∃ ls, sanitizedInput st = unlines ls [] ∧
         Forall (λ l, clean_line l ∧ TrimSpace_empty l = false) ls) ∧
  (newline ∉ line st) ∧
  (if lineBeginning st then Forall (λ c, c = space) (line st)
   else ∀ z, expand_tabs (line st ++ z) = line st ++ z).

(** [sort.Strings]: the strings in the order of their bytes.  The sorted
    list is the same whatever the algorithm. *)
Definition sort_Strings (l : list string) : list string :=
  merge_sort String.le l.

(** [strings.Repeat(" ", n)] *)
Fixpoint Repeat_space (n : nat) : string :=
  match n with
  | 0 => EmptyString
  | S n' => String space (Repeat_space n')
  end.

(** The texts of a tab and of a newline. *)
Definition TAB : string := String tab EmptyString.

Definition NL : string := String newline EmptyString.

Section GenerateTypeRegistration.

(** [FactoryCode] and the type of the type definitions are not among the
    sources: they are parameters here.  The inhabitant of the type stands
    for the zero value that reading a missing key of a map gives. *)
Context {TypeDef : Type} `{!Inhabited TypeDef}.
Context (FactoryCode : TypeDef → string → string).

(** The first loop of [generateTypeRegistrationFunction]: the ids of
    [conf.Types], in the order the [range] meets them, go into [typeIDs],
    and [maxIDLength] becomes the length of the longest. *)
Definition collect_typeIDs (n : nat) (entries : list (string * TypeDef))
    : list string * nat * nat :=
  foldl (λ '(typeIDs, i, maxIDLength) '(typeID, _),
           (<[i := typeID]> typeIDs, S i,
            if decide (maxIDLength < String.length typeID)
            then String.length typeID else maxIDLength))
    (replicate n EmptyString, 0, 0) entries.

(** One entry of the map literal that [RegisterAll] is given. *)
Definition registration_entry (Package : string)
    (Types : gmap string TypeDef) (maxIDLength : nat) (typeID : string)
    : string :=
  let typeDef := Types !!! typeID in
  let spaces := Repeat_space (maxIDLength - String.length typeID) in
  TAB +:+ TAB +:+ Quote typeID +:+ ": " +:+ spaces +:+
  FactoryCode typeDef Package +:+ "," +:+ NL.

(** [Generator.generateTypeRegistrationFunction]: [output] is what the
    writer holds before, the result what it holds after; [entries] is the
    order in which the [range] meets [conf.Types]. *)
Definition generateTypeRegistrationFunction (FunctionName Package : string)
    (Types : gmap string TypeDef) (entries : list (string * TypeDef))
    (output : string) : string :=
  let output :=
    output +:+ "func " +:+ FunctionName +:+ "(types goldi.TypeRegistry) {" +:+
    NL in
  let '(typeIDs, _, maxIDLength) := collect_typeIDs (size Types) entries in
  let typeIDs := sort_Strings typeIDs in
  let output :=
    if decide (size Types = 1) then
      let typeID := default EmptyString (typeIDs !! 0) in
      let typeDef := Types !!! typeID in
      output +:+ TAB +:+
      ("types.Register(" +:+ Quote typeID +:+ ", " +:+
       FactoryCode typeDef Package +:+ ")") +:+ NL
    else
      let output :=
        output +:+ TAB +:+ "types.RegisterAll(map[string]goldi.TypeFactory{"
        +:+ NL in
      let output :=
        foldl (λ output typeID,
                 output +:+
                 registration_entry Package Types maxIDLength typeID)
          output typeIDs in
      output +:+ TAB +:+ "})" +:+ NL in
  output +:+ "}" +:+ NL.

End GenerateTypeRegistration.

(** * Properties *)

Lemma bind_Ret {A B : Type} (a : A) (f : A → Res B) : (Ret a ≫= f) = f a.
Proof. reflexivity. Qed.

Lemma range_ext {A St : Type} (body body' : nat → A → St → Res St) l :
  ∀ i s, (∀ j x s', body j x s' = body' j x s') →
         range body i l s = range body' i l s.
Proof.
  induction l as [|x l IH]; intros i s Hbody; simpl; [done|].
  rewrite Hbody. destruct (body' i x s); simpl; auto.
Qed.

Lemma range_fill {A B : Type} (f : nat → A → Res B) l :
  ∀ i (pre post : list B),
    length pre = i → length l ≤ length post →
    range (λ i x a, v ← f i x; Ret (<[i := v]> a)) i l (pre ++ post)
    = (vs ← imapM f i l; Ret (pre ++ vs ++ drop (length l) post)).
Proof.
  induction l as [|x l IH]; intros i pre post Hpre Hpost; simpl.
  - by rewrite drop_0.
  - destruct post as [|p post]; simpl in Hpost; [lia|].
    destruct (f i x) as [v| |]; simpl; [|done..].
    assert (<[i := v]> (pre ++ p :: post) = (pre ++ [v]) ++ post) as ->.
    { subst i. rewrite insert_app_r_alt by lia.
      rewrite Nat.sub_diag. simpl. by rewrite <- app_assoc. }
    rewrite IH.
    + destruct (imapM f (S i) l); simpl; [|done..].
      by rewrite <- app_assoc.
    + rewrite length_app. simpl. lia.
    + lia.
Qed.

Lemma range_fill_replicate {A B : Type} (f : nat → A → Res B) l (z : B) :
  range (λ i x a, v ← f i x; Ret (<[i := v]> a)) 0 l
    (replicate (length l) z) = imapM f 0 l.
Proof.
  pose proof (range_fill f l 0 [] (replicate (length l) z)) as H.
  simpl in H. rewrite H; [|done|by rewrite length_replicate].
  destruct (imapM f 0 l); simpl; [|done..].
  rewrite drop_ge by (by rewrite length_replicate). by rewrite app_nil_r.
Qed.

Lemma imapM_length {A B : Type} (f : nat → A → Res B) l :
  ∀ i vs, imapM f i l = Ret vs → length vs = length l.
Proof.
  induction l as [|x l IH]; intros i vs; simpl.
  - by intros [= <-].
  - destruct (f i x); simpl; [|done..].
    destruct (imapM f (S i) l) eqn:E; simpl; [|done..].
    intros [= <-]. simpl. f_equal. eauto.
Qed.

Lemma imapM_lookup {A B : Type} (f : nat → A → Res B) l :
  ∀ i vs, imapM f i l = Ret vs →
    ∀ k x, l !! k = Some x → ∃ v, vs !! k = Some v ∧ f (i + k) x = Ret v.
Proof.
  induction l as [|x l IH]; intros i vs; simpl; [done|].
  destruct (f i x) as [v| |] eqn:Ef; simpl; [|done..].
  destruct (imapM f (S i) l) as [vs'| |] eqn:E; simpl; [|done..].
  intros [= <-] [|k] y; simpl.
  - intros [= <-]. exists v. by rewrite Nat.add_0_r.
  - intros Hk. destruct (IH _ _ E k y Hk) as (w & ? & ?).
    exists w. split; [done|]. by rewrite <- Nat.add_succ_comm.
Qed.

Lemma imapM_Ret {A B : Type} (f : nat → A → Res B) l :
  ∀ i vs, length vs = length l →
    (∀ k x v, l !! k = Some x → vs !! k = Some v → f (i + k) x = Ret v) →
    imapM f i l = Ret vs.
Proof.
  induction l as [|x l IH]; intros i [|v vs] Hlen Hf; simpl in *; try done.
  rewrite <- (Nat.add_0_r i) at 1. rewrite (Hf 0 x v) by done. simpl.
  rewrite (IH (S i) vs); [done|lia|].
  intros k y w Hy Hw. rewrite Nat.add_succ_comm. by apply Hf.
Qed.

Lemma imapM_Fail {A B : Type} (f : nat → A → Res B) l :
  ∀ i k x err, l !! k = Some x →
    (∀ j y, j < k → l !! j = Some y → ∃ v, f (i + j) y = Ret v) →
    f (i + k) x = Fail err →
    imapM f i l = Fail err.
Proof.
  induction l as [|y l IH]; intros i k x err Hk Hbefore Hfail; [done|].
  destruct k as [|k]; simpl in *.
  - injection Hk as ->. rewrite Nat.add_0_r in Hfail. by rewrite Hfail.
  - destruct (Hbefore 0 y) as [v Hv]; [lia|done|].
    rewrite Nat.add_0_r in Hv. rewrite Hv. simpl.
    rewrite (IH (S i) k x err); [done|done| |].
    + intros j z Hj Hz. rewrite Nat.add_succ_comm. apply Hbefore; [lia|done].
    + by rewrite Nat.add_succ_comm.
Qed.

Lemma imapM_Fail_inv {A B : Type} (f : nat → A → Res B) l :
  ∀ i err, imapM f i l = Fail err →
    ∃ k x, l !! k = Some x ∧ f (i + k) x = Fail err ∧
           ∀ j y, j < k → l !! j = Some y → ∃ v, f (i + j) y = Ret v.
Proof.
  induction l as [|y l IH]; intros i err; simpl; [done|].
  destruct (f i y) as [v| |] eqn:Ef; simpl; [| |done].
  - destruct (imapM f (S i) l) as [vs| |] eqn:E; simpl; [done| |done].
    intros [= <-]. destruct (IH _ _ E) as (k & x & Hk & Hx & Hbefore).
    exists (S k), x. split; [done|]. split.
    + by rewrite <- Nat.add_succ_comm.
    + intros [|j] z Hj Hz; simpl in *.
      * injection Hz as <-. exists v. by rewrite Nat.add_0_r.
      * rewrite <- Nat.add_succ_comm. apply Hbefore; [lia|done].
  - intros [= <-]. exists 0, y. rewrite Nat.add_0_r.
    split; [done|]. split; [done|]. intros; lia.
Qed.

(** *** The accessors on a function type *)

Section FuncType.

Context (t : GoType) (ps : list GoType) (va : option GoType)
        (rs : list GoType).
Hypothesis Ht : underlying t = TFunc ps va rs.

Lemma Kind_of_func : Kind_of t = Kind.Func.
Proof using Ht. unfold Kind_of. by rewrite Ht. Qed.

Lemma NumOut_func : NumOut t = Ret (length rs).
Proof using Ht. unfold NumOut. by rewrite Ht. Qed.

Lemma NumIn_func :
  NumIn t = Ret (match va with Some _ => S (length ps) | None => length ps end).
Proof using Ht. unfold NumIn. rewrite Ht. by destruct va. Qed.

Lemma IsVariadic_func : IsVariadic t = Ret (bool_decide (is_Some va)).
Proof using Ht. unfold IsVariadic. rewrite Ht. by destruct va. Qed.

Lemma In_fixed i p : ps !! i = Some p → In t i = Ret p.
Proof using Ht. intros Hp. unfold In. by rewrite Ht, Hp. Qed.

Lemma In_variadic e : va = Some e → In t (length ps) = Ret (TSlice e).
Proof using Ht.
  intros ->. unfold In. rewrite Ht.
  rewrite lookup_ge_None_2 by lia. by rewrite decide_True.
Qed.

Lemma In_none i :
  expectedArgumentType ps va i = None →
  In t i = Panic "reflect: Func index out of bounds".
Proof using Ht.
  unfold expectedArgumentType, In. rewrite Ht.
  by destruct (ps !! i), va.
Qed.

Lemma Out_func i r : rs !! i = Some r → Out t i = Ret r.
Proof using Ht. intros Hr. unfold Out. by rewrite Ht, Hr. Qed.

(** The type an argument is checked against, as the loop computes it. *)
Lemma expected_in_loop i :
  (if bool_decide (is_Some va) &&
      bool_decide (match va with Some _ => S (length ps) | None => length ps
                   end - 1 ≤ i)
   then In t (match va with Some _ => S (length ps) | None => length ps end
              - 1) ≫= Elem
   else In t i)
  = match expectedArgumentType ps va i with
    | Some expected => Ret expected
    | None => Panic "reflect: Func index out of bounds"
    end.
Proof using Ht.
  unfold expectedArgumentType, In. rewrite Ht. clear Ht.
  destruct va as [e|]; simpl.
  - rewrite Nat.sub_0_r. case_bool_decide as Hi.
    + rewrite !lookup_ge_None_2 by lia. by rewrite decide_True.
    + destruct (lookup_lt_is_Some_2 ps i) as [p Hp]; [lia|]. by rewrite Hp.
  - by destruct (ps !! i).
Qed.

Lemma buildFactoryCallArguments_imapM l :
  buildFactoryCallArguments t l = imapM (checked ps va) 0 l.
Proof using Ht.
  unfold buildFactoryCallArguments. rewrite NumIn_func. simpl.
  rewrite <- (range_fill_replicate (checked ps va) l VNil).
  apply range_ext. intros i a args.
  rewrite IsVariadic_func. simpl. rewrite expected_in_loop.
  unfold checked, rejected, rejection, ValueOf.
  destruct (expectedArgumentType ps va i) as [ty|]; simpl; [|done].
  case_decide as Hk.
  - rewrite bool_decide_true by done. simpl.
    destruct (as_string a) as [str|]; simpl; [|done].
    destruct (IsParameterOrTypeReference str); reflexivity.
  - rewrite bool_decide_false; [reflexivity|]. intros H. by apply H.
Qed.

End FuncType.

Lemma imapM_no_panic {A B : Type} (f : nat → A → Res B) l :
  ∀ i, (∀ k x reason, l !! k = Some x → f (i + k) x ≠ Panic reason) →
       ∀ reason, imapM f i l ≠ Panic reason.
Proof.
  induction l as [|x l IH]; intros i Hf reason; simpl; [done|].
  destruct (f i x) as [v| |p] eqn:Ef; simpl; [|done|].
  - destruct (imapM f (S i) l) as [vs| |q] eqn:E; simpl; [done..|].
    exfalso. apply (IH (S i)) with (reason := q); [|done].
    intros k y p Hy. rewrite Nat.add_succ_comm. by apply Hf.
  - exfalso. apply (Hf 0 x p); [done|]. by rewrite Nat.add_0_r.
Qed.

(** *** The eager argument check *)

Section Checked.

Context (ps : list GoType) (va : option GoType) (l : list Value).
Hypothesis Harity : arity_ok ps va (length l).

Lemma expected_is_Some i a :
  l !! i = Some a → is_Some (expectedArgumentType ps va i).
Proof using Harity.
  intros Ha%lookup_lt_Some. unfold expectedArgumentType, arity_ok in *.
  destruct (ps !! i) as [p|] eqn:Hp; [by eexists|].
  destruct va; [by eexists|].
  apply lookup_ge_None_1 in Hp. lia.
Qed.

Lemma checked_all_accepted :
  (∀ i a expected, l !! i = Some a →
     expectedArgumentType ps va i = Some expected →
     rejected expected a = false) →
  imapM (checked ps va) 0 l = Ret l.
Proof using Harity.
  intros Hok. apply imapM_Ret; [done|].
  intros k x v Hx Hv. simplify_eq. simpl. unfold checked.
  destruct (expected_is_Some k x Hx) as [ty Hty]. rewrite Hty.
  by rewrite (Hok k x ty).
Qed.

Lemma checked_Ret args :
  imapM (checked ps va) 0 l = Ret args → args = l.
Proof using Type.
  intros E. apply list_eq. intros k.
  pose proof (imapM_length _ _ _ _ E) as Hlen.
  destruct (l !! k) as [x|] eqn:Hx.
  - destruct (imapM_lookup _ _ _ _ E k x Hx) as (v & Hv & Hc).
    rewrite Hv. f_equal. simpl in Hc. unfold checked in Hc.
    destruct (expectedArgumentType ps va k); [|done].
    destruct (rejected _ _); by simplify_eq.
  - apply lookup_ge_None_1 in Hx. apply lookup_ge_None_2. lia.
Qed.

Lemma checked_Fail err :
  imapM (checked ps va) 0 l = Fail err →
  ∃ k a expected,
    l !! k = Some a ∧ expectedArgumentType ps va k = Some expected ∧
    rejected expected a = true ∧ err = rejection k expected a ∧
    ∀ j b ty, j < k → l !! j = Some b →
              expectedArgumentType ps va j = Some ty →
              rejected ty b = false.
Proof using Type.
  intros (k & a & Ha & Hc & Hbefore)%imapM_Fail_inv.
  simpl in Hc. unfold checked in Hc.
  destruct (expectedArgumentType ps va k) as [ty|] eqn:Hty; [|done].
  destruct (rejected ty a) eqn:Hrej; [|done].
  injection Hc as <-. exists k, a, ty. repeat split; try done.
  intros j b ty' Hj Hb Hty'. destruct (Hbefore j b Hj Hb) as [v Hv].
  simpl in Hv. unfold checked in Hv. rewrite Hty' in Hv.
  by destruct (rejected ty' b).
Qed.

Lemma checked_no_panic reason :
  imapM (checked ps va) 0 l ≠ Panic reason.
Proof using Harity.
  apply imapM_no_panic. intros k x p Hx. simpl. unfold checked.
  destruct (expected_is_Some k x Hx) as [ty ->].
  by destruct (rejected ty x).
Qed.

Lemma checked_first_rejected k a expected :
  l !! k = Some a → expectedArgumentType ps va k = Some expected →
  rejected expected a = true →
  (∀ j b ty, j < k → l !! j = Some b →
             expectedArgumentType ps va j = Some ty →
             rejected ty b = false) →
  imapM (checked ps va) 0 l = Fail (rejection k expected a).
Proof using Harity.
  intros Ha Hty Hrej Hbefore. apply imapM_Fail with (k := k) (x := a).
  - done.
  - intros j b Hj Hb. simpl. unfold checked.
    destruct (expected_is_Some j b Hb) as [ty Hty'].
    rewrite Hty', (Hbefore j b ty) by done. by eexists.
  - simpl. unfold checked. by rewrite Hty, Hrej.
Qed.

End Checked.

(** *** [NewType], case by case *)

Lemma underlying_not_named t name u : underlying t ≠ TNamed name u.
Proof. induction t; simpl; try done. Qed.

Lemma Kind_of_Func_inv t :
  Kind_of t = Kind.Func → ∃ ps va rs, underlying t = TFunc ps va rs.
Proof.
  unfold Kind_of. destruct (underlying t) as [b| | | | | | |ps va rs] eqn:E;
    try done.
  - by destruct b.
  - intros _. by exists ps, va, rs.
Qed.

Lemma NewType_not_func f ft l :
  TypeOf f = Some ft → Kind_of ft ≠ Kind.Func →
  NewType f l = Ret (InvalidT (errorString
    ("the given factoryFunction must be a function (given " +:+
     Quote (Kind.name (Kind_of ft)) +:+ ")"))).
Proof. intros Hf Hk. unfold NewType. rewrite Hf. by rewrite decide_False. Qed.

Section NewTypeFunc.

Context (f : Value) (ft : GoType) (ps : list GoType) (va : option GoType)
        (rs : list GoType) (l : list Value).
Hypothesis Hf : TypeOf f = Some ft.
Hypothesis Hft : underlying ft = TFunc ps va rs.

Lemma NewType_func :
  NewType f l = newTypeFromFactoryFunction f ft l.
Proof using Hf Hft.
  unfold NewType. rewrite Hf.
  by rewrite decide_True by (by eapply Kind_of_func).
Qed.

Lemma NewType_NumOut :
  length rs ≠ 1 →
  NewType f l = Ret (InvalidT (errorString
    ("invalid number of return parameters: " +:+ fmt_d (length rs)))).
Proof using Hf Hft.
  intros Hrs. rewrite NewType_func. unfold newTypeFromFactoryFunction.
  rewrite (NumOut_func ft ps va rs Hft). simpl. by rewrite decide_True.
Qed.

Lemma NewType_return_kind r :
  rs = [r] → Kind_of r ≠ Kind.Interface → Kind_of r ≠ Kind.Ptr →
  NewType f l = Ret (InvalidT (errorString
    ("return parameter is no interface or pointer but a " +:+
     Kind.name (Kind_of r)))).
Proof using Hf Hft.
  intros Hrs Hi Hp. rewrite NewType_func. unfold newTypeFromFactoryFunction.
  rewrite (NumOut_func ft ps va rs Hft). simpl. subst rs. simpl.
  rewrite (Out_func ft ps va [r] Hft 0 r) by done. simpl.
  by rewrite decide_True.
Qed.

Lemma NewType_passes_return r :
  rs = [r] → Kind_of r = Kind.Interface ∨ Kind_of r = Kind.Ptr →
  NewType f l =
    if bool_decide (is_Some va) &&
       bool_decide (length l < match va with
                               | Some _ => S (length ps)
                               | None => length ps
                               end)
    then Ret (InvalidT (errorString
      ("invalid number of input parameters for variadic function: got "
       +:+ fmt_d (length l) +:+ " but expected at least " +:+
       fmt_d (S (length ps)))))
    else if negb (bool_decide (is_Some va)) &&
            bool_decide (length ps ≠ length l)
    then Ret (InvalidT (errorString
      ("invalid number of input parameters: got " +:+ fmt_d (length l) +:+
       " but expected " +:+ fmt_d (length ps))))
    else match imapM (checked ps va) 0 l with
         | Ret args => Ret (FuncT {| factory := f; factoryType := ft;
                                     factoryArguments := args |})
         | Fail err => Ret (InvalidT err)
         | Panic reason => Panic reason
         end.
Proof using Hf Hft.
  intros Hrs Hk. rewrite NewType_func. unfold newTypeFromFactoryFunction.
  rewrite (NumOut_func ft ps va rs Hft). simpl. subst rs. simpl.
  rewrite (Out_func ft ps va [r] Hft 0 r) by done. simpl.
  rewrite decide_False by (intros [??]; by destruct Hk).
  rewrite (IsVariadic_func ft ps va [r] Hft),
          (NumIn_func ft ps va [r] Hft). simpl.
  rewrite (buildFactoryCallArguments_imapM ft ps va [r] Hft).
  unfold ValueOf, newInvalidType. clear Hft. by destruct va.
Qed.

End NewTypeFunc.

Lemma arity_ok_dec ps va k : Decision (arity_ok ps va k).
Proof. unfold arity_ok. destruct va; apply _. Defined.

Lemma rejected_iff expected a :
  rejected expected a = true ↔
  ∃ s, a = VString s ∧ IsParameterOrTypeReference s = false ∧
       Kind_of expected ≠ Kind.String.
Proof.
  unfold rejected. split.
  - intros [Hk Hs]%andb_true_iff. apply bool_decide_eq_true in Hk.
    destruct a; try done. simpl in *. exists s.
    split; [done|]. split; [by destruct (IsParameterOrTypeReference s)|].
    intros E. apply Hk. by rewrite E.
  - intros (s & -> & Hs & Hk). simpl. rewrite Hs.
    rewrite bool_decide_true; [done|]. intros E. apply Hk. by rewrite <- E.
Qed.

(** With its return and its argument count in order, [NewType] is as
    valid as the eager check of the arguments makes it. *)
Lemma NewType_checked f ft ps va r l :
  TypeOf f = Some ft → underlying ft = TFunc ps va [r] →
  Kind_of r = Kind.Interface ∨ Kind_of r = Kind.Ptr →
  arity_ok ps va (length l) →
  NewType f l =
    match imapM (checked ps va) 0 l with
    | Ret args => Ret (FuncT {| factory := f; factoryType := ft;
                                factoryArguments := args |})
    | Fail err => Ret (InvalidT err)
    | Panic reason => Panic reason
    end.
Proof.
  intros Hf Hft Hr Harity.
  rewrite (NewType_passes_return f ft ps va [r] l Hf Hft r) by done.
  unfold arity_ok in Harity. destruct va; simpl.
  - by rewrite bool_decide_false by lia.
  - by rewrite bool_decide_false by (intros ?; lia).
Qed.

Lemma NewType_accepts f ft ps va r l :
  TypeOf f = Some ft → underlying ft = TFunc ps va [r] →
  Kind_of r = Kind.Interface ∨ Kind_of r = Kind.Ptr →
  arity_ok ps va (length l) →
  (∀ i a expected, l !! i = Some a →
     expectedArgumentType ps va i = Some expected →
     rejected expected a = false) →
  NewType f l = Ret (FuncT {| factory := f; factoryType := ft;
                              factoryArguments := l |}).
Proof.
  intros Hf Hft Hr Harity Hok.
  rewrite (NewType_checked f ft ps va r l) by done.
  by rewrite checked_all_accepted.
Qed.

Lemma NewType_rejects f ft ps va r l i a expected :
  TypeOf f = Some ft → underlying ft = TFunc ps va [r] →
  Kind_of r = Kind.Interface ∨ Kind_of r = Kind.Ptr →
  arity_ok ps va (length l) →
  l !! i = Some a → expectedArgumentType ps va i = Some expected →
  rejected expected a = true →
  ∃ err, NewType f l = Ret (InvalidT err).
Proof.
  intros Hf Hft Hr Harity Ha Hty Hrej.
  rewrite (NewType_checked f ft ps va r l) by done.
  destruct (imapM (checked ps va) 0 l) as [args|err|reason] eqn:E.
  - destruct (imapM_lookup _ _ _ _ E i a Ha) as (v & _ & Hc).
    simpl in Hc. unfold checked in Hc. by rewrite Hty, Hrej in Hc.
  - by exists err.
  - by destruct (checked_no_panic ps va l Harity reason).
Qed.

Lemma NewType_valid_or_invalid f ft ps va r l :
  TypeOf f = Some ft → underlying ft = TFunc ps va [r] →
  Kind_of r = Kind.Interface ∨ Kind_of r = Kind.Ptr →
  arity_ok ps va (length l) →
  NewType f l = Ret (FuncT {| factory := f; factoryType := ft;
                              factoryArguments := l |}) ∨
  ∃ k a expected,
    l !! k = Some a ∧ expectedArgumentType ps va k = Some expected ∧
    rejected expected a = true ∧
    NewType f l = Ret (InvalidT (rejection k expected a)).
Proof.
  intros Hf Hft Hr Harity.
  rewrite (NewType_checked f ft ps va r l) by done.
  destruct (imapM (checked ps va) 0 l) as [args|err|reason] eqn:E.
  - left. by rewrite (checked_Ret ps va l args E).
  - right. destruct (checked_Fail ps va l err E)
      as (k & a & ty & ? & ? & ? & -> & _).
    by exists k, a, ty.
  - by destruct (checked_no_panic ps va l Harity reason).
Qed.

(** ** The claims on [NewType] *)

(** C1, as stated, fails: [NumIn] counts the variadic parameter, so a
    variadic function with one fixed parameter is refused one raw
    argument, although 1 ≥ 1. *)
Lemma NewType_variadic_refuses_fixed_count :
  let l := [VString "a"] in
  TypeOf NewVariadicMockType
    = Some (TFunc [TBasic Basic.String] (Some (TBasic Basic.Int))
              [TPtr MockType]) ∧
  length [TBasic Basic.String] ≤ length l ∧
  NewType NewVariadicMockType l
    = Ret (InvalidT (errorString
        "invalid number of input parameters for variadic function: got 1 but expected at least 2")).
Proof. repeat split. simpl. lia. Qed.

(** C1 (amended): for a variadic constructor with [F] fixed parameters and
    one result of interface or pointer kind, [NewType] refuses every
    count [k ≤ F] of raw arguments with the error of the variadic count,
    which asks for [F + 1] at least; for [k ≥ F + 1] the count is let
    through, and the factory is valid exactly when the eager check
    rejects none of the raw arguments, holding them as declared. *)
Theorem NewType_variadic_count f ft fixed e r l :
  TypeOf f = Some ft →
  underlying ft = TFunc fixed (Some e) [r] →
  Kind_of r = Kind.Interface ∨ Kind_of r = Kind.Ptr →
  (length l ≤ length fixed →
   NewType f l = Ret (InvalidT (errorString
     ("invalid number of input parameters for variadic function: got " +:+
      fmt_d (length l) +:+ " but expected at least " +:+
      fmt_d (S (length fixed)))))) ∧
  (length fixed < length l →
   ∃ t, NewType f l = Ret t ∧
        (IsValid t = true ↔
         ∀ i a expected, l !! i = Some a →
           expectedArgumentType fixed (Some e) i = Some expected →
           rejected expected a = false) ∧
        (IsValid t = true →
         t = FuncT {| factory := f; factoryType := ft;
                      factoryArguments := l |})).
Proof.
  intros Hf Hft Hr. split.
  - intros Hk.
    rewrite (NewType_passes_return f ft fixed (Some e) [r] l Hf Hft r)
      by done.
    simpl. by rewrite bool_decide_true by lia.
  - intros Hk.
    destruct (NewType_valid_or_invalid f ft fixed (Some e) r l)
      as [E|(k & a & ty & Ha & Hty & Hrej & E)]; try done.
    + eexists. split; [exact E|]. split; [|done]. split; [|done].
      intros _ i a ty Ha Hty. destruct (rejected ty a) eqn:Hrej; [|done].
      destruct (NewType_rejects f ft fixed (Some e) r l i a ty)
        as [err E']; try done.
      rewrite E in E'. discriminate.
    + eexists. split; [exact E|]. simpl. split; [|done]. split; [done|].
      intros Hok. by rewrite (Hok k a ty) in Hrej.
Qed.

Lemma NewType_variadic_count_witness :
  ∃ t, NewType NewVariadicMockType [VString "a"; VInt 1; VInt 2] = Ret t ∧
       IsValid t = true.
Proof.
  destruct (NewType_variadic_count NewVariadicMockType
              (TFunc [TBasic Basic.String] (Some (TBasic Basic.Int))
                 [TPtr MockType])
              [TBasic Basic.String] (TBasic Basic.Int) (TPtr MockType)
              [VString "a"; VInt 1; VInt 2]
              eq_refl eq_refl (or_intror eq_refl)) as [_ H].
  destruct (H ltac:(simpl; lia)) as (t & E & _ & _).
  exists t. split; [exact E|].
  vm_compute in E. injection E as <-. reflexivity.
Defined.

(** C2, as stated, fails: a plain string passed for an [int] parameter
    makes the factory invalid at construction. *)
Lemma NewType_checks_string_argument :
  NewType NewMockTypeFromInt [VString "foo"]
  = Ret (InvalidT (errorString
      "input argument 1 is of type string but needs to be a int")).
Proof. reflexivity. Qed.

(** C2 (amended): [NewType] checks the value of a raw argument against
    its parameter in one case only.  With the return and the argument
    count in order, the factory is invalid exactly when some raw argument
    is a Go string that is no placeholder and no reference while its
    parameter is not of kind string; the recorded error then names such
    an argument, by its position counted from one.  No other mismatch of
    an argument and its parameter is looked at before resolution. *)
Theorem NewType_only_checks_plain_strings f ft ps va r l :
  TypeOf f = Some ft →
  underlying ft = TFunc ps va [r] →
  Kind_of r = Kind.Interface ∨ Kind_of r = Kind.Ptr →
  arity_ok ps va (length l) →
  ∃ t, NewType f l = Ret t ∧
       (IsValid t = false ↔
        ∃ i s expected,
          l !! i = Some (VString s) ∧
          expectedArgumentType ps va i = Some expected ∧
          IsParameterOrTypeReference s = false ∧
          Kind_of expected ≠ Kind.String) ∧
       (IsValid t = false →
        ∃ i s expected,
          l !! i = Some (VString s) ∧
          expectedArgumentType ps va i = Some expected ∧
          t = InvalidT (errorString
            ("input argument " +:+ fmt_d (i + 1) +:+
             " is of type string but needs to be a " +:+
             Kind.name (Kind_of expected)))).
Proof.
  intros Hf Hft Hr Harity.
  destruct (NewType_valid_or_invalid f ft ps va r l)
    as [E|(k & a & ty & Ha & Hty & Hrej & E)]; try done.
  - eexists. split; [exact E|]. simpl. split; [|done]. split; [done|].
    intros (i & s & ty & Ha & Hty & Hs & Hk).
    destruct (NewType_rejects f ft ps va r l i (VString s) ty)
      as [err E']; try done.
    + apply rejected_iff. by exists s.
    + rewrite E in E'. discriminate.
  - apply rejected_iff in Hrej as (s & -> & Hs & Hkind).
    eexists. split; [exact E|]. simpl. split.
    + split; [|done]. intros _. by exists k, s, ty.
    + intros _. by exists k, s, ty.
Qed.

Lemma NewType_only_checks_plain_strings_witness :
  ∃ t, NewType NewMockTypeWithArgs [VString "%name%"; VInt 7] = Ret t ∧
       IsValid t = true.
Proof.
  destruct (NewType_only_checks_plain_strings NewMockTypeWithArgs
              (TFunc [TBasic Basic.String; TBasic Basic.Bool] None
                 [TPtr MockType])
              [TBasic Basic.String; TBasic Basic.Bool] None (TPtr MockType)
              [VString "%name%"; VInt 7]
              eq_refl eq_refl (or_intror eq_refl) eq_refl)
    as (t & E & _ & _).
  exists t. split; [exact E|].
  vm_compute in E. injection E as <-. reflexivity.
Defined.

(** C5, as stated, fails in its last part: the input below is a function
    with one result of pointer kind, not variadic, given as many raw
    arguments as it has parameters, and yet the factory is invalid. *)
Lemma NewType_invalid_beyond_listed_cases :
  let ft := TFunc [TBasic Basic.String; TBasic Basic.Bool] None
              [TPtr MockType] in
  let l := [VString "yes"; VString "no"] in
  TypeOf NewMockTypeWithArgs = Some ft ∧
  Kind_of ft = Kind.Func ∧
  NumOut ft = Ret 1 ∧
  (Out ft 0 ≫= λ out, Ret (Kind_of out)) = Ret Kind.Ptr ∧
  IsVariadic ft = Ret false ∧
  NumIn ft = Ret (length l) ∧
  NewType NewMockTypeWithArgs l
    = Ret (InvalidT (errorString
        "input argument 2 is of type string but needs to be a bool")).
Proof. repeat split. Qed.

(** C5 (amended): for every input of [NewType] other than the nil
    interface value, [NewType] returns a factory, which is invalid
    exactly when the supplied value is no function, or the function has
    not one result, or its result is of neither interface nor pointer
    kind, or it is not variadic and the count of raw arguments differs
    from its arity, or it is variadic and the count is below its arity
    (the variadic parameter counted), or the eager check rejects a raw
    argument.  An invalid factory fails every [Generate] with the error
    recorded at construction; a valid one holds the function and the raw
    arguments as given. *)
Theorem NewType_invalid_iff f ft l :
  TypeOf f = Some ft →
  ∃ t, NewType f l = Ret t ∧
       (IsValid t = false ↔ malformed ft l) ∧
       (IsValid t = true →
        t = FuncT {| factory := f; factoryType := ft;
                     factoryArguments := l |}) ∧
       (∀ err, t = InvalidT err →
          ∀ rt resolver, Generate rt t resolver = Fail err).
Proof.
  intros Hf. unfold malformed.
  destruct (decide (Kind_of ft = Kind.Func)) as [Hk|Hk].
  - destruct (Kind_of_Func_inv ft Hk) as (ps & va & rs & Hft). rewrite Hft.
    destruct (decide (length rs = 1)) as [Hrs|Hrs].
    + destruct rs as [|r [|]]; try done. clear Hrs.
      destruct (decide (Kind_of r = Kind.Interface ∨ Kind_of r = Kind.Ptr))
        as [Hr|Hr].
      * destruct (arity_ok_dec ps va (length l)) as [Harity|Harity].
        -- destruct (NewType_valid_or_invalid f ft ps va r l)
             as [E|(k & a & ty & Ha & Hty & Hrej & E)]; try done.
           ++ eexists. split; [exact E|]. simpl.
              split; [|split; [done|by intros ? [=]]]. split; [done|].
              intros [?|[(r' & [= <-] & ? & ?)|[?|(i & a & ty & ? & ? & ?)]]];
                try done.
              { destruct Hr; done. }
              destruct (NewType_rejects f ft ps va r l i a ty)
                as [err E']; try done.
              rewrite E in E'. discriminate.
           ++ eexists. split; [exact E|]. simpl.
              split; [|split; [done|by intros ? [= <-]]]. split; [|done].
              intros _. right. right. right. by exists k, a, ty.
        -- rewrite (NewType_passes_return f ft ps va [r] l Hf Hft r) by done.
           unfold arity_ok in Harity. destruct va as [e|]; simpl.
           ++ rewrite bool_decide_true by lia. eexists. split; [done|].
              simpl. split; [|split; [done|by intros ? [= <-]]].
              split; [|done]. intros _. right. right. by left.
           ++ rewrite bool_decide_true by done. eexists. split; [done|].
              simpl. split; [|split; [done|by intros ? [= <-]]].
              split; [|done]. intros _. right. right. by left.
      * rewrite (NewType_return_kind f ft ps va [r] l Hf Hft r);
          [|done|naive_solver..].
        eexists. split; [done|]. simpl.
        split; [|split; [done|by intros ? [= <-]]]. split; [|done].
        intros _. right. left. exists r. naive_solver.
    + rewrite (NewType_NumOut f ft ps va rs l Hf Hft Hrs).
      eexists. split; [done|]. simpl.
      split; [|split; [done|by intros ? [= <-]]]. split; [|done].
      intros _. by left.
  - rewrite (NewType_not_func f ft l Hf Hk).
    eexists. split; [done|]. simpl.
    split; [|split; [done|by intros ? [= <-]]]. split; [|done].
    intros _. unfold Kind_of in Hk.
    by destruct (underlying ft).
Qed.

Lemma NewType_invalid_iff_witness :
  ∃ t err, NewType (VInt 42) [VString "foo"] = Ret t ∧ t = InvalidT err ∧
           ∀ rt resolver, Generate rt t resolver = Fail err.
Proof.
  destruct (NewType_invalid_iff (VInt 42) (TBasic Basic.Int) [VString "foo"]
              eq_refl) as (t & E & [_ Hinv] & _ & Hgen).
  pose proof (Hinv I) as Ht.
  destruct t as [?|err|?]; try discriminate Ht.
  exists (InvalidT err), err. split; [exact E|]. split; [reflexivity|].
  exact (Hgen err eq_refl).
Defined.

(** C10: the eager check of [NewType] fails on a raw argument only where
    that argument is a Go string, no placeholder and no reference, whose
    parameter is not of kind string; and a list of raw arguments none of
    which is such a string, whatever the kinds of its values, is accepted:
    the factory is valid and holds the arguments as declared. *)
Theorem buildFactoryCallArguments_rejects_only_plain_strings
    f ft ps va r l :
  TypeOf f = Some ft →
  underlying ft = TFunc ps va [r] →
  Kind_of r = Kind.Interface ∨ Kind_of r = Kind.Ptr →
  arity_ok ps va (length l) →
  (∀ err, buildFactoryCallArguments ft l = Fail err →
     ∃ i s expected,
       l !! i = Some (VString s) ∧
       expectedArgumentType ps va i = Some expected ∧
       IsParameterOrTypeReference s = false ∧
       Kind_of expected ≠ Kind.String ∧
       err = rejection i expected (VString s)) ∧
  ((∀ a, a ∈ l → as_string a = None ∨
                 ∃ s, a = VString s ∧ IsParameterOrTypeReference s = true) →
   buildFactoryCallArguments ft l = Ret l ∧
   NewType f l = Ret (FuncT {| factory := f; factoryType := ft;
                               factoryArguments := l |})).
Proof.
  intros Hf Hft Hr Harity. split.
  - intros err. rewrite (buildFactoryCallArguments_imapM ft ps va [r] Hft).
    intros (k & a & ty & Ha & Hty & Hrej & -> & _)%checked_Fail.
    apply rejected_iff in Hrej as (s & -> & Hs & Hk).
    by exists k, s, ty.
  - intros Hl.
    assert (∀ i a expected, l !! i = Some a →
              expectedArgumentType ps va i = Some expected →
              rejected expected a = false) as Hok.
    { intros i a ty Ha _. destruct (rejected ty a) eqn:Hrej; [|done].
      apply rejected_iff in Hrej as (s & -> & Hs & _).
      destruct (Hl (VString s)) as [?|(s' & [= <-] & Hs')].
      - by eapply list_elem_of_lookup_2.
      - done.
      - congruence. }
    split.
    + rewrite (buildFactoryCallArguments_imapM ft ps va [r] Hft).
      by apply checked_all_accepted.
    + by apply (NewType_accepts f ft ps va r l).
Qed.

Lemma buildFactoryCallArguments_rejects_only_plain_strings_witness :
  NewType NewMockTypeWithArgs [VInt 1; VFloat64 0]
  = Ret (FuncT {| factory := NewMockTypeWithArgs;
                  factoryType := TFunc [TBasic Basic.String; TBasic Basic.Bool]
                                   None [TPtr MockType];
                  factoryArguments := [VInt 1; VFloat64 0] |}).
Proof.
  destruct (buildFactoryCallArguments_rejects_only_plain_strings
              NewMockTypeWithArgs
              (TFunc [TBasic Basic.String; TBasic Basic.Bool] None
                 [TPtr MockType])
              [TBasic Basic.String; TBasic Basic.Bool] None (TPtr MockType)
              [VInt 1; VFloat64 0]
              eq_refl eq_refl (or_intror eq_refl) eq_refl) as [_ H].
  apply H. intros a Ha. left.
  apply elem_of_cons in Ha as [->|Ha]; [reflexivity|].
  apply elem_of_cons in Ha as [->|Ha]; [reflexivity|].
  by apply elem_of_nil in Ha.
Defined.

(** ** [Arguments] *)

Lemma typeFactory_Arguments_imapM t :
  typeFactory_Arguments t = imapM (λ _ a, Interface a) 0 (factoryArguments t).
Proof.
  unfold typeFactory_Arguments.
  by rewrite <- (range_fill_replicate (λ _ a, Interface a) _ VNil).
Qed.

(** A factory none of whose raw arguments is nil returns them as they
    are. *)
Lemma typeFactory_Arguments_not_nil t :
  (∀ a, a ∈ factoryArguments t → a ≠ VNil) →
  typeFactory_Arguments t = Ret (factoryArguments t).
Proof.
  intros Hnil. rewrite typeFactory_Arguments_imapM.
  apply imapM_Ret; [done|]. intros k x v Hx Hv. simplify_eq.
  assert (x ≠ VNil) by (by eapply Hnil, list_elem_of_lookup_2).
  by destruct x.
Qed.

(** A nil raw argument makes [Arguments] panic. *)
Lemma typeFactory_Arguments_nil t :
  VNil ∈ factoryArguments t →
  typeFactory_Arguments t
  = Panic "reflect: call of reflect.Value.Interface on zero Value".
Proof.
  rewrite typeFactory_Arguments_imapM. generalize 0.
  induction (factoryArguments t) as [|a l IH]; intros n Hin.
  - by apply elem_of_nil in Hin.
  - simpl. destruct a; simpl; try done;
      (apply elem_of_cons in Hin as [?|Hin]; [done|]);
      by rewrite IH.
Qed.

Lemma Arguments_NewAliasType typeID :
  Arguments (NewAliasType typeID) = Ret [VString ("@" +:+ typeID)].
Proof. reflexivity. Qed.

(** C7: the code does not return the raw arguments of every valid
    factory.  [NewType] accepts a nil raw argument, the factory is valid,
    and its [Arguments] panics on the zero [reflect.Value] kept for that
    argument. *)
Theorem Arguments_panics_on_nil_argument :
  ∃ t, NewType NewMockTypeFromAny [VNil] = Ret (FuncT t) ∧
       IsValid (FuncT t) = true ∧
       factoryArguments t = [VNil] ∧
       Arguments (FuncT t)
       = Panic "reflect: call of reflect.Value.Interface on zero Value".
Proof. eexists. repeat split. Qed.

(** ** [Validate] *)

Lemma prefix_app s t : String.prefix s (s +:+ t) = true.
Proof.
  induction s as [|c s IH]; simpl; [by destruct t|].
  destruct (Ascii.ascii_dec c c); [done|congruence].
Qed.

Lemma string_app_nil_r s : s +:+ EmptyString = s.
Proof. induction s as [|c s IH]; [done|]. change (String c (s +:+ EmptyString) = String c s). by f_equal. Qed.

Lemma string_app_assoc s t u : (s +:+ t) +:+ u = s +:+ t +:+ u.
Proof.
  induction s as [|c s IH]; [done|].
  change (String c ((s +:+ t) +:+ u) = String c (s +:+ t +:+ u)). by f_equal.
Qed.

Lemma Contains_unfold s sub :
  Contains s sub =
  String.prefix sub s ||
  match s with
  | EmptyString => false
  | String _ s' => Contains s' sub
  end.
Proof. by destruct s. Qed.

Lemma Contains_here s t : Contains (s +:+ t) s = true.
Proof. by rewrite Contains_unfold, prefix_app. Qed.

Lemma Contains_app_r p s sub :
  Contains s sub = true → Contains (p +:+ s) sub = true.
Proof.
  intros Hs. induction p as [|c p IH]; [done|].
  change (Contains (String c (p +:+ s)) sub = true).
  rewrite Contains_unfold, IH. apply orb_true_r.
Qed.

Lemma quote_rune_plain c s :
  plain_byte c = true →
  quote_rune (String c s) = (String c EmptyString, 1).
Proof.
  destruct c as [[] [] [] [] [] [] [] []]; intros H;
    first [discriminate H | reflexivity].
Qed.

Lemma quote_bytes_plain s : plain s = true → quote_bytes 0 s = s.
Proof.
  induction s as [|c s IH]; [done|].
  intros [Hc Hs]%andb_true_iff.
  change (quote_bytes 0 (String c s))
    with (let '(text, width) := quote_rune (String c s) in
          text +:+ quote_bytes (width - 1) s).
  rewrite (quote_rune_plain c s Hc). simpl. by rewrite (IH Hs).
Qed.

Lemma Contains_middle p s t : Contains (p +:+ s +:+ t) s = true.
Proof. apply Contains_app_r, Contains_here. Qed.

Lemma Contains_end p s : Contains (p +:+ s) s = true.
Proof.
  apply Contains_app_r. pose proof (Contains_here s EmptyString) as H.
  by rewrite string_app_nil_r in H.
Qed.

Lemma IsValid_false t : IsValid t = false ↔ ∃ err, t = InvalidT err.
Proof. split; [destruct t; naive_solver|by intros [? ->]]. Qed.

Lemma Validate_range_Ret entries :
  Validate_range entries = Ret tt ↔
  ∀ id t, (id, t) ∈ entries → IsValid t = true.
Proof.
  induction entries as [|[id t] entries IH]; simpl.
  - split; [|done]. by intros _ ?? ?%elem_of_nil.
  - case_decide as Hv.
    + apply IsValid_false in Hv as [err ->]. simpl. split; [done|].
      intros H. by specialize (H id (InvalidT err) (list_elem_of_here _ _)).
    + rewrite IH. apply not_false_is_true in Hv. split.
      * intros H id' t' [[= -> ->]|?]%elem_of_cons; [done|by eapply H].
      * intros H id' t' ?. eapply H. by apply list_elem_of_further.
Qed.

Lemma Validate_range_cases entries :
  Validate_range entries = Ret tt ∨
  ∃ id err, (id, InvalidT err) ∈ entries ∧
            Validate_range entries
            = Fail (errorString
                ("type " +:+ Quote id +:+ " is invalid: " +:+ Error err)).
Proof.
  induction entries as [|[id t] entries IH]; simpl; [by left|].
  case_decide as Hv.
  - apply IsValid_false in Hv as [err ->]. right. exists id, err.
    split; [apply list_elem_of_here|done].
  - destruct IH as [?|(id' & err & ? & ?)]; [by left|].
    right. exists id', err. split; [by apply list_elem_of_further|done].
Qed.

Lemma iteration_order_elem_of registry entries id (t : TypeFactory) :
  iteration_order registry entries →
  (id, t) ∈ entries ↔ registry !! id = Some t.
Proof.
  unfold iteration_order. intros ->. apply elem_of_map_to_list.
Qed.

Lemma iteration_order_exists registry :
  iteration_order registry (map_to_list registry).
Proof. by unfold iteration_order. Qed.

Lemma Validate_range_error registry entries :
  iteration_order registry entries →
  Validate_range entries ≠ Ret tt →
  ∃ id err, registry !! id = Some (InvalidT err) ∧
            Validate_range entries
            = Fail (errorString
                ("type " +:+ Quote id +:+ " is invalid: " +:+ Error err)).
Proof.
  intros Horder Hne.
  destruct (Validate_range_cases entries) as [E|(id & err & Hin & E)];
    [done|].
  apply (iteration_order_elem_of _ _ _ _ Horder) in Hin. by exists id, err.
Qed.

(** C3: in whatever order a run meets the registry, [Validate] returns an
    error if and only if some registered factory is invalid; the text of
    the error is [type "id" is invalid: ] followed by the construction
    error of the factory registered under [id], so it holds the TypeID
    as [%q] quotes it (the TypeID itself where it is made of printable
    ASCII characters other than the double quote and the backslash) and
    the construction error. *)
Theorem Validate_error_iff_invalid container entries :
  iteration_order (TypeRegistry container) entries →
  (Validate_range entries ≠ Ret tt ↔
   ∃ id t, TypeRegistry container !! id = Some t ∧ IsValid t = false) ∧
  (Validate_range entries ≠ Ret tt →
   ∃ id err text,
     TypeRegistry container !! id = Some (InvalidT err) ∧
     Validate_range entries = Fail (errorString text) ∧
     text = "type " +:+ Quote id +:+ " is invalid: " +:+ Error err ∧
     Contains text (Quote id) = true ∧
     (plain id = true → Contains text id = true) ∧
     Contains text (Error err) = true).
Proof.
  intros Horder.
  destruct (Validate_range_cases entries) as [E|(id & err & Hin & E)].
  - split; [|done]. split; [done|].
    intros (id & t & Hid & Hv).
    apply (iteration_order_elem_of _ _ _ _ Horder) in Hid.
    apply Validate_range_Ret with (id := id) (t := t) in E; [|done].
    congruence.
  - apply (iteration_order_elem_of _ _ _ _ Horder) in Hin.
    split.
    + split; [|by rewrite E]. intros _. by exists id, (InvalidT err).
    + intros _. exists id, err. eexists. split; [done|]. split; [exact E|].
      split; [done|]. split; [apply (Contains_middle "type ")|]. split.
      * intros Hplain. unfold Quote. rewrite (quote_bytes_plain id Hplain).
        rewrite !string_app_assoc.
        apply (Contains_app_r "type "), (Contains_app_r dquote).
        apply Contains_here.
      * rewrite <- !string_app_assoc. apply Contains_end.
Qed.

Lemma iteration_order_two id1 id2 (t1 t2 : TypeFactory) :
  id1 ≠ id2 →
  iteration_order (Register id1 t1 (Register id2 t2 ∅)) [(id1, t1); (id2, t2)]
  ∧ iteration_order (Register id1 t1 (Register id2 t2 ∅))
      [(id2, t2); (id1, t1)].
Proof.
  intros Hne. unfold iteration_order, Register.
  assert (map_to_list (<[id1:=t1]> (<[id2:=t2]> (∅ : gmap string TypeFactory)))
          ≡ₚ [(id1, t1); (id2, t2)]) as H.
  { rewrite map_to_list_insert by (by rewrite lookup_insert_ne).
    by rewrite insert_empty, map_to_list_singleton. }
  split; [done|]. rewrite H. apply perm_swap.
Qed.

Lemma Validate_error_iff_invalid_witness :
  let bad := InvalidT (errorString "invalid number of return parameters: 0") in
  let container :=
    {| TypeRegistry := Register "bad" bad (Register "good" (AliasT "bad") ∅);
       Config := ∅ |} in
  Validate_range [("good", AliasT "bad"); ("bad", bad)] ≠ Ret tt.
Proof.
  intros bad container.
  apply (Validate_error_iff_invalid container
           [("good", AliasT "bad"); ("bad", bad)]).
  - apply (iteration_order_two "bad" "good"). discriminate.
  - exists "bad", bad. split; reflexivity.
Defined.

(** C9, as stated, fails: a registry with two invalid factories has two
    iteration orders on which [Validate] names different TypeIDs. *)
Lemma Validate_depends_on_iteration_order :
  let bad := InvalidT (errorString "invalid number of return parameters: 0") in
  let container :=
    {| TypeRegistry := Register "a" bad (Register "b" bad ∅); Config := ∅ |} in
  Validate container
    (Fail (errorString
       ("type " +:+ Quote "a" +:+
        " is invalid: invalid number of return parameters: 0"))) ∧
  Validate container
    (Fail (errorString
       ("type " +:+ Quote "b" +:+
        " is invalid: invalid number of return parameters: 0"))) ∧
  ¬ (∀ r1 r2, Validate container r1 → Validate container r2 → r1 = r2).
Proof.
  intros bad container.
  destruct (iteration_order_two "a" "b" bad bad) as [Hab Hba]; [done|].
  assert (Validate container
            (Fail (errorString
               ("type " +:+ Quote "a" +:+
                " is invalid: invalid number of return parameters: 0"))))
    as Ha by (by exists [("a", bad); ("b", bad)]).
  assert (Validate container
            (Fail (errorString
               ("type " +:+ Quote "b" +:+
                " is invalid: invalid number of return parameters: 0"))))
    as Hb by (by exists [("b", bad); ("a", bad)]).
  split; [done|]. split; [done|].
  intros H. specialize (H _ _ Ha Hb). discriminate.
Qed.

(** C9 (amended): two runs of [Validate] on one registry agree on whether
    an error is returned; the error of a run names a TypeID that is
    registered with an invalid factory, and embeds the construction error
    of that factory; and where the registry has no two invalid factories,
    the two runs return the same result. *)
Theorem Validate_runs_agree container r1 r2 :
  Validate container r1 → Validate container r2 →
  (r1 = Ret tt ↔ r2 = Ret tt) ∧
  (∀ r, r = r1 ∨ r = r2 → r ≠ Ret tt →
     ∃ id err, TypeRegistry container !! id = Some (InvalidT err) ∧
               r = Fail (errorString
                     ("type " +:+ Quote id +:+ " is invalid: " +:+
                      Error err))) ∧
  ((∀ id id' err err',
      TypeRegistry container !! id = Some (InvalidT err) →
      TypeRegistry container !! id' = Some (InvalidT err') → id = id') →
   r1 = r2).
Proof.
  intros (e1 & Ho1 & <-) (e2 & Ho2 & <-).
  assert (∀ entries, iteration_order (TypeRegistry container) entries →
            Validate_range entries ≠ Ret tt →
            ∃ id err, TypeRegistry container !! id = Some (InvalidT err) ∧
                      Validate_range entries
                      = Fail (errorString
                          ("type " +:+ Quote id +:+ " is invalid: " +:+
                           Error err))) as Hnames.
  { intros entries Ho Hne. by apply Validate_range_error. }
  assert (∀ ea eb, iteration_order (TypeRegistry container) ea →
            iteration_order (TypeRegistry container) eb →
            Validate_range ea = Ret tt → Validate_range eb = Ret tt) as Hnil.
  { intros ea eb Ha Hb E. apply Validate_range_Ret. intros id t Hin.
    apply (iteration_order_elem_of _ _ _ _ Hb) in Hin.
    apply (iteration_order_elem_of _ _ _ _ Ha) in Hin.
    by apply (proj1 (Validate_range_Ret ea) E id t). }
  split; [split; eauto|]. split.
  - intros r [->| ->] Hne; eauto.
  - intros Huniq.
    destruct (Validate_range_cases e1) as [E1|(id1 & err1 & Hin1 & E1)].
    { by rewrite E1, (Hnil e1 e2). }
    destruct (Validate_range_cases e2) as [E2|(id2 & err2 & Hin2 & E2)].
    { by rewrite E2, (Hnil e2 e1). }
    apply (iteration_order_elem_of _ _ _ _ Ho1) in Hin1.
    apply (iteration_order_elem_of _ _ _ _ Ho2) in Hin2.
    assert (id1 = id2) as -> by eauto.
    rewrite E1, E2. congruence.
Qed.

Lemma Validate_runs_agree_witness :
  let bad := InvalidT (errorString "invalid number of return parameters: 0") in
  let container :=
    {| TypeRegistry := Register "bad" bad (Register "good" (AliasT "bad") ∅);
       Config := ∅ |} in
  (Validate_range [("bad", bad); ("good", AliasT "bad")] = Ret tt ↔
   Validate_range [("good", AliasT "bad"); ("bad", bad)] = Ret tt).
Proof.
  intros bad container.
  destruct (iteration_order_two "bad" "good" bad (AliasT "bad"))
    as [H1 H2]; [discriminate|].
  apply (Validate_runs_agree container).
  - exists [("bad", bad); ("good", AliasT "bad")]. split; [exact H1|reflexivity].
  - exists [("good", AliasT "bad"); ("bad", bad)]. split; [exact H2|reflexivity].
Defined.

(** ** Generation *)

Section Generation.

Context (rt : Runtime) (t : typeFactory) (resolver : ParameterResolver)
        (ps : list GoType) (va : option GoType) (rs : list GoType).
Hypothesis Ht : underlying (factoryType t) = TFunc ps va rs.

Lemma In_parameters i ty :
  parameters ps va !! i = Some ty → In (factoryType t) i = Ret ty.
Proof using Ht.
  unfold parameters. intros Hi.
  destruct (decide (i < length ps)) as [Hlt|Hge].
  - rewrite lookup_app_l in Hi by done. by eapply In_fixed.
  - rewrite lookup_app_r in Hi by lia.
    destruct va as [e|] eqn:Hva; [|done].
    destruct (i - length ps) as [|n] eqn:Hn; [|done].
    injection Hi as <-. assert (i = length ps) as -> by lia.
    by eapply In_variadic.
Qed.

Lemma length_parameters :
  length (parameters ps va)
  = match va with Some _ => S (length ps) | None => length ps end.
Proof using Type.
  clear Ht. unfold parameters. rewrite length_app. destruct va; simpl; lia.
Qed.

Lemma invalidReferencedTypeErr_text typeID typeInstance i :
  invalidReferencedTypeErr t typeID typeInstance i
  = Ret (errorString
      (invalidReferencedType_text (factory t) (parameters ps va)
         typeID typeInstance i)).
Proof using Ht.
  unfold invalidReferencedTypeErr.
  rewrite (NumIn_func _ ps va rs Ht). simpl.
  rewrite <- length_parameters.
  set (n := length (parameters ps va)).
  set (f := λ i (_ : nat), arg ← In (factoryType t) i;
                            Ret (Type_String arg)).
  rewrite (range_ext _ (λ i x a, v ← f i x; Ret (<[i := v]> a))).
  2: { intros j x a. unfold f. by destruct (In (factoryType t) j). }
  replace (replicate n EmptyString)
    with (replicate (length (seq 0 n)) EmptyString)
    by (by rewrite length_seq).
  rewrite (range_fill_replicate f).
  rewrite (imapM_Ret f _ 0 (map Type_String (parameters ps va))).
  - done.
  - by rewrite length_map, length_seq.
  - intros k x v _ Hv. unfold f. simpl. rewrite list_lookup_fmap in Hv.
    destruct (parameters ps va !! k) as [ty|] eqn:Hty; [|done].
    injection Hv as <-. by rewrite (In_parameters k ty).
Qed.

Lemma resolved_TypeReferenceError i typeID typeInstance text :
  resolved t i (Fail (TypeReferenceError typeID typeInstance text))
  = Fail (errorString
      (invalidReferencedType_text (factory t) (parameters ps va)
         typeID typeInstance i)).
Proof using Ht. simpl. by rewrite invalidReferencedTypeErr_text. Qed.

Lemma generateFactoryArguments_fixed :
  va = None →
  generateFactoryArguments rt t resolver
  = imapM (resolve_for t resolver (In (factoryType t))) 0
      (factoryArguments t).
Proof using Ht.
  intros Hva. unfold generateFactoryArguments.
  rewrite (IsVariadic_func _ ps va rs Ht). rewrite Hva. simpl.
  rewrite <- range_fill_replicate with (z := VNil).
  apply range_ext. intros i a args. unfold resolve_for.
  by destruct (In (factoryType t) i).
Qed.

Lemma generateFactoryArguments_variadic e :
  va = Some e →
  length ps ≤ length (factoryArguments t) →
  generateFactoryArguments rt t resolver
  = (fixed ← imapM (resolve_for t resolver (In (factoryType t))) 0
               (take (length ps) (factoryArguments t));
     tail ← imapM (store_for rt t resolver e) 0
              (drop (length ps) (factoryArguments t));
     Ret (fixed ++ [VSlice e tail])).
Proof using Ht.
  intros Hva Hlen. unfold generateFactoryArguments.
  rewrite (IsVariadic_func _ ps va rs Ht). rewrite Hva. simpl.
  unfold generateVariadicFactoryArguments.
  rewrite (NumIn_func _ ps va rs Ht). rewrite Hva. simpl.
  rewrite Nat.sub_0_r. unfold slice_to, slice_from.
  rewrite !decide_True by done. simpl.
  rewrite (range_ext _
    (λ i x a, v ← resolve_for t resolver (In (factoryType t)) i x;
              Ret (<[i := v]> a))).
  2: { intros j x a. unfold resolve_for.
       by destruct (In (factoryType t) j). }
  pose proof (range_fill (resolve_for t resolver (In (factoryType t)))
                (take (length ps) (factoryArguments t)) 0 []
                (VNil :: replicate (length ps) VNil)) as Hfill.
  simpl in Hfill. rewrite Hfill; clear Hfill;
    [|done|rewrite length_take, length_replicate; lia].
  destruct (imapM _ 0 (take _ _)) as [fixed| |] eqn:Efixed; simpl;
    [|done..].
  apply imapM_length in Efixed. rewrite length_take in Efixed.
  rewrite (In_variadic _ ps va rs Ht e Hva). simpl.
  replace (length (factoryArguments t) + 1 - S (length ps))
    with (length (drop (length ps) (factoryArguments t)))
    by (rewrite length_drop; lia).
  rewrite (range_ext _
    (λ i x a, v ← store_for rt t resolver e i x; Ret (<[i := v]> a))).
  2: { intros j x a. unfold store_for, resolve_for. simpl.
       by destruct (resolved t j (Resolve resolver x e)). }
  unfold MakeSlice. rewrite range_fill_replicate.
  destruct (imapM _ 0 (drop _ _)) as [tail| |]; simpl; [|done..].
  f_equal.
  replace (length (take (length ps) (factoryArguments t)))
    with (length ps) by (rewrite length_take; lia).
  change (VNil :: replicate (length ps) VNil)
    with (replicate (S (length ps)) VNil).
  rewrite drop_replicate.
  replace (S (length ps) - length ps) with 1 by lia. simpl.
  rewrite insert_app_r_alt by lia.
  replace (length ps - length fixed) with 0 by lia. done.
Qed.

End Generation.

Lemma Value_Set_assignable rt T x :
  assignable rt x T → Value_Set rt T x = Ret x.
Proof. intros (V & HV & Hassign). unfold Value_Set. by rewrite HV, Hassign. Qed.

Lemma Value_Set_not_assignable rt T x :
  ¬ assignable rt x T → ∃ reason, Value_Set rt T x = Panic reason.
Proof.
  intros Hnot. unfold Value_Set. destruct (TypeOf x) as [V|] eqn:HV.
  - destruct (AssignableTo rt V T) eqn:Hassign; [|by eexists].
    destruct Hnot. by exists V.
  - by eexists.
Qed.

Lemma store_for_Ret rt t resolver e i a v :
  Resolve resolver a e = Ret v → assignable rt v e →
  store_for rt t resolver e i a = Ret v.
Proof.
  intros Hv Hassign. unfold store_for, resolve_for. simpl. rewrite Hv. simpl.
  by apply Value_Set_assignable.
Qed.

(** C4: for a variadic factory with the fixed parameters [fixed] and the
    variadic element type [e], whose raw arguments are [fixedArgs]
    followed by [tailArgs], with as many [fixedArgs] as fixed parameters:
    where each fixed raw argument resolves against the parameter at its
    position and each trailing one against [e], to a value that is
    assignable to [e], [Generate] calls the constructor with the
    resolved fixed arguments at their positions, followed by one slice
    value that holds the resolved trailing arguments in their declared
    order. *)
Theorem Generate_packs_variadic_tail rt t resolver fixed e rs
    fixedArgs tailArgs fixedVals tailVals :
  underlying (factoryType t) = TFunc fixed (Some e) rs →
  factoryArguments t = fixedArgs ++ tailArgs →
  Forall3 (λ a ty v, Resolve resolver a ty = Ret v) fixedArgs fixed fixedVals →
  Forall2 (λ a v, Resolve resolver a e = Ret v) tailArgs tailVals →
  Forall (λ v, assignable rt v e) tailVals →
  generateFactoryArguments rt t resolver
  = Ret (fixedVals ++ [VSlice e tailVals]) ∧
  length fixedVals = length fixed ∧
  typeFactory_Generate rt t resolver
  = (result ← CallSlice rt (factory t) (fixedVals ++ [VSlice e tailVals]);
     match result with
     | [] => Panic "no return parameter found. this should never ever happen"
     | r :: _ => Ret r
     end).
Proof.
  intros Ht Hargs Hfixed Htail Hassign.
  pose proof (Forall3_length_lm _ _ _ _ Hfixed) as Hlen1.
  pose proof (Forall3_length_lr _ _ _ _ Hfixed) as Hlen2.
  assert (generateFactoryArguments rt t resolver
          = Ret (fixedVals ++ [VSlice e tailVals])) as Hgen.
  { assert (length fixed ≤ length (factoryArguments t)) as Hle
      by (rewrite Hargs, length_app; lia).
    rewrite (generateFactoryArguments_variadic rt t resolver fixed (Some e) rs
               Ht e eq_refl Hle).
    rewrite Hargs, <- Hlen1, take_app_length, drop_app_length.
    rewrite (imapM_Ret (resolve_for t resolver (In (factoryType t)))
               fixedArgs 0 fixedVals).
    - simpl.
      rewrite (imapM_Ret (store_for rt t resolver e)
                 tailArgs 0 tailVals); [done| |].
      + symmetry. by eapply Forall2_length.
      + intros k a v Ha Hv. apply store_for_Ret.
        * by rewrite (Forall2_lookup_lr _ _ _ _ _ _ Htail Ha Hv).
        * by apply (Forall_lookup_1 _ _ _ _ Hassign Hv).
    - lia.
    - intros k a v Ha Hv. unfold resolve_for. simpl.
      destruct (lookup_lt_is_Some_2 fixed k) as [ty Hty].
      { apply lookup_lt_Some in Ha. lia. }
      rewrite (In_fixed _ fixed (Some e) rs Ht k ty Hty). simpl.
      by rewrite (Forall3_lookup_lmr _ _ _ _ _ _ _ _ Hfixed Ha Hty Hv). }
  split; [done|]. split; [lia|].
  unfold typeFactory_Generate. rewrite Hgen. simpl.
  by rewrite (IsVariadic_func _ fixed (Some e) rs Ht).
Qed.

Lemma Generate_packs_variadic_tail_witness :
  generateFactoryArguments tests_runtime
    {| factory := NewVariadicMockType;
       factoryType := TFunc [TBasic Basic.String] (Some (TBasic Basic.Int))
                        [TPtr MockType];
       factoryArguments := [VString "a"; VInt 1; VInt 2; VInt 3] |}
    (test_resolver ∅)
  = Ret [VString "a"; VSlice (TBasic Basic.Int) [VInt 1; VInt 2; VInt 3]].
Proof.
  apply (Generate_packs_variadic_tail tests_runtime _ (test_resolver ∅)
           [TBasic Basic.String] (TBasic Basic.Int) [TPtr MockType]
           [VString "a"] [VInt 1; VInt 2; VInt 3]
           [VString "a"] [VInt 1; VInt 2; VInt 3]).
  - reflexivity.
  - reflexivity.
  - repeat constructor.
  - repeat constructor.
  - repeat (constructor; [by exists (TBasic Basic.Int)|]). constructor.
Defined.

(** C8, as stated, fails: the error for an argument that refers to a
    missing type does not name the TypeID under which the producing
    factory is registered. *)
Lemma Generate_error_omits_producing_TypeID :
  ∃ t text,
    NewType NewTypeForServiceInjection [VString "@missing"] = Ret t ∧
    Get tests_runtime 3
      {| TypeRegistry := Register "producer" t ∅; Config := ∅ |} "producer"
    = Fail (errorString text) ∧
    text = invalidReferencedType_text NewTypeForServiceInjection
             [TPtr MockType] "missing" VNil 0 ∧
    Contains text "tests.NewTypeForServiceInjection(*tests.MockType)" = true ∧
    Contains text "producer" = false.
Proof.
  exists (FuncT {| factory := NewTypeForServiceInjection;
                   factoryType := TFunc [TPtr MockType] None
                     [TPtr (TNamed "tests.TypeForServiceInjection"
                              (TStruct [("InjectedType", TPtr MockType)]))];
                   factoryArguments := [VString "@missing"] |}).
  exists (invalidReferencedType_text NewTypeForServiceInjection
            [TPtr MockType] "missing" VNil 0).
  split; [reflexivity|]. split; [by vm_compute|].
  split; [reflexivity|]. split; by vm_compute.
Qed.

(** C8 (amended): where the resolution of the raw argument at a fixed
    position [k] (counted from zero) of a function factory fails with a
    [TypeReferenceError], the arguments before it resolving, [Generate]
    fails with the error whose text names the referenced TypeID, the type
    of the instance obtained, the position [k + 1], and the constructor by
    its name and parameter types.  The text carries no TypeID of the
    producing factory. *)
Theorem Generate_TypeReferenceError rt t resolver ps va rs k a expected
    typeID typeInstance text :
  underlying (factoryType t) = TFunc ps va rs →
  length ps ≤ length (factoryArguments t) →
  factoryArguments t !! k = Some a →
  ps !! k = Some expected →
  (∀ j b ty, j < k → factoryArguments t !! j = Some b → ps !! j = Some ty →
             ∃ v, Resolve resolver b ty = Ret v) →
  Resolve resolver a expected
  = Fail (TypeReferenceError typeID typeInstance text) →
  typeFactory_Generate rt t resolver
  = Fail (errorString
      ("the referenced type " +:+ dquote +:+ "@" +:+ typeID +:+ dquote +:+
       " (type " +:+ fmt_T typeInstance +:+
       ") can not be passed as argument " +:+ fmt_d (k + 1) +:+
       " to the function signature " +:+
       after_last_slash (FuncName (factory t)) +:+ "(" +:+
       Join (map Type_String (parameters ps va)) ", " +:+ ")")).
Proof.
  intros Ht Hlen Ha Hexp Hbefore Hfail.
  pose proof (lookup_lt_Some _ _ _ Hexp) as Hk.
  assert (∀ (expect : nat → Res GoType) l,
            (∀ j, j < length ps → expect j = In (factoryType t) j) →
            (∀ j, j ≤ k → l !! j = factoryArguments t !! j) →
            imapM (resolve_for t resolver expect) 0 l
            = Fail (errorString
                (invalidReferencedType_text (factory t) (parameters ps va)
                   typeID typeInstance k))) as Hloop.
  { intros expect l Hexpect Hl.
    apply imapM_Fail with (k := k) (x := a).
    - by rewrite Hl.
    - intros j b Hj Hb. rewrite Hl in Hb by lia.
      destruct (lookup_lt_is_Some_2 ps j) as [ty Hty]; [lia|].
      destruct (Hbefore j b ty Hj Hb Hty) as [v Hv]. exists v.
      simpl. unfold resolve_for. rewrite Hexpect by lia.
      rewrite (In_fixed _ ps va rs Ht j ty Hty). simpl. by rewrite Hv.
    - simpl. unfold resolve_for. rewrite Hexpect by done.
      rewrite (In_fixed _ ps va rs Ht k expected Hexp). simpl.
      rewrite Hfail. by apply resolved_TypeReferenceError with (rs := rs). }
  unfold typeFactory_Generate.
  destruct va as [e|] eqn:Hva.
  - rewrite (generateFactoryArguments_variadic rt t resolver ps (Some e) rs
               Ht e) by done.
    rewrite (Hloop (In (factoryType t))
               (take (length ps) (factoryArguments t))); [reflexivity|done|].
    intros j Hj. rewrite lookup_take_lt by lia. done.
  - rewrite (generateFactoryArguments_fixed rt t resolver ps None rs Ht)
      by done.
    rewrite Hloop; [reflexivity|done..].
Qed.

Lemma Generate_TypeReferenceError_witness :
  let t := {| factory := NewTypeForServiceInjection;
              factoryType := TFunc [TPtr MockType] None
                [TPtr (TNamed "tests.TypeForServiceInjection"
                         (TStruct [("InjectedType", TPtr MockType)]))];
              factoryArguments := [VString "@missing"] |} in
  typeFactory_Generate tests_runtime t (test_resolver ∅)
  = Fail (errorString
      (invalidReferencedType_text NewTypeForServiceInjection
         [TPtr MockType] "missing" VNil 0)).
Proof.
  intros t.
  exact (Generate_TypeReferenceError tests_runtime t (test_resolver ∅)
           [TPtr MockType] None
           [TPtr (TNamed "tests.TypeForServiceInjection"
                    (TStruct [("InjectedType", TPtr MockType)]))]
           0 (VString "@missing") (TPtr MockType) "missing" VNil
           ("the type " +:+ Quote "missing" +:+ " has not been defined")
           eq_refl (le_n 1) eq_refl eq_refl
           (λ j b ty Hj, match Nat.nlt_0_r j Hj with end)
           eq_refl).
Defined.

(** In the variadic tail the loop counts from the start of the tail: the
    second raw argument of the factory below is reported as argument 1. *)
Lemma Generate_variadic_tail_position :
  ∃ t text,
    NewType NewVariadicTypeForServiceInjection
      [VString "x"; VString "@missing"] = Ret (FuncT t) ∧
    typeFactory_Generate tests_runtime t (test_resolver ∅)
    = Fail (errorString text) ∧
    Contains text "as argument 1 to" = true.
Proof.
  exists {| factory := NewVariadicTypeForServiceInjection;
            factoryType := TFunc [TBasic Basic.String] (Some (TPtr MockType))
              [TPtr (TNamed "tests.TypeForServiceInjection"
                       (TStruct [("InjectedType", TPtr MockType)]))];
            factoryArguments := [VString "x"; VString "@missing"] |}.
  exists (invalidReferencedType_text NewVariadicTypeForServiceInjection
            [TBasic Basic.String; TSlice (TPtr MockType)] "missing" VNil 0).
  split; [reflexivity|]. split; by vm_compute.
Qed.

(** ** The alias of a member *)

Lemma MethodByName_bound rt instance member callable :
  MethodByName rt instance member = Some callable →
  ∃ ps va rs, callable = VMethod instance member ps va rs.
Proof.
  unfold MethodByName. destruct (TypeOf instance) as [ty|]; simpl; [|done].
  destruct (Methods rt ty member) as [[[ps va] rs]|]; simpl; [|done].
  intros [= <-]. by exists ps, va, rs.
Qed.

(** C6: where the id of an alias has the member suffix [::member], the
    container holds the instance [instance] under the id before the
    suffix and the instance has the method [member], [Generate] of the
    alias returns the method value bound to [instance], a callable that
    is not the instance; and where that method concatenates the state of
    the instance, a blank and its argument, the callable invoked with
    [TEST] returns the state followed by [ TEST]. *)
Theorem Alias_member_is_bound_callable rt resolver typeID id member
    instance callable state :
  split_member typeID = Some (id, member) →
  Container_Get resolver id = Ret instance →
  MethodByName rt instance member = Some callable →
  (∀ suffix, Call rt callable [VString suffix]
             = Ret [VString (state +:+ " " +:+ suffix)]) →
  Generate rt (NewAliasType typeID) resolver = Ret callable ∧
  (∃ ps va rs, callable = VMethod instance member ps va rs) ∧
  callable ≠ instance ∧
  Value_Kind callable = Kind.Func ∧
  Call rt callable [VString "TEST"] = Ret [VString (state +:+ " TEST")].
Proof.
  intros Hsplit Hget Hmethod Hcall.
  destruct (MethodByName_bound _ _ _ _ Hmethod) as (ps & va & rs & ->).
  split.
  - simpl. unfold aliasType_Generate. rewrite Hsplit, Hget. simpl.
    by rewrite Hmethod.
  - split; [by exists ps, va, rs|]. split; [|split; [done|apply Hcall]].
    intros E. apply (f_equal bound_depth) in E. simpl in E. lia.
Qed.

Lemma Alias_member_is_bound_callable_witness :
  ∃ foo instance callable,
    NewStructType MockType_zero [VString "I was created by @foo"] = Ret foo ∧
    Get tests_runtime 2
      {| TypeRegistry := Register "foo" foo ∅; Config := ∅ |} "foo"
    = Ret instance ∧
    Generate tests_runtime (NewAliasType "foo::ReturnString")
      (test_resolver (Register "foo" foo ∅)) = Ret callable ∧
    Call tests_runtime callable [VString "TEST"]
    = Ret [VString ("I was created by @foo" +:+ " TEST")].
Proof.
  set (foo := FuncT {| factory := structConstructor "tests.MockType"
                                    MockType_fields;
                       factoryType := TFunc [TBasic Basic.String] None
                                        [TPtr MockType];
                       factoryArguments := [VString "I was created by @foo"] |}).
  set (instance := allocate "tests.MockType" MockType_fields
                     [VString "I was created by @foo"]).
  set (callable := VMethod instance "ReturnString" [TBasic Basic.String] None
                     [TBasic Basic.String]).
  exists foo, instance, callable.
  assert (Get tests_runtime 2
            {| TypeRegistry := Register "foo" foo ∅; Config := ∅ |} "foo"
          = Ret instance) as Hget by (by vm_compute).
  split; [reflexivity|]. split; [exact Hget|].
  destruct (Alias_member_is_bound_callable tests_runtime
              (test_resolver (Register "foo" foo ∅))
              "foo::ReturnString" "foo" "ReturnString" instance callable
              "I was created by @foo" eq_refl Hget eq_refl
              (λ suffix, eq_refl)) as (Hgen & _ & _ & _ & Hcall).
  split; [exact Hgen|exact Hcall].
Defined.

(** * Further properties of the type factory *)

(** What a valid factory made by [NewType] is. *)
Lemma NewType_FuncT_inv f l t :
  NewType f l = Ret (FuncT t) →
  ∃ ft ps va r,
    TypeOf f = Some ft ∧ underlying ft = TFunc ps va [r] ∧
    (Kind_of r = Kind.Interface ∨ Kind_of r = Kind.Ptr) ∧
    arity_ok ps va (length l) ∧
    t = {| factory := f; factoryType := ft; factoryArguments := l |}.
Proof.
  intros E. destruct (TypeOf f) as [ft|] eqn:Hf.
  2: { unfold NewType in E. by rewrite Hf in E. }
  destruct (decide (Kind_of ft = Kind.Func)) as [Hk|Hk].
  2: { by rewrite (NewType_not_func f ft l Hf Hk) in E. }
  destruct (Kind_of_Func_inv ft Hk) as (ps & va & rs & Hft).
  destruct (decide (length rs = 1)) as [Hrs|Hrs].
  2: { by rewrite (NewType_NumOut f ft ps va rs l Hf Hft Hrs) in E. }
  destruct rs as [|r [|]]; try done. clear Hrs.
  destruct (decide (Kind_of r = Kind.Interface ∨ Kind_of r = Kind.Ptr))
    as [Hr|Hr].
  2: { rewrite (NewType_return_kind f ft ps va [r] l Hf Hft r) in E;
         [done|done|naive_solver..]. }
  destruct (arity_ok_dec ps va (length l)) as [Harity|Harity].
  - exists ft, ps, va, r. repeat (split; [done|]).
    rewrite (NewType_checked f ft ps va r l) in E by done.
    destruct (imapM (checked ps va) 0 l) as [args| |] eqn:Ec; try done.
    apply checked_Ret in Ec as ->. by injection E as <-.
  - rewrite (NewType_passes_return f ft ps va [r] l Hf Hft r) in E by done.
    unfold arity_ok in Harity. destruct va as [e|]; simpl in E.
    + by rewrite bool_decide_true in E by lia.
    + by rewrite bool_decide_true in E by done.
Qed.

(** X1: a valid factory gives back, through [Arguments], the raw
    arguments [NewType] was given, in their order, provided none of them
    is the nil interface value. *)
Theorem NewType_Arguments_round_trip f l t :
  NewType f l = Ret (FuncT t) →
  (∀ a, a ∈ l → a ≠ VNil) →
  Arguments (FuncT t) = Ret l.
Proof.
  intros (ft & ps & va & r & _ & _ & _ & _ & ->)%NewType_FuncT_inv Hnil.
  simpl. by rewrite typeFactory_Arguments_not_nil.
Qed.

Lemma NewType_Arguments_round_trip_witness :
  Arguments (FuncT {| factory := NewMockTypeWithArgs;
                      factoryType := TFunc [TBasic Basic.String;
                                            TBasic Basic.Bool] None
                                       [TPtr MockType];
                      factoryArguments := [VString "%name%"; VBool true] |})
  = Ret [VString "%name%"; VBool true].
Proof.
  apply (NewType_Arguments_round_trip NewMockTypeWithArgs
           [VString "%name%"; VBool true]).
  - reflexivity.
  - intros a Ha.
    apply elem_of_cons in Ha as [->|Ha]; [discriminate|].
    apply elem_of_cons in Ha as [->|Ha]; [discriminate|].
    by apply elem_of_nil in Ha.
Defined.

(** X2: for a function that is not variadic, where each raw argument
    resolves against the parameter at its position, [Generate] calls the
    constructor once, with the resolved values in the order of the raw
    arguments, and returns the first result of the call. *)
Theorem Generate_calls_constructor rt t resolver ps rs vals :
  underlying (factoryType t) = TFunc ps None rs →
  Forall3 (λ a ty v, Resolve resolver a ty = Ret v)
    (factoryArguments t) ps vals →
  generateFactoryArguments rt t resolver = Ret vals ∧
  typeFactory_Generate rt t resolver
  = (result ← Call rt (factory t) vals;
     match result with
     | [] => Panic "no return parameter found. this should never ever happen"
     | r :: _ => Ret r
     end).
Proof.
  intros Ht Hres.
  assert (generateFactoryArguments rt t resolver = Ret vals) as Hgen.
  { rewrite (generateFactoryArguments_fixed rt t resolver ps None rs Ht eq_refl).
    apply imapM_Ret.
    - symmetry. by eapply Forall3_length_lr.
    - intros k a v Ha Hv. unfold resolve_for. simpl.
      destruct (lookup_lt_is_Some_2 ps k) as [ty Hty].
      { rewrite <- (Forall3_length_lm _ _ _ _ Hres).
        by eapply lookup_lt_Some. }
      rewrite (In_fixed _ ps None rs Ht k ty Hty). simpl.
      by rewrite (Forall3_lookup_lmr _ _ _ _ _ _ _ _ Hres Ha Hty Hv). }
  split; [done|]. unfold typeFactory_Generate. rewrite Hgen. simpl.
  by rewrite (IsVariadic_func _ ps None rs Ht).
Qed.

Lemma Generate_calls_constructor_witness :
  typeFactory_Generate tests_runtime
    {| factory := structConstructor "tests.MockType" MockType_fields;
       factoryType := TFunc [TBasic Basic.String] None [TPtr MockType];
       factoryArguments := [VString "state"] |}
    (test_resolver ∅)
  = (result ← Call tests_runtime
                 (structConstructor "tests.MockType" MockType_fields)
                 [VString "state"];
     match result with
     | [] => Panic "no return parameter found. this should never ever happen"
     | r :: _ => Ret r
     end).
Proof.
  apply (Generate_calls_constructor tests_runtime
           {| factory := structConstructor "tests.MockType" MockType_fields;
              factoryType := TFunc [TBasic Basic.String] None [TPtr MockType];
              factoryArguments := [VString "state"] |}
           (test_resolver ∅)
           [TBasic Basic.String] [TPtr MockType] [VString "state"]
           eq_refl).
  repeat constructor.
Defined.

Lemma imapM_Ret_exists {A B : Type} (f : nat → A → Res B) l :
  ∀ i, (∀ j x, l !! j = Some x → ∃ v, f (i + j) x = Ret v) →
       ∃ vs, imapM f i l = Ret vs.
Proof.
  induction l as [|x l IH]; intros i Hf; simpl; [by eexists|].
  destruct (Hf 0 x) as [v Hv]; [done|]. rewrite Nat.add_0_r in Hv.
  destruct (IH (S i)) as [vs Hvs].
  { intros j y Hy. rewrite Nat.add_succ_comm. by apply Hf. }
  exists (v :: vs). by rewrite Hv; simpl; rewrite Hvs.
Qed.

(** What [Generate] turns the error of a failed resolution into: a
    [TypeReferenceError] becomes the error of [invalidReferencedTypeErr]
    for the index [i] of the loop, any other error is passed on. *)
Lemma resolved_Fail t ps va rs i err :
  underlying (factoryType t) = TFunc ps va rs →
  resolved t i (Fail err)
  = Fail (match err with
          | TypeReferenceError typeID typeInstance _ =>
              errorString
                (invalidReferencedType_text (factory t) (parameters ps va)
                   typeID typeInstance i)
          | _ => err
          end).
Proof.
  intros Ht. destruct err as [text|typeID typeInstance text]; [done|].
  by apply resolved_TypeReferenceError with (rs := rs).
Qed.

(** The first raw argument whose resolution fails decides the outcome of
    [generateFactoryArguments]; the loop index that goes into the error
    counts from the start of the variadic tail for an argument of the
    tail. *)
Lemma generateFactoryArguments_first_failure rt t resolver ps va rs k a
    expected err :
  underlying (factoryType t) = TFunc ps va rs →
  length ps ≤ length (factoryArguments t) →
  factoryArguments t !! k = Some a →
  expectedArgumentType ps va k = Some expected →
  (∀ j b ty, j < k → factoryArguments t !! j = Some b →
             expectedArgumentType ps va j = Some ty →
             ∃ v, Resolve resolver b ty = Ret v ∧
                  (length ps ≤ j → assignable rt v ty)) →
  Resolve resolver a expected = Fail err →
  generateFactoryArguments rt t resolver
  = Fail (match err with
          | TypeReferenceError typeID typeInstance _ =>
              errorString
                (invalidReferencedType_text (factory t) (parameters ps va)
                   typeID typeInstance
                   (if decide (k < length ps) then k else k - length ps))
          | _ => err
          end).
Proof.
  intros Ht Hlen Ha Hexp Hbefore Hfail.
  assert (∀ j ty, ps !! j = Some ty →
            expectedArgumentType ps va j = Some ty) as Hfixed_ty.
  { intros j ty Hj. unfold expectedArgumentType. by rewrite Hj. }
  (* the loop over the fixed arguments fails at [k] if [k] is one *)
  assert (k < length ps →
          ∀ l, (∀ j, j ≤ k → l !! j = factoryArguments t !! j) →
            imapM (resolve_for t resolver (In (factoryType t))) 0 l
            = Fail (match err with
                    | TypeReferenceError typeID typeInstance _ =>
                        errorString
                          (invalidReferencedType_text (factory t)
                             (parameters ps va) typeID typeInstance k)
                    | _ => err
                    end)) as Hloop.
  { intros Hk l Hl.
    destruct (lookup_lt_is_Some_2 ps k Hk) as [ty Hty].
    rewrite (Hfixed_ty k ty Hty) in Hexp. injection Hexp as ->.
    apply imapM_Fail with (k := k) (x := a).
    - by rewrite Hl.
    - intros j b Hj Hb. rewrite Hl in Hb by lia.
      destruct (lookup_lt_is_Some_2 ps j) as [tyj Htyj]; [lia|].
      destruct (Hbefore j b tyj Hj Hb (Hfixed_ty j tyj Htyj)) as (v & Hv & _).
      exists v. simpl. unfold resolve_for.
      rewrite (In_fixed _ ps va rs Ht j tyj Htyj). simpl. by rewrite Hv.
    - simpl. unfold resolve_for.
      rewrite (In_fixed _ ps va rs Ht k expected Hty). simpl.
      rewrite Hfail. by apply resolved_Fail with (rs := rs). }
  destruct va as [e|] eqn:Hva.
  - rewrite (generateFactoryArguments_variadic rt t resolver ps (Some e) rs
               Ht e eq_refl Hlen).
    destruct (decide (k < length ps)) as [Hk|Hk].
    + rewrite (Hloop Hk (take (length ps) (factoryArguments t)));
        [done|].
      intros j Hj. by rewrite lookup_take_lt by lia.
    + destruct (imapM_Ret_exists
                  (resolve_for t resolver (In (factoryType t)))
                  (take (length ps) (factoryArguments t)) 0) as [vs ->].
      { intros j b Hb. simpl. unfold resolve_for.
        pose proof (lookup_lt_Some _ _ _ Hb) as Hj.
        rewrite length_take in Hj.
        rewrite lookup_take_lt in Hb by lia.
        destruct (lookup_lt_is_Some_2 ps j) as [tyj Htyj]; [lia|].
        destruct (Hbefore j b tyj) as (v & Hv & _);
          [lia|done|by apply Hfixed_ty|].
        exists v. rewrite (In_fixed _ ps (Some e) rs Ht j tyj Htyj). simpl.
        by rewrite Hv. }
      simpl.
      assert (∀ j, expectedArgumentType ps (Some e) (length ps + j) = Some e)
        as Htail_ty.
      { intros j. unfold expectedArgumentType.
        by rewrite lookup_ge_None_2 by lia. }
      assert (expected = e) as ->.
      { replace k with (length ps + (k - length ps)) in Hexp by lia.
        rewrite Htail_ty in Hexp. by injection Hexp. }
      rewrite (imapM_Fail (store_for rt t resolver e)
                 (drop (length ps) (factoryArguments t)) 0
                 (k - length ps) a
                 (match err with
                  | TypeReferenceError typeID typeInstance _ =>
                      errorString
                        (invalidReferencedType_text (factory t)
                           (parameters ps (Some e)) typeID typeInstance
                           (k - length ps))
                  | _ => err
                  end)); [done| | |].
      * rewrite lookup_drop. by replace (length ps + (k - length ps)) with k
          by lia.
      * intros j b Hj Hb. rewrite lookup_drop in Hb.
        destruct (Hbefore (length ps + j) b e) as (v & Hv & Hassign);
          [lia|done|apply Htail_ty|].
        exists v. simpl. apply store_for_Ret; [done|]. apply Hassign. lia.
      * simpl. unfold store_for, resolve_for. simpl. rewrite Hfail.
        by rewrite (resolved_Fail t ps (Some e) rs _ err Ht).
  - assert (k < length ps) as Hk.
    { unfold expectedArgumentType in Hexp.
      destruct (ps !! k) eqn:E; [|done]. by eapply lookup_lt_Some. }
    rewrite decide_True by done.
    rewrite (generateFactoryArguments_fixed rt t resolver ps None rs Ht eq_refl).
    by apply Hloop.
Qed.

(** X3: where the resolution of a raw argument fails with an error that
    is no [TypeReferenceError], the arguments before it resolving, those
    of the variadic tail to values that are assignable to the element
    type, [Generate] returns that very error, at whatever position the
    argument stands, fixed or in the variadic tail; the constructor is
    not called. *)
Theorem Generate_passes_resolver_error rt t resolver ps va rs k a expected
    text :
  underlying (factoryType t) = TFunc ps va rs →
  length ps ≤ length (factoryArguments t) →
  factoryArguments t !! k = Some a →
  expectedArgumentType ps va k = Some expected →
  (∀ j b ty, j < k → factoryArguments t !! j = Some b →
             expectedArgumentType ps va j = Some ty →
             ∃ v, Resolve resolver b ty = Ret v ∧
                  (length ps ≤ j → assignable rt v ty)) →
  Resolve resolver a expected = Fail (errorString text) →
  typeFactory_Generate rt t resolver = Fail (errorString text).
Proof.
  intros Ht Hlen Ha Hexp Hbefore Hfail. unfold typeFactory_Generate.
  by rewrite (generateFactoryArguments_first_failure rt t resolver ps va rs
                k a expected (errorString text)).
Qed.

Lemma Generate_passes_resolver_error_witness :
  let t := {| factory := NewVariadicMockType;
              factoryType := TFunc [TBasic Basic.String]
                               (Some (TBasic Basic.Int)) [TPtr MockType];
              factoryArguments := [VString "a"; VInt 1; VString "%limit%"] |} in
  typeFactory_Generate tests_runtime t (test_resolver ∅)
  = Fail (errorString
      ("the parameter " +:+ Quote "limit" +:+ " was not found")).
Proof.
  intros t.
  apply (Generate_passes_resolver_error tests_runtime t (test_resolver ∅)
           [TBasic Basic.String] (Some (TBasic Basic.Int)) [TPtr MockType]
           2 (VString "%limit%") (TBasic Basic.Int)).
  - reflexivity.
  - simpl. lia.
  - reflexivity.
  - reflexivity.
  - intros [|[|j]] b ty Hj Hb Hty; [| |lia].
    + injection Hb as <-. injection Hty as <-.
      exists (VString "a"). split; [reflexivity|]. simpl. lia.
    + injection Hb as <-. injection Hty as <-.
      exists (VInt 1). split; [reflexivity|]. intros _.
      by exists (TBasic Basic.Int).
  - reflexivity.
Defined.

(** X4: where the resolution of a raw argument of the variadic tail fails
    with a [TypeReferenceError], the arguments before it resolving, those
    of the tail to values that are assignable to the element type,
    [Generate] fails with the error of [invalidReferencedTypeErr] for the
    index of the argument within the tail: the raw argument at position
    [F + j] (from zero, [F] the count of fixed parameters) is reported as
    argument [j + 1]. *)
Theorem Generate_tail_TypeReferenceError rt t resolver fixed e rs j a
    typeID typeInstance text :
  underlying (factoryType t) = TFunc fixed (Some e) rs →
  factoryArguments t !! (length fixed + j) = Some a →
  (∀ i b ty, i < length fixed + j → factoryArguments t !! i = Some b →
             expectedArgumentType fixed (Some e) i = Some ty →
             ∃ v, Resolve resolver b ty = Ret v ∧
                  (length fixed ≤ i → assignable rt v ty)) →
  Resolve resolver a e = Fail (TypeReferenceError typeID typeInstance text) →
  typeFactory_Generate rt t resolver
  = Fail (errorString
      ("the referenced type " +:+ dquote +:+ "@" +:+ typeID +:+ dquote +:+
       " (type " +:+ fmt_T typeInstance +:+
       ") can not be passed as argument " +:+ fmt_d (j + 1) +:+
       " to the function signature " +:+
       after_last_slash (FuncName (factory t)) +:+ "(" +:+
       Join (map Type_String (fixed ++ [TSlice e])) ", " +:+ ")")).
Proof.
  intros Ht Ha Hbefore Hfail. unfold typeFactory_Generate.
  rewrite (generateFactoryArguments_first_failure rt t resolver fixed
             (Some e) rs (length fixed + j) a e
             (TypeReferenceError typeID typeInstance text)); try done.
  - rewrite decide_False by lia.
    by replace (length fixed + j - length fixed) with j by lia.
  - apply lookup_lt_Some in Ha. lia.
  - unfold expectedArgumentType. by rewrite lookup_ge_None_2 by lia.
Qed.

Lemma Generate_tail_TypeReferenceError_witness :
  let t := {| factory := NewVariadicTypeForServiceInjection;
              factoryType := TFunc [TBasic Basic.String] (Some (TPtr MockType))
                [TPtr (TNamed "tests.TypeForServiceInjection"
                         (TStruct [("InjectedType", TPtr MockType)]))];
              factoryArguments := [VString "x"; VPtr MockType None;
                                   VString "@missing"] |} in
  typeFactory_Generate tests_runtime t (test_resolver ∅)
  = Fail (errorString
      ("the referenced type " +:+ dquote +:+ "@" +:+ "missing" +:+ dquote +:+
       " (type " +:+ fmt_T VNil +:+
       ") can not be passed as argument " +:+ fmt_d (1 + 1) +:+
       " to the function signature " +:+
       after_last_slash (FuncName (factory t)) +:+ "(" +:+
       Join (map Type_String ([TBasic Basic.String] ++ [TSlice (TPtr MockType)]))
         ", " +:+ ")")).
Proof.
  intros t.
  apply (Generate_tail_TypeReferenceError tests_runtime t (test_resolver ∅)
           [TBasic Basic.String] (TPtr MockType)
           [TPtr (TNamed "tests.TypeForServiceInjection"
                    (TStruct [("InjectedType", TPtr MockType)]))]
           1 (VString "@missing") "missing" VNil
           ("the type " +:+ Quote "missing" +:+ " has not been defined")).
  - reflexivity.
  - reflexivity.
  - intros [|[|i]] b ty Hi Hb Hty; [| |simpl in Hi; lia].
    + injection Hb as <-. injection Hty as <-.
      exists (VString "x"). split; [reflexivity|]. simpl. lia.
    + injection Hb as <-. injection Hty as <-.
      exists (VPtr MockType None). split; [reflexivity|]. intros _.
      by exists (TPtr MockType).
  - reflexivity.
Defined.


(** * The sanitizer of the generator *)

Lemma sanitize_byte_newline st :
  sanitize_byte st newline
  = if negb (TrimSpace_empty (line st)) then
      {| sanitizedInput := sanitizedInput st ++ line st ++ [newline];
         line := [];
         lineBeginning := true |}
    else st.
Proof. unfold sanitize_byte. by rewrite decide_True. Qed.

Lemma sanitize_byte_out_prefix o st c :
  sanitize_byte {| sanitizedInput := o ++ sanitizedInput st;
                   line := line st; lineBeginning := lineBeginning st |} c
  = {| sanitizedInput := o ++ sanitizedInput (sanitize_byte st c);
       line := line (sanitize_byte st c);
       lineBeginning := lineBeginning (sanitize_byte st c) |}.
Proof.
  unfold sanitize_byte. simpl.
  repeat case_decide; simpl; try done.
  - destruct (TrimSpace_empty (line st)); simpl; [done|].
    by rewrite <- app_assoc.
  - by destruct (lineBeginning st).
Qed.

Lemma fold_sanitize_out_prefix o input :
  ∀ st,
    fold_left sanitize_byte input
      {| sanitizedInput := o ++ sanitizedInput st;
         line := line st; lineBeginning := lineBeginning st |}
    = {| sanitizedInput :=
           o ++ sanitizedInput (fold_left sanitize_byte input st);
         line := line (fold_left sanitize_byte input st);
         lineBeginning := lineBeginning (fold_left sanitize_byte input st) |}.
Proof.
  induction input as [|c input IH]; intros st; simpl; [done|].
  by rewrite sanitize_byte_out_prefix, IH.
Qed.

(** The loop on a stretch of input without a newline: the output is
    untouched and the line grows, its tabs expanded as long as the line
    is at its beginning. *)
Lemma fold_sanitize_line l :
  newline ∉ l →
  ∀ st,
    sanitizedInput (fold_left sanitize_byte l st) = sanitizedInput st ∧
    line (fold_left sanitize_byte l st)
    = line st ++ (if lineBeginning st then expand_tabs l else l).
Proof.
  induction l as [|c l IH]; intros Hnl st; simpl.
  - by destruct (lineBeginning st); rewrite app_nil_r.
  - apply not_elem_of_cons in Hnl as [Hc Hl].
    destruct (IH Hl (sanitize_byte st c)) as [-> ->].
    unfold sanitize_byte. rewrite decide_False by done.
    destruct (decide (c = tab)) as [->|Htab]; simpl.
    + destruct (lineBeginning st); simpl; by rewrite <- app_assoc.
    + destruct (decide (c = space)) as [->|Hsp]; simpl.
      * destruct (lineBeginning st); simpl; by rewrite <- app_assoc.
      * by destruct (lineBeginning st); rewrite <- app_assoc.
Qed.

Lemma TrimSpace_empty_expand_tabs l :
  TrimSpace_empty (expand_tabs l) = TrimSpace_empty l.
Proof.
  induction l as [|c l IH]; simpl; [done|].
  destruct (decide (c = tab)) as [->|Htab]; [by simpl|].
  destruct (decide (c = space)) as [->|Hsp]; [by simpl|done].
Qed.

Lemma sanitizeInput_no_newline l :
  newline ∉ l → sanitizeInput l = expand_tabs l.
Proof.
  intros Hnl. unfold sanitizeInput.
  by destruct (fold_sanitize_line l Hnl
                 {| sanitizedInput := []; line := [];
                    lineBeginning := true |}) as [-> ->].
Qed.

Lemma sanitizeInput_line_step l x :
  newline ∉ l → TrimSpace_empty l = false →
  sanitizeInput (l ++ newline :: x)
  = expand_tabs l ++ newline :: sanitizeInput x.
Proof.
  intros Hnl Hblank. unfold sanitizeInput.
  rewrite fold_left_app. simpl.
  set (init := {| sanitizedInput := []; line := []; lineBeginning := true |}).
  destruct (fold_sanitize_line l Hnl init) as [Hout Hline].
  simpl in Hout, Hline.
  assert (sanitize_byte (fold_left sanitize_byte l init) newline
          = {| sanitizedInput := expand_tabs l ++ [newline]; line := [];
               lineBeginning := true |}) as ->.
  { rewrite sanitize_byte_newline.
    by rewrite Hline, Hout, TrimSpace_empty_expand_tabs, Hblank. }
  pose proof (fold_sanitize_out_prefix (expand_tabs l ++ [newline]) x init)
    as H.
  simpl in H. rewrite app_nil_r in H. rewrite H. simpl.
  by rewrite <- !app_assoc.
Qed.

(** X5: a first line that is not blank is written, with the tabs of its
    indentation expanded to four blanks each and its newline, and the
    rest of the input is sanitized as an input of its own. *)
Theorem sanitizeInput_first_line l x :
  newline ∉ l → TrimSpace_empty l = false →
  sanitizeInput (l ++ newline :: x)
  = expand_tabs l ++ newline :: sanitizeInput x.
Proof. apply sanitizeInput_line_step. Qed.

Lemma sanitizeInput_first_line_witness :
  sanitizeInput ([tab; "a"%char] ++ newline :: ["b"%char])
  = expand_tabs [tab; "a"%char] ++ newline :: sanitizeInput ["b"%char].
Proof.
  apply sanitizeInput_first_line.
  - intros H. apply elem_of_cons in H as [H|H]; [discriminate|].
    apply elem_of_cons in H as [H|H]; [discriminate|].
    by apply elem_of_nil in H.
  - reflexivity.
Defined.

(** X6: the newline that ends a blank first line is dropped, and nothing
    else of that line: its white space stays in the buffer and goes in
    front of what follows. *)
Theorem sanitizeInput_blank_line b x :
  newline ∉ b → TrimSpace_empty b = true →
  sanitizeInput (b ++ newline :: x) = sanitizeInput (b ++ x).
Proof.
  intros Hnl Hblank. unfold sanitizeInput.
  rewrite !fold_left_app. simpl.
  set (init := {| sanitizedInput := []; line := []; lineBeginning := true |}).
  destruct (fold_sanitize_line b Hnl init) as [Hout Hline].
  simpl in Hout, Hline.
  assert (sanitize_byte (fold_left sanitize_byte b init) newline
          = fold_left sanitize_byte b init) as ->; [|done].
  rewrite sanitize_byte_newline.
  by rewrite Hline, TrimSpace_empty_expand_tabs, Hblank.
Qed.

Lemma sanitizeInput_blank_line_witness :
  sanitizeInput ([space; space] ++ newline :: ["b"%char])
  = sanitizeInput ([space; space] ++ ["b"%char]).
Proof.
  apply sanitizeInput_blank_line.
  - intros H. apply elem_of_cons in H as [H|H]; [discriminate|].
    apply elem_of_cons in H as [H|H]; [discriminate|].
    by apply elem_of_nil in H.
  - reflexivity.
Defined.

Lemma expand_tabs_no_tab l : tab ∉ l → expand_tabs l = l.
Proof.
  induction l as [|c l IH]; [done|]. intros [Hc Hl]%not_elem_of_cons.
  simpl. rewrite decide_False by done.
  destruct (decide (c = space)); [|done]. by rewrite IH.
Qed.

(** X7: on an input without a blank line, the sanitizer works line by
    line: each line is written with the tabs of its indentation expanded,
    the newlines are kept, and an input that has no tab either is
    returned as it is. *)
Theorem sanitizeInput_lines ls rest :
  Forall (λ l, (newline ∉ l) ∧ TrimSpace_empty l = false) ls →
  newline ∉ rest →
  sanitizeInput (unlines ls rest)
  = unlines (map expand_tabs ls) (expand_tabs rest) ∧
  (tab ∉ unlines ls rest →
   sanitizeInput (unlines ls rest) = unlines ls rest).
Proof.
  intros Hls Hrest.
  assert (sanitizeInput (unlines ls rest)
          = unlines (map expand_tabs ls) (expand_tabs rest)) as Hgen.
  { unfold unlines. induction Hls as [|l ls [Hnl Hblank] _ IH]; simpl.
    - by apply sanitizeInput_no_newline.
    - rewrite <- !app_assoc. simpl.
      by rewrite sanitizeInput_line_step, IH. }
  split; [done|]. intros Htab. rewrite Hgen. clear Hgen Hrest Hls.
  unfold unlines in *. induction ls as [|l ls IH]; simpl in *.
  - by rewrite expand_tabs_no_tab.
  - rewrite <- !app_assoc in Htab.
    apply not_elem_of_app in Htab as [Hl Htab].
    simpl in Htab. apply not_elem_of_cons in Htab as [_ Htab].
    rewrite (expand_tabs_no_tab l Hl). rewrite <- !app_assoc. simpl.
    by rewrite (IH Htab).
Qed.

Lemma sanitizeInput_lines_witness :
  sanitizeInput (unlines [["a"%char; ":"%char]; [space; "b"%char]] ["c"%char])
  = unlines [["a"%char; ":"%char]; [space; "b"%char]] ["c"%char].
Proof.
  assert (∀ (c : ascii) (l : list ascii),
            bool_decide (c ∈ l) = false → c ∉ l) as Hnotin.
  { intros c l H. by apply bool_decide_eq_false in H. }
  apply (proj2 (sanitizeInput_lines
                  [["a"%char; ":"%char]; [space; "b"%char]] ["c"%char]
                  ltac:(repeat constructor; by apply Hnotin)
                  ltac:(by apply Hnotin))).
  by apply Hnotin.
Defined.

Lemma not_content_newline : ¬ is_content newline.
Proof. by intros (? & _). Qed.

Lemma not_content_tab : ¬ is_content tab.
Proof. by intros (_ & ? & _). Qed.

Lemma not_content_space : ¬ is_content space.
Proof. by intros (_ & _ & ?). Qed.

Lemma filter_content_step st c :
  filter is_content
    (sanitizedInput (sanitize_byte st c) ++ line (sanitize_byte st c))
  = filter is_content (sanitizedInput st ++ line st) ++ filter is_content [c].
Proof.
  assert (∀ l : list ascii,
            filter is_content (l ++ [space]) = filter is_content l) as Hsp.
  { intros l. rewrite filter_app, filter_cons_False, filter_nil, app_nil_r;
      [done|]. apply not_content_space. }
  unfold sanitize_byte.
  destruct (decide (c = newline)) as [->|Hnl].
  - rewrite (filter_cons_False _ newline) by apply not_content_newline.
    rewrite filter_nil, app_nil_r.
    destruct (TrimSpace_empty (line st)); simpl; [done|].
    rewrite app_nil_r, !app_assoc, filter_app.
    rewrite (filter_cons_False _ newline) by apply not_content_newline.
    by rewrite filter_nil, app_nil_r.
  - destruct (decide (c = tab)) as [->|Htab].
    + rewrite (filter_cons_False _ tab) by apply not_content_tab.
      rewrite filter_nil, app_nil_r.
      destruct (lineBeginning st); simpl.
      * change [space; space; space; space]
          with ([space] ++ [space] ++ [space] ++ [space]).
        by rewrite !app_assoc, !Hsp.
      * rewrite app_assoc, filter_app.
        rewrite (filter_cons_False _ tab) by apply not_content_tab.
        by rewrite filter_nil, app_nil_r.
    + destruct (decide (c = space)) as [->|Hsp']; simpl.
      * rewrite app_assoc, Hsp.
        rewrite (filter_cons_False _ space) by apply not_content_space.
        by rewrite filter_nil, app_nil_r.
      * by rewrite app_assoc, filter_app.
Qed.

(** X8: the sanitizer keeps every byte other than newline, tab and
    blank, in the order of the input, and adds none. *)
Theorem sanitizeInput_keeps_content input :
  filter is_content (sanitizeInput input) = filter is_content input.
Proof.
  unfold sanitizeInput.
  assert (∀ st,
            filter is_content
              (sanitizedInput (fold_left sanitize_byte input st) ++
               line (fold_left sanitize_byte input st))
            = filter is_content (sanitizedInput st ++ line st) ++
              filter is_content input) as H.
  { induction input as [|c input IH]; intros st; simpl.
    - by rewrite filter_nil, app_nil_r.
    - rewrite IH, filter_content_step, <- app_assoc.
      by rewrite <- filter_app. }
  by rewrite H.
Qed.

Lemma expand_tabs_spaces w z :
  Forall (λ c, c = space) w → expand_tabs (w ++ z) = w ++ expand_tabs z.
Proof.
  induction 1 as [|c w -> _ IH]; [done|]. simpl. by rewrite IH.
Qed.

Lemma sanitizer_inv_clean st : sanitizer_inv st → clean_line (line st).
Proof.
  intros (_ & Hnl & Hline). split; [done|].
  destruct (lineBeginning st).
  - pose proof (expand_tabs_spaces (line st) [] Hline) as H.
    by rewrite !app_nil_r in H.
  - specialize (Hline []). by rewrite app_nil_r in Hline.
Qed.

Lemma sanitizer_inv_step st c : sanitizer_inv st → sanitizer_inv (sanitize_byte st c).
Proof.
  intros Hinv. pose proof (sanitizer_inv_clean st Hinv) as Hclean.
  destruct Hinv as ((ls & Hout & Hls) & Hnl & Hline).
  unfold sanitize_byte.
  destruct (decide (c = newline)) as [->|Hc].
  { destruct (TrimSpace_empty (line st)) eqn:Hblank; simpl.
    - by repeat split; [exists ls|..].
    - split; [|split; [apply not_elem_of_nil|by constructor]].
      exists (ls ++ [line st]). split.
      + unfold unlines in *. rewrite Hout, !app_nil_r, map_app, concat_app.
        simpl. by rewrite app_nil_r.
      + apply Forall_app. split; [done|].
        constructor; [by split|constructor]. }
  assert (newline ∉ line st ++ [c]) as Hnl'.
  { apply not_elem_of_app. split; [done|].
    intros H. apply elem_of_cons in H as [H|H]; [done|].
    by apply elem_of_nil in H. }
  destruct (decide (c = tab)) as [->|Htab].
  { destruct (lineBeginning st) eqn:Hlb; simpl; rewrite ?Hlb.
    - split; [by exists ls|]. split.
      + apply not_elem_of_app. split; [done|].
        intros H. repeat (apply elem_of_cons in H as [H|H]; [discriminate|]).
        by apply elem_of_nil in H.
      + apply Forall_app. split; [done|]. by repeat constructor.
    - split; [by exists ls|]. split; [done|].
      intros z. simpl. by rewrite <- !app_assoc, Hline. }
  destruct (decide (c = space)) as [->|Hsp]; simpl.
  { split; [by exists ls|]. split; [done|].
    destruct (lineBeginning st).
    - apply Forall_app. split; [done|]. by repeat constructor.
    - intros z. simpl. by rewrite <- !app_assoc, Hline. }
  split; [by exists ls|]. split; [done|].
  intros z. simpl. rewrite <- !app_assoc.
  destruct (lineBeginning st).
  - rewrite expand_tabs_spaces by done. simpl.
    by rewrite !decide_False by done.
  - by rewrite Hline.
Qed.

Lemma sanitizer_inv_fold input :
  ∀ st, sanitizer_inv st → sanitizer_inv (fold_left sanitize_byte input st).
Proof.
  induction input as [|c input IH]; intros st Hinv; simpl; [done|].
  by apply IH, sanitizer_inv_step.
Qed.

Lemma sanitizeInput_structure input :
  ∃ ls rest,
    sanitizeInput input = unlines ls rest ∧
    Forall (λ l, (newline ∉ l) ∧ TrimSpace_empty l = false ∧
                 expand_tabs l = l) ls ∧
    (newline ∉ rest) ∧ expand_tabs rest = rest.
Proof.
  set (init := {| sanitizedInput := []; line := []; lineBeginning := true |}).
  assert (sanitizer_inv init) as Hinit.
  { split; [exists []; by split|]. split; [apply not_elem_of_nil|].
    by constructor. }
  pose proof (sanitizer_inv_fold input init Hinit) as Hinv.
  destruct (sanitizer_inv_clean _ Hinv) as [Hnl Hexp].
  destruct Hinv as ((ls & Hout & Hls) & _ & _).
  exists ls, (line (fold_left sanitize_byte input init)).
  split; [|split; [|done]].
  - unfold sanitizeInput. fold init. rewrite Hout. unfold unlines.
    by rewrite app_nil_r.
  - eapply Forall_impl; [exact Hls|]. by intros l [[??] ?].
Qed.

(** X9: the output of the sanitizer is a text of lines, each ended by a
    newline, and a last line: none of the lines that end in a newline is
    blank, and no line has a tab before its first byte other than blank
    and tab. *)
Theorem sanitizeInput_output_lines input :
  ∃ ls rest,
    sanitizeInput input = unlines ls rest ∧
    Forall (λ l, (newline ∉ l) ∧ TrimSpace_empty l = false ∧
                 expand_tabs l = l) ls ∧
    (newline ∉ rest) ∧ expand_tabs rest = rest.
Proof. apply sanitizeInput_structure. Qed.

(** X10: sanitizing is idempotent: the sanitizer leaves its own output
    as it is. *)
Theorem sanitizeInput_idempotent input :
  sanitizeInput (sanitizeInput input) = sanitizeInput input.
Proof.
  destruct (sanitizeInput_structure input)
    as (ls & rest & -> & Hls & Hnl & Hrest).
  assert (sanitizeInput (unlines ls rest)
          = unlines (map expand_tabs ls) (expand_tabs rest)) as ->.
  { unfold unlines. clear Hrest.
    induction Hls as [|l ls (Hl & Hblank & _) _ IH]; simpl.
    - by apply sanitizeInput_no_newline.
    - rewrite <- !app_assoc. simpl.
      by rewrite sanitizeInput_line_step, IH. }
  rewrite Hrest. f_equal.
  induction Hls as [|l ls (_ & _ & Hl) _ IH]; simpl; [done|].
  by rewrite Hl, IH.
Qed.

(** * [captureStrings] *)

Lemma unescape_cons2 c c' rest :
  unescape (String c (String c' rest))
  = if decide (Ascii.nat_of_ascii c = 92 ∧ c' = "@"%char)
    then String "@" (unescape rest)
    else String c (unescape (String c' rest)).
Proof. reflexivity. Qed.

Lemma unescape_escaped_at b : unescape (escaped_at +:+ b) = String "@" (unescape b).
Proof. reflexivity. Qed.

(** X11: an escaped [@] loses its backslash wherever it stands:
    unescaping a text around a backslash and an [@] is unescaping what
    stands before it and what stands after it, with the [@] between
    them. *)
Theorem unescape_app_escaped_at a b :
  unescape (a +:+ escaped_at +:+ b) = unescape a +:+ "@" +:+ unescape b.
Proof.
  revert b.
  assert ((∀ b, unescape (a +:+ escaped_at +:+ b)
                = unescape a +:+ "@" +:+ unescape b) ∧
          (∀ c b, unescape (String c a +:+ escaped_at +:+ b)
                  = unescape (String c a) +:+ "@" +:+ unescape b)) as [H _];
    [|done].
  induction a as [|d a [IH1 IH2]].
  - split; [intros b; apply unescape_escaped_at|].
    intros c b.
    change (String c EmptyString +:+ escaped_at +:+ b)
      with (String c (String (Ascii.ascii_of_nat 92) (String "@" b))).
    rewrite unescape_cons2, decide_False by (by intros [_ ?]).
    change (String (Ascii.ascii_of_nat 92) (String "@" b))
      with (escaped_at +:+ b).
    by rewrite unescape_escaped_at.
  - split; [apply IH2|]. intros c b.
    change (String c (String d a) +:+ escaped_at +:+ b)
      with (String c (String d (a +:+ escaped_at +:+ b))).
    rewrite !unescape_cons2. case_decide.
    + by rewrite IH1.
    + change (String d (a +:+ escaped_at +:+ b))
        with (String d a +:+ escaped_at +:+ b).
      by rewrite IH2.
Qed.

(** X12: a text in which no [@] follows a backslash is left as it is. *)
Theorem unescape_without_escape s :
  Contains s escaped_at = false → unescape s = s.
Proof.
  induction s as [|c s IH]; [done|].
  rewrite Contains_unfold. intros [Hpre Hs]%orb_false_elim.
  destruct s as [|c' s]; [done|].
  rewrite unescape_cons2, IH by done.
  rewrite decide_False; [done|]. intros [Hc ->].
  assert (c = Ascii.ascii_of_nat 92) as ->.
  { by rewrite <- (Ascii.ascii_nat_embedding c), Hc. }
  by destruct s.
Qed.

Lemma unescape_without_escape_witness :
  unescape "@logger::Debug" = "@logger::Debug".
Proof. apply unescape_without_escape. reflexivity. Defined.

Lemma foldl_insert_lookup {A : Type} (f : A → A) entries :
  ∀ (m : gmap string A) id,
    NoDup entries.*1 →
    foldl (λ m '(id, t), <[id := f t]> m) m entries !! id
    = match (list_to_map entries : gmap string A) !! id with
      | Some t => Some (f t)
      | None => m !! id
      end.
Proof.
  induction entries as [|[k t] entries IH]; intros m id Hdup; simpl.
  - by rewrite lookup_empty.
  - apply NoDup_cons in Hdup as [Hk Hdup]. rewrite IH by done.
    destruct (decide (k = id)) as [->|Hne].
    + rewrite lookup_insert_eq.
      rewrite (not_elem_of_list_to_map_1 entries id Hk).
      by rewrite lookup_insert_eq.
    + by rewrite !lookup_insert_ne by done.
Qed.

(** X13: in whatever order the loop meets the types, [captureStrings]
    leaves the configuration with the same ids, each type captured on its
    own: its names and configurator unescaped, the strings among its raw
    arguments unescaped and the other raw arguments untouched. *)
Theorem captureStrings_pointwise {Others : Type}
    (Types : gmap string (TypeDefinition Others)) entries :
  entries ≡ₚ map_to_list Types →
  captureStrings entries Types = capture <$> Types.
Proof.
  intros Horder. apply map_eq. intros id. unfold captureStrings.
  rewrite foldl_insert_lookup.
  - rewrite (list_to_map_proper entries (map_to_list Types)); [| |done].
    + rewrite list_to_map_to_list, lookup_fmap.
      by destruct (Types !! id).
    + rewrite Horder. apply NoDup_fst_map_to_list.
  - rewrite Horder. apply NoDup_fst_map_to_list.
Qed.

Lemma captureStrings_pointwise_witness :
  let t := {| TypeName := "Baz"; FuncName_ := EmptyString;
              FactoryMethod := EmptyString;
              AliasForType := escaped_at +:+ "test_type";
              Configurator := []; RawArguments := [VString "foo"; VInt 42];
              RawArgumentsShort := []; others := tt |} in
  captureStrings [("my_alias", t)] {["my_alias" := t]}
  = capture <$> ({["my_alias" := t]} : gmap string (TypeDefinition unit)).
Proof.
  intros t. apply captureStrings_pointwise.
  by rewrite map_to_list_singleton.
Defined.

(** * The type registration function of the generator *)

Lemma string_length_app s t :
  String.length (s +:+ t) = String.length s + String.length t.
Proof.
  induction s as [|c s IH]; [done|].
  change (S (String.length (s +:+ t)) = S (String.length s + String.length t)).
  by rewrite IH.
Qed.

Lemma Repeat_space_length n : String.length (Repeat_space n) = n.
Proof. induction n as [|n IH]; [done|]. simpl. by rewrite IH. Qed.

Lemma max_list_Permutation (l1 l2 : list nat) :
  l1 ≡ₚ l2 → max_list l1 = max_list l2.
Proof. induction 1; simpl; lia. Qed.

Lemma sort_Strings_Permutation l1 l2 :
  l1 ≡ₚ l2 → sort_Strings l1 = sort_Strings l2.
Proof.
  intros Hperm. unfold sort_Strings.
  apply (Sorted_unique String.le); [apply Sorted_merge_sort, _..|].
  by rewrite !merge_sort_Permutation.
Qed.

Section GenerateTypeRegistrationProperties.

Context {TypeDef : Type} `{!Inhabited TypeDef}.
Context (FactoryCode : TypeDef → string → string).

Lemma collect_typeIDs_go (entries : list (string * TypeDef)) :
  ∀ (pre post : list string) m,
    length entries ≤ length post →
    foldl (λ '(typeIDs, i, maxIDLength) '(typeID, _),
             (<[i := typeID]> typeIDs, S i,
              if decide (maxIDLength < String.length typeID)
              then String.length typeID else maxIDLength))
      (pre ++ post, length pre, m) entries
    = (pre ++ entries.*1 ++ drop (length entries) post,
       length pre + length entries,
       m `max` max_list (String.length <$> entries.*1)).
Proof.
  induction entries as [|[id t] entries IH]; intros pre post m Hlen; simpl.
  - rewrite drop_0. do 2 f_equal; lia.
  - destruct post as [|p post]; simpl in Hlen; [lia|].
    assert (<[length pre := id]> (pre ++ p :: post) = (pre ++ [id]) ++ post)
      as ->.
    { rewrite insert_app_r_alt by lia. rewrite Nat.sub_diag. simpl.
      by rewrite <- app_assoc. }
    replace (S (length pre)) with (length (pre ++ [id]))
      by (rewrite length_app; simpl; lia).
    rewrite IH by lia. rewrite length_app, <- !app_assoc. simpl.
    f_equal; [f_equal; lia|]. unfold fmap. case_decide; lia.
Qed.

Lemma collect_typeIDs_spec (entries : list (string * TypeDef)) :
  collect_typeIDs (length entries) entries
  = (entries.*1, length entries, max_list (String.length <$> entries.*1)).
Proof.
  unfold collect_typeIDs.
  pose proof (collect_typeIDs_go entries []
                (replicate (length entries) EmptyString) 0) as H.
  simpl in H. rewrite H by (by rewrite length_replicate).
  rewrite drop_ge by (by rewrite length_replicate).
  by rewrite app_nil_r.
Qed.

Lemma foldl_append_entries (f : string → string) ids :
  ∀ output,
    foldl (λ output id, output +:+ f id) output ids
    = output +:+ foldr (λ id rest, f id +:+ rest) EmptyString ids.
Proof.
  induction ids as [|id ids IH]; intros output; simpl.
  - by rewrite string_app_nil_r.
  - by rewrite IH, string_app_assoc.
Qed.

(** X14: the text [generateTypeRegistrationFunction] writes does not
    depend on the order in which the [range] over [conf.Types] meets the
    types. *)
Theorem generateTypeRegistrationFunction_deterministic FunctionName Package
    (Types : gmap string TypeDef) entries1 entries2 output :
  entries1 ≡ₚ map_to_list Types →
  entries2 ≡ₚ map_to_list Types →
  generateTypeRegistrationFunction FactoryCode FunctionName Package Types
    entries1 output
  = generateTypeRegistrationFunction FactoryCode FunctionName Package Types
      entries2 output.
Proof.
  intros H1 H2. unfold generateTypeRegistrationFunction.
  assert (∀ entries, entries ≡ₚ map_to_list Types →
            length entries = size Types) as Hsize.
  { intros entries ->. apply length_map_to_list. }
  replace (collect_typeIDs (size Types) entries1)
    with (collect_typeIDs (length entries1) entries1)
    by (by rewrite (Hsize entries1 H1)).
  replace (collect_typeIDs (size Types) entries2)
    with (collect_typeIDs (length entries2) entries2)
    by (by rewrite (Hsize entries2 H2)).
  rewrite !collect_typeIDs_spec.
  assert (entries1.*1 ≡ₚ entries2.*1) as Hperm by (by rewrite H1, H2).
  rewrite (sort_Strings_Permutation _ _ Hperm).
  by rewrite (max_list_Permutation (String.length <$> entries1.*1)
                (String.length <$> entries2.*1)) by (by rewrite Hperm).
Qed.

(** X15: for a configuration that has not exactly one type,
    [generateTypeRegistrationFunction] writes one call of [RegisterAll]
    with one entry per type: the entries stand in the order of the bytes
    of their ids, each id once, and each id is followed by as many blanks
    as it is shorter than the longest id. *)
Theorem generateTypeRegistrationFunction_RegisterAll FunctionName Package
    (Types : gmap string TypeDef) entries output :
  entries ≡ₚ map_to_list Types →
  size Types ≠ 1 →
  ∃ ids width,
    Sorted String.le ids ∧ NoDup ids ∧
    (∀ id, id ∈ ids ↔ is_Some (Types !! id)) ∧
    (∀ id, id ∈ ids → String.length id ≤ width) ∧
    (ids ≠ [] → ∃ id, id ∈ ids ∧ String.length id = width) ∧
    generateTypeRegistrationFunction FactoryCode FunctionName Package Types
      entries output
    = output +:+ "func " +:+ FunctionName +:+
      "(types goldi.TypeRegistry) {" +:+ NL +:+
      TAB +:+ "types.RegisterAll(map[string]goldi.TypeFactory{" +:+ NL +:+
      foldr (λ id rest,
               (TAB +:+ TAB +:+ Quote id +:+ ": " +:+
                Repeat_space (width - String.length id) +:+
                FactoryCode (Types !!! id) Package +:+ "," +:+ NL) +:+ rest)
        EmptyString ids +:+
      TAB +:+ "})" +:+ NL +:+ "}" +:+ NL.
Proof.
  intros Horder Hsize.
  assert (length entries = size Types) as Hlen
    by (rewrite Horder; apply length_map_to_list).
  assert (sort_Strings entries.*1 ≡ₚ (map_to_list Types).*1) as Hperm.
  { unfold sort_Strings. by rewrite merge_sort_Permutation, Horder. }
  exists (sort_Strings entries.*1),
         (max_list (String.length <$> entries.*1)).
  split; [apply Sorted_merge_sort, _|].
  split; [rewrite Hperm; apply NoDup_fst_map_to_list|].
  split.
  { intros id. rewrite Hperm. rewrite list_elem_of_fmap. split.
    - intros ([id' t] & -> & Hin%elem_of_map_to_list). by eexists.
    - intros [t Ht]. exists (id, t). split; [done|].
      by apply elem_of_map_to_list. }
  assert (∀ id, id ∈ sort_Strings entries.*1 ↔ id ∈ entries.*1) as Hmem.
  { intros id. unfold sort_Strings. by rewrite merge_sort_Permutation. }
  split.
  { intros id Hin%Hmem. apply max_list_elem_of_le.
    apply list_elem_of_fmap. by exists id. }
  split.
  { intros Hne.
    assert (String.length <$> entries.*1 ≠ []) as Hne'.
    { intros Hnil. apply Hne. apply fmap_nil_inv in Hnil.
      unfold sort_Strings. apply Permutation_nil_r.
      by rewrite merge_sort_Permutation, Hnil. }
    apply max_list_elem_of in Hne'.
    apply list_elem_of_fmap in Hne' as (id & Hid & Hin).
    exists id. split; [by apply Hmem|done]. }
  unfold generateTypeRegistrationFunction.
  replace (collect_typeIDs (size Types) entries)
    with (collect_typeIDs (length entries) entries) by (by rewrite Hlen).
  rewrite collect_typeIDs_spec.
  rewrite decide_False by done.
  unfold registration_entry. rewrite foldl_append_entries.
  by rewrite !string_app_assoc.
Qed.

(** X16: in the entries of [RegisterAll], the code of every factory
    starts in the same column, six bytes beyond the length of the longest
    id, for the ids made of printable ASCII characters other than the
    double quote and the backslash, which [%q] only wraps in quotes. *)
Theorem registration_entry_column Package (Types : gmap string TypeDef)
    entries id :
  entries ≡ₚ map_to_list Types →
  is_Some (Types !! id) →
  plain id = true →
  ∃ typeIDs i maxIDLength before,
    collect_typeIDs (size Types) entries = (typeIDs, i, maxIDLength) ∧
    registration_entry FactoryCode Package Types maxIDLength id
    = before +:+ FactoryCode (Types !!! id) Package +:+ "," +:+ NL ∧
    String.length before = maxIDLength + 6.
Proof.
  intros Horder [t Ht] Hplain.
  assert (length entries = size Types) as Hlen
    by (rewrite Horder; apply length_map_to_list).
  rewrite <- Hlen, collect_typeIDs_spec.
  eexists _, _, _,
    (TAB +:+ TAB +:+ Quote id +:+ ": " +:+
     Repeat_space (max_list (String.length <$> entries.*1) -
                   String.length id)).
  split; [done|]. split.
  - unfold registration_entry. by rewrite !string_app_assoc.
  - assert (String.length id ≤ max_list (String.length <$> entries.*1)) as Hle.
    { apply max_list_elem_of_le, list_elem_of_fmap. exists id.
      split; [done|]. apply list_elem_of_fmap. exists (id, t).
      split; [done|]. rewrite Horder. by apply elem_of_map_to_list. }
    unfold Quote. rewrite (quote_bytes_plain id Hplain).
    rewrite !string_length_app, Repeat_space_length. simpl. lia.
Qed.

(** X17: for a configuration of exactly one type,
    [generateTypeRegistrationFunction] writes one call of [Register] with
    the quoted id and the code of the factory, and no [RegisterAll]. *)
Theorem generateTypeRegistrationFunction_single FunctionName Package id
    (t : TypeDef) entries output :
  entries ≡ₚ map_to_list ({[id := t]} : gmap string TypeDef) →
  generateTypeRegistrationFunction FactoryCode FunctionName Package
    {[id := t]} entries output
  = output +:+ "func " +:+ FunctionName +:+
    "(types goldi.TypeRegistry) {" +:+ NL +:+
    TAB +:+ "types.Register(" +:+ Quote id +:+ ", " +:+
    FactoryCode t Package +:+ ")" +:+ NL +:+ "}" +:+ NL.
Proof.
  rewrite map_to_list_singleton. intros ->%Permutation_singleton_r.
  unfold generateTypeRegistrationFunction.
  rewrite map_size_singleton.
  change 1 with (length [(id, t)]) at 1. rewrite collect_typeIDs_spec.
  rewrite decide_True by done. simpl.
  unfold sort_Strings. simpl. rewrite lookup_total_singleton_eq.
  by rewrite !string_app_assoc.
Qed.

End GenerateTypeRegistrationProperties.

Lemma generateTypeRegistrationFunction_deterministic_witness :
  generateTypeRegistrationFunction (λ (_ : unit) p, p +:+ ".New") "Register"
    "lib" (<["b" := tt]> (<["a" := tt]> ∅)) [("a", tt); ("b", tt)] EmptyString
  = generateTypeRegistrationFunction (λ (_ : unit) p, p +:+ ".New") "Register"
      "lib" (<["b" := tt]> (<["a" := tt]> ∅)) [("b", tt); ("a", tt)]
      EmptyString.
Proof.
  assert (map_to_list (<["b" := tt]> (<["a" := tt]> (∅ : gmap string unit)))
          ≡ₚ [("b", tt); ("a", tt)]) as H.
  { rewrite map_to_list_insert by (by rewrite lookup_insert_ne).
    by rewrite insert_empty, map_to_list_singleton. }
  apply generateTypeRegistrationFunction_deterministic.
  - rewrite H. apply perm_swap.
  - by rewrite H.
Defined.

Lemma generateTypeRegistrationFunction_RegisterAll_witness :
  ∃ ids width,
    Sorted String.le ids ∧ NoDup ids ∧
    (∀ id, id ∈ ids ↔
           is_Some ((<["b" := tt]> (<["a" := tt]> ∅) : gmap string unit)
                    !! id)) ∧
    (∀ id, id ∈ ids → String.length id ≤ width) ∧
    (ids ≠ [] → ∃ id, id ∈ ids ∧ String.length id = width) ∧
    generateTypeRegistrationFunction (λ (_ : unit) p, p +:+ ".New") "Register"
      "lib" (<["b" := tt]> (<["a" := tt]> ∅)) [("b", tt); ("a", tt)]
      EmptyString
    = EmptyString +:+ "func " +:+ "Register" +:+
      "(types goldi.TypeRegistry) {" +:+ NL +:+
      TAB +:+ "types.RegisterAll(map[string]goldi.TypeFactory{" +:+ NL +:+
      foldr (λ id rest,
               (TAB +:+ TAB +:+ Quote id +:+ ": " +:+
                Repeat_space (width - String.length id) +:+
                (λ (_ : unit) p, p +:+ ".New")
                  ((<["b" := tt]> (<["a" := tt]> ∅) : gmap string unit) !!! id)
                  "lib" +:+ "," +:+ NL) +:+ rest)
        EmptyString ids +:+
      TAB +:+ "})" +:+ NL +:+ "}" +:+ NL.
Proof.
  assert (map_to_list (<["b" := tt]> (<["a" := tt]> (∅ : gmap string unit)))
          ≡ₚ [("b", tt); ("a", tt)]) as H.
  { rewrite map_to_list_insert by (by rewrite lookup_insert_ne).
    by rewrite insert_empty, map_to_list_singleton. }
  apply (generateTypeRegistrationFunction_RegisterAll
           (λ (_ : unit) p, p +:+ ".New") "Register" "lib"
           (<["b" := tt]> (<["a" := tt]> ∅)) [("b", tt); ("a", tt)]
           EmptyString).
  - by rewrite H.
  - rewrite <- (length_map_to_list (<["b" := tt]> (<["a" := tt]> ∅))), H.
    discriminate.
Defined.

Lemma registration_entry_column_witness :
  ∃ typeIDs i maxIDLength before,
    collect_typeIDs (size (<["logger" := tt]> (<["a" := tt]> ∅)
                           : gmap string unit))
      [("logger", tt); ("a", tt)] = (typeIDs, i, maxIDLength) ∧
    registration_entry (λ (_ : unit) p, p +:+ ".New") "lib"
      (<["logger" := tt]> (<["a" := tt]> ∅)) maxIDLength "a"
    = before +:+
      (λ (_ : unit) p, p +:+ ".New")
        ((<["logger" := tt]> (<["a" := tt]> ∅) : gmap string unit) !!! "a")
        "lib" +:+ "," +:+ NL ∧
    String.length before = maxIDLength + 6.
Proof.
  apply (registration_entry_column (λ (_ : unit) p, p +:+ ".New") "lib"
           (<["logger" := tt]> (<["a" := tt]> ∅))).
  - rewrite map_to_list_insert by (by rewrite lookup_insert_ne).
    by rewrite insert_empty, map_to_list_singleton.
  - rewrite lookup_insert_ne by done. rewrite lookup_insert_eq. by eexists.
  - reflexivity.
Defined.

Lemma generateTypeRegistrationFunction_single_witness :
  generateTypeRegistrationFunction (λ (_ : unit) p, p +:+ ".New") "Register"
    "lib" {["a" := tt]} [("a", tt)] EmptyString
  = EmptyString +:+ "func " +:+ "Register" +:+
    "(types goldi.TypeRegistry) {" +:+ NL +:+
    TAB +:+ "types.Register(" +:+ Quote "a" +:+ ", " +:+
    (λ (_ : unit) p, p +:+ ".New") tt "lib" +:+ ")" +:+ NL +:+ "}" +:+ NL.
Proof.
  apply (generateTypeRegistrationFunction_single
           (λ (_ : unit) p, p +:+ ".New") "Register" "lib" "a" tt).
  by rewrite map_to_list_singleton.
Defined.

(** * Argument gathering on the factories [NewType] accepts *)

Lemma resolve_for_no_panic (t : typeFactory) resolver ps va rs expected i a ty :
  underlying (factoryType t) = TFunc ps va rs →
  (∀ a ty reason, Resolve resolver a ty ≠ Panic reason) →
  expected i = Ret ty →
  ∀ reason, resolve_for t resolver expected i a ≠ Panic reason.
Proof.
  intros Ht Hres Hty reason. unfold resolve_for. rewrite Hty. simpl.
  destruct (Resolve resolver a ty) as [v|[text|typeID typeInstance text]|p]
    eqn:E.
  - done.
  - done.
  - by rewrite (resolved_TypeReferenceError t ps va rs Ht).
  - by destruct (Hres a ty p).
Qed.

Lemma store_for_no_panic rt (t : typeFactory) resolver ps va rs e i a :
  underlying (factoryType t) = TFunc ps va rs →
  (∀ a ty reason, Resolve resolver a ty ≠ Panic reason) →
  (∀ a ty v, Resolve resolver a ty = Ret v → assignable rt v ty) →
  ∀ reason, store_for rt t resolver e i a ≠ Panic reason.
Proof.
  intros Ht Hres Hassign reason. unfold store_for, resolve_for.
  change (mbind (Value_Set rt e) (resolved t i (Resolve resolver a e))
          ≠ Panic reason).
  destruct (Resolve resolver a e) as [v|[text|typeID typeInstance text]|p]
    eqn:E.
  - simpl. by rewrite (Value_Set_assignable rt e v (Hassign a e v E)).
  - done.
  - by rewrite (resolved_TypeReferenceError t ps va rs Ht).
  - by destruct (Hres a e p).
Qed.

(** X18: on a factory that [NewType] accepted, with a resolver that does
    not panic and returns only values that are assignable to the type it
    resolves for, the gathering of the arguments for the call does not
    panic either: no index and no slice bound is out of range.  It fails
    with an error, or gives exactly as many arguments as the function has
    parameters. *)
Theorem NewType_generateFactoryArguments_safe rt f l t resolver :
  NewType f l = Ret (FuncT t) →
  (∀ a ty reason, Resolve resolver a ty ≠ Panic reason) →
  (∀ a ty v, Resolve resolver a ty = Ret v → assignable rt v ty) →
  (∃ err, generateFactoryArguments rt t resolver = Fail err) ∨
  (∃ args, generateFactoryArguments rt t resolver = Ret args ∧
           NumIn (factoryType t) = Ret (length args)).
Proof.
  intros (ft & ps & va & r & _ & Hft & _ & Harity & ->)%NewType_FuncT_inv
    Hres Hassign.
  set (t := {| factory := f; factoryType := ft; factoryArguments := l |}).
  assert (underlying (factoryType t) = TFunc ps va [r]) as Ht by done.
  rewrite (NumIn_func (factoryType t) ps va [r] Ht).
  unfold arity_ok in Harity. destruct va as [e|].
  - rewrite (generateFactoryArguments_variadic rt t resolver ps (Some e) [r]
               Ht e) by (done || (simpl; lia)).
    simpl factoryArguments.
    destruct (imapM (resolve_for t resolver (In (factoryType t))) 0
                (take (length ps) l)) as [fixed|err|p] eqn:Efixed; simpl.
    + destruct (imapM (store_for rt t resolver e) 0
                  (drop (length ps) l)) as [tail|err|p] eqn:Etail; simpl.
      * right. eexists. split; [done|].
        apply imapM_length in Efixed. rewrite length_take in Efixed.
        rewrite length_app. simpl. do 2 f_equal. lia.
      * left. by eexists.
      * exfalso. revert Etail. apply imapM_no_panic.
        intros k x reason _. by eapply store_for_no_panic.
    + left. by eexists.
    + exfalso. revert Efixed. apply imapM_no_panic.
      intros k x reason Hk. simpl.
      apply lookup_lt_Some in Hk. rewrite length_take in Hk.
      destruct (lookup_lt_is_Some_2 ps k) as [ty Hty]; [lia|].
      eapply resolve_for_no_panic; [done..|].
      by apply (In_fixed (factoryType t) ps (Some e) [r] Ht).
  - rewrite (generateFactoryArguments_fixed rt t resolver ps None [r] Ht)
      by done.
    simpl factoryArguments.
    destruct (imapM (resolve_for t resolver (In (factoryType t))) 0 l)
      as [args|err|p] eqn:Eargs.
    + right. exists args. split; [done|].
      apply imapM_length in Eargs. f_equal. lia.
    + left. by eexists.
    + exfalso. revert Eargs. apply imapM_no_panic.
      intros k x reason Hk. simpl.
      apply lookup_lt_Some in Hk.
      destruct (lookup_lt_is_Some_2 ps k) as [ty Hty]; [lia|].
      eapply resolve_for_no_panic; [done..|].
      by apply (In_fixed (factoryType t) ps None [r] Ht).
Qed.

Lemma NewType_generateFactoryArguments_safe_witness :
  let t := {| factory := NewVariadicMockType;
              factoryType := TFunc [TBasic Basic.String]
                               (Some (TBasic Basic.Int)) [TPtr MockType];
              factoryArguments := [VString "a"; VInt 1; VBool true] |} in
  let resolver :=
    {| Resolve := λ a ty,
         match TypeOf a with
         | Some V =>
             if tests_AssignableTo V ty then Ret a
             else Fail (errorString "the value has not the expected type")
         | None => Fail (errorString "the value is nil")
         end;
       Container_Get := λ _, Ret VNil |} in
  (∃ err, generateFactoryArguments tests_runtime t resolver = Fail err) ∨
  (∃ args, generateFactoryArguments tests_runtime t resolver = Ret args ∧
           NumIn (factoryType t) = Ret (length args)).
Proof.
  intros t resolver.
  apply (NewType_generateFactoryArguments_safe tests_runtime
           NewVariadicMockType [VString "a"; VInt 1; VBool true] t resolver).
  - reflexivity.
  - intros a ty reason. simpl.
    destruct (TypeOf a) as [V|]; [|discriminate].
    destruct (tests_AssignableTo V ty); discriminate.
  - intros a ty v. simpl.
    destruct (TypeOf a) as [V|] eqn:HV; [|discriminate].
    destruct (tests_AssignableTo V ty) eqn:Hassign; [|discriminate].
    intros [= <-]. by exists V.
Defined.

(** * What [Set] refuses *)

Lemma imapM_Panic {A B : Type} (f : nat → A → Res B) l :
  ∀ i k x reason, l !! k = Some x →
    (∀ j y, j < k → l !! j = Some y → ∃ v, f (i + j) y = Ret v) →
    f (i + k) x = Panic reason →
    imapM f i l = Panic reason.
Proof.
  induction l as [|y l IH]; intros i k x reason Hk Hbefore Hpanic; [done|].
  destruct k as [|k]; simpl in *.
  - injection Hk as ->. rewrite Nat.add_0_r in Hpanic. by rewrite Hpanic.
  - destruct (Hbefore 0 y) as [v Hv]; [lia|done|].
    rewrite Nat.add_0_r in Hv. rewrite Hv. simpl.
    rewrite (IH (S i) k x reason); [done|done| |].
    + intros j z Hj Hz. rewrite Nat.add_succ_comm. apply Hbefore; [lia|done].
    + by rewrite Nat.add_succ_comm.
Qed.

(** X19: where a raw argument of the variadic tail resolves to a value
    that [Set] refuses for an element of the slice, the zero Value or a
    value of a type that is not assignable to the element type, the
    arguments before it resolving, those of the tail to assignable
    values, [Generate] panics; the constructor is not called. *)
Theorem Generate_panics_on_unassignable_tail rt t resolver fixed e rs j a v :
  underlying (factoryType t) = TFunc fixed (Some e) rs →
  factoryArguments t !! (length fixed + j) = Some a →
  (∀ i b ty, i < length fixed + j → factoryArguments t !! i = Some b →
             expectedArgumentType fixed (Some e) i = Some ty →
             ∃ v, Resolve resolver b ty = Ret v ∧
                  (length fixed ≤ i → assignable rt v ty)) →
  Resolve resolver a e = Ret v →
  ¬ assignable rt v e →
  ∃ reason, typeFactory_Generate rt t resolver = Panic reason.
Proof.
  intros Ht Ha Hbefore Hv Hnot.
  destruct (Value_Set_not_assignable rt e v Hnot) as [reason Hset].
  exists reason. unfold typeFactory_Generate.
  assert (length fixed ≤ length (factoryArguments t)) as Hlen.
  { apply lookup_lt_Some in Ha. lia. }
  rewrite (generateFactoryArguments_variadic rt t resolver fixed (Some e) rs
             Ht e eq_refl Hlen).
  destruct (imapM_Ret_exists
              (resolve_for t resolver (In (factoryType t)))
              (take (length fixed) (factoryArguments t)) 0) as [vs ->].
  { intros i b Hb. simpl. unfold resolve_for.
    pose proof (lookup_lt_Some _ _ _ Hb) as Hi.
    rewrite length_take in Hi.
    rewrite lookup_take_lt in Hb by lia.
    destruct (lookup_lt_is_Some_2 fixed i) as [ty Hty]; [lia|].
    destruct (Hbefore i b ty) as (w & Hw & _); [lia|done| |].
    { unfold expectedArgumentType. by rewrite Hty. }
    exists w. rewrite (In_fixed _ fixed (Some e) rs Ht i ty Hty). simpl.
    by rewrite Hw. }
  simpl.
  rewrite (imapM_Panic (store_for rt t resolver e)
             (drop (length fixed) (factoryArguments t)) 0 j a reason);
    [done| | |].
  - by rewrite lookup_drop.
  - intros i b Hi Hb. rewrite lookup_drop in Hb.
    destruct (Hbefore (length fixed + i) b e) as (w & Hw & Hassign);
      [lia|done| |].
    { unfold expectedArgumentType. by rewrite lookup_ge_None_2 by lia. }
    exists w. simpl. apply store_for_Ret; [done|]. apply Hassign. lia.
  - simpl. unfold store_for, resolve_for. simpl. by rewrite Hv.
Qed.

Lemma Generate_panics_on_unassignable_tail_witness :
  let t := {| factory := NewVariadicMockType;
              factoryType := TFunc [TBasic Basic.String]
                               (Some (TBasic Basic.Int)) [TPtr MockType];
              factoryArguments := [VString "a"; VInt 1; VBool true] |} in
  let resolver := {| Resolve := λ a _, Ret a;
                     Container_Get := λ _, Ret VNil |} in
  ∃ reason, typeFactory_Generate tests_runtime t resolver = Panic reason.
Proof.
  intros t resolver.
  apply (Generate_panics_on_unassignable_tail tests_runtime t resolver
           [TBasic Basic.String] (TBasic Basic.Int) [TPtr MockType]
           1 (VBool true) (VBool true)).
  - reflexivity.
  - reflexivity.
  - intros [|[|i]] b ty Hi Hb Hty; [| |simpl in Hi; lia].
    + injection Hb as <-. exists (VString "a"). split; [reflexivity|].
      simpl. lia.
    + injection Hb as <-. injection Hty as <-.
      exists (VInt 1). split; [reflexivity|]. intros _.
      by exists (TBasic Basic.Int).
  - reflexivity.
  - intros (V & HV & Hassign). injection HV as <-. discriminate Hassign.
Defined.
